(** * The bulk loader's chunkers and map stage (dgraph/cmd/bulk/loader.go)

    A shallow embedding of [loader.go]: the two chunkers ([rdfChunker] and
    [jsonChunker]) over a model of [bufio.Reader], the reader goroutine of
    [loader.mapStage], the timestamp bootstrap [getWriteTimestamp],
    [newLoader], [readSchema], [findDataFiles] and the orchestration of
    [loader.mapStage], followed by the properties proved about them. *)

From Stdlib Require Import String Ascii ZArith List Bool Lia Arith Permutation.
Import ListNotations.

Set Implicit Arguments.

(** ** Errors, process exit and loops *)

(** Go [error] values met in [loader.go].  A possibly-nil [error] is an
    [option error], [None] standing for [nil]. *)
Inductive error : Type :=
| EOF                                  (* io.EOF *)
| ErrBufferFull                        (* bufio.ErrBufferFull *)
| ErrInvalidUnreadRune                 (* bufio.ErrInvalidUnreadRune *)
| ErrRead                              (* any other failure of the underlying io.Reader *)
| New (msg : string)                   (* errors.New(msg) *)
| Errorf (format : string) (arg : Z).  (* fmt.Errorf(format, arg) *)

(** [err == io.EOF] *)
Definition isEOF (err : option error) : bool :=
  match err with Some EOF => true | _ => false end.

(** [err == bufio.ErrBufferFull] *)
Definition isBufferFull (err : option error) : bool :=
  match err with Some ErrBufferFull => true | _ => false end.

(** How a call ends: it returns, or the process is terminated from inside
    it ([x.Check] on a non-nil error), or the model's loop bound was
    exhausted.  The last case is shown unreachable for the loops of the
    chunkers and of the reader goroutine. *)
Inductive outcome (A : Type) : Type :=
| Ret (a : A)
| Fatal (cause : error)
| OutOfFuel.

Arguments Ret {A} a.
Arguments Fatal {A} cause.
Arguments OutOfFuel {A}.

Definition bind {A B : Type} (m : outcome A) (k : A -> outcome B) : outcome B :=
  match m with
  | Ret a => k a
  | Fatal e => Fatal e
  | OutOfFuel => OutOfFuel
  end.

Notation "' p <- m ;; k" := (bind m (fun p => k))
  (at level 61, p pattern, m at next level, right associativity).

(** Modelled from the spec: [x.Check] is not in [loader.go].  [x.Check(err)]
    treats any error as fatal: when [err] is not nil the cause is printed
    and the process exits with a non-zero status. *)
Definition Check (err : option error) : outcome unit :=
  match err with
  | None => Ret tt
  | Some e => Fatal e
  end.

(** A Go [for] loop.  [body] is one iteration from loop state [s]: [inl s']
    continues with [s'] and [inr r] leaves the loop with [r].  [loop] runs
    the body with as many iterations as the measure of the starting state
    allows, which is enough whenever every continuing iteration lowers the
    measure. *)
Section Loop.
Variables (St R : Type).
Variable measure : St -> nat.
Variable body : St -> outcome (St + R).

Fixpoint iter (fuel : nat) (s : St) : outcome R :=
  match fuel with
  | O => OutOfFuel
  | S fuel' =>
      match body s with
      | Ret (inl s') => iter fuel' s'
      | Ret (inr r) => Ret r
      | Fatal e => Fatal e
      | OutOfFuel => OutOfFuel
      end
  end.

Definition loop (s : St) : outcome R := iter (S (measure s)) s.
End Loop.

(** ** bufio.Reader

    The calls of Go's standard library that the chunkers make ([bufio],
    [bytes], [unicode]), after their documented behaviour. *)

(** A [rune] is a code point; [buf] is the contents of a [bytes.Buffer],
    of a [[]byte] or of a Go string. *)
Abbreviation rune := Z (only parsing).
Abbreviation buf := (list Z) (only parsing).

(** The state of a [*bufio.Reader] as the chunkers can observe it.
    [pending] is the part of the stream not yet consumed: its bytes for the
    byte-oriented calls ([ReadSlice], [ReadString]) of the RDF chunker, its
    code points for the rune-oriented calls ([ReadRune], [UnreadRune]) of the
    JSON chunker; no reader is used through both families.  [size] is
    [len(b.buf)].  [lastRune] is the rune handed out by the latest call when
    that call was a successful [ReadRune] (Go keeps [lastRuneSize]).
    [srcErr] is the error of the underlying [io.Reader] once it is drained:
    [EOF] for a stream that simply ends. *)
Record Reader : Type := mkReader {
  pending : list Z;
  size : nat;
  lastRune : option rune;
  srcErr : error
}.

(** [bufio.NewReaderSize(rd, size)]: the buffer has at least 16 bytes. *)
Definition NewReaderSize (data : list Z) (fin : error) (sz : nat) : Reader :=
  mkReader data (Nat.max sz 16) None fin.

(** [bufio.NewReader(rd)]: default size 4096. *)
Definition NewReader (data : list Z) (fin : error) : Reader :=
  NewReaderSize data fin 4096.

(** Consume [n] elements by a byte-oriented call. *)
Definition advance (b : Reader) (n : nat) : Reader :=
  mkReader (skipn n (pending b)) (size b) None (srcErr b).

(** [bytes.IndexByte(s, c)] *)
Fixpoint IndexByte (s : list Z) (c : Z) : option nat :=
  match s with
  | [] => None
  | x :: s' => if Z.eqb x c then Some O else option_map S (IndexByte s' c)
  end.

(** [b.ReadSlice(delim)]: the bytes up to and including the first [delim]
    when it shows up within one buffer; a full buffer and [ErrBufferFull]
    when the buffer fills first; otherwise everything left, with the error
    of the underlying reader. *)
Definition ReadSlice (b : Reader) (delim : Z) : buf * option error * Reader :=
  match IndexByte (firstn (size b) (pending b)) delim with
  | Some i => (firstn (S i) (pending b), None, advance b (S i))
  | None =>
      if (size b <=? length (pending b))%nat
      then (firstn (size b) (pending b), Some ErrBufferFull, advance b (size b))
      else (pending b, Some (srcErr b), advance b (length (pending b)))
  end.

(** [b.ReadString(delim)]: the bytes up to and including the first [delim],
    however long; when there is none, everything left and the error of the
    underlying reader. *)
Definition ReadString (b : Reader) (delim : Z) : buf * option error * Reader :=
  match IndexByte (pending b) delim with
  | Some i => (firstn (S i) (pending b), None, advance b (S i))
  | None => (pending b, Some (srcErr b), advance b (length (pending b)))
  end.

(** [b.ReadRune()] (the size result is not used by the loader). *)
Definition ReadRune (b : Reader) : rune * option error * Reader :=
  match pending b with
  | [] => (0%Z, Some (srcErr b), mkReader [] (size b) None (srcErr b))
  | ch :: rest => (ch, None, mkReader rest (size b) (Some ch) (srcErr b))
  end.

(** [b.UnreadRune()]: legal only right after a successful [ReadRune]. *)
Definition UnreadRune (b : Reader) : option error * Reader :=
  match lastRune b with
  | None => (Some ErrInvalidUnreadRune, b)
  | Some ch => (None, mkReader (ch :: pending b) (size b) None (srcErr b))
  end.

(** [out.WriteRune(ch)], [out.Write(p)], [out.WriteString(s)] on a
    [bytes.Buffer]: they append and their error is always nil, so the
    [x.Check2] around [WriteRune] never fires. *)
Definition WriteRune (out : buf) (ch : rune) : buf := out ++ [ch].
Definition Write (out : buf) (p : buf) : buf := out ++ p.

(** [unicode.IsSpace] *)
Definition IsSpace (r : rune) : bool :=
  if (r <=? 255)%Z
  then existsb (Z.eqb r) [9; 10; 11; 12; 13; 32; 133; 160]%Z
  else (r =? 5760)%Z || ((8192 <=? r)%Z && (r <=? 8202)%Z)
       || (r =? 8232)%Z || (r =? 8233)%Z || (r =? 8239)%Z
       || (r =? 8287)%Z || (r =? 12288)%Z.

(** ** The chunker interface *)

Record chunker : Type := mkChunker {
  begin : Reader -> outcome (option error * Reader);
  chunk : Reader -> outcome (option buf * option error * Reader);
  end_ : Reader -> outcome (option error * Reader)
}.

(** ** rdfChunker *)

Module rdfChunker.

Definition newline : Z := 10%Z.

(** The loop of [chunk] with [todo] iterations left ([todo] is
    [1e5 - lineCount]) and [batch] accumulated so far. *)
Fixpoint chunkLines (todo : nat) (r : Reader) (batch : buf)
  : option buf * option error * Reader :=
  match todo with
  | O => (Some batch, None, r)
  | S todo' =>
      let '(slc, err, r1) := ReadSlice r newline in
      if isEOF err then (Some (Write batch slc), err, r1)
      else if isBufferFull err then
        let batch1 := Write batch slc in
        let '(str, err, r2) := ReadString r1 newline in
        if isEOF err then (Some (Write batch1 str), err, r2)
        else match err with
             | Some _ => (None, err, r2)
             | None => chunkLines todo' r2 (Write batch1 str)
             end
      else match err with
           | Some _ => (None, err, r1)
           | None => chunkLines todo' r1 (Write batch slc)
           end
  end.

Definition maxLines : nat := Z.to_nat 100000.
Arguments maxLines : simpl never.

Definition begin (r : Reader) : outcome (option error * Reader) :=
  Ret (None, r).

Definition chunk (r : Reader) : outcome (option buf * option error * Reader) :=
  Ret (chunkLines maxLines r []).

Definition end_ (r : Reader) : outcome (option error * Reader) :=
  Ret (None, r).

Definition impl : chunker := mkChunker begin chunk end_.

End rdfChunker.

(** ** jsonChunker *)

Definition slurpSpaceBody (r : Reader)
  : outcome (Reader + (option error * Reader)) :=
  let '(ch, err, r1) := ReadRune r in
  match err with
  | Some _ => Ret (inr (err, r1))
  | None =>
      if negb (IsSpace ch)
      then Ret (inr (None, snd (UnreadRune r1)))
      else Ret (inl r1)
  end.

Definition unread (r : Reader) : nat := length (pending r).

Definition slurpSpace : Reader -> outcome (option error * Reader) :=
  loop unread slurpSpaceBody.

Definition backslash : rune := 92%Z.
Definition quote : rune := 34%Z.
Definition lbrace : rune := 123%Z.
Definition rbrace : rune := 125%Z.
Definition lbracket : rune := 91%Z.
Definition rbracket : rune := 93%Z.
Definition comma : rune := 44%Z.

Definition slurpQuotedBody (s : Reader * buf)
  : outcome (Reader * buf + option error * Reader * buf) :=
  let '(r, out) := s in
  let '(ch, err, r1) := ReadRune r in
  match err with
  | Some _ => Ret (inr (err, r1, out))
  | None =>
      let out1 := WriteRune out ch in
      if (ch =? backslash)%Z then
        (* Pick one more rune. *)
        let '(esc, err, r2) := ReadRune r1 in
        match err with
        | Some _ => Ret (inr (err, r2, out1))
        | None => Ret (inl (r2, WriteRune out1 esc))
        end
      else if (ch =? quote)%Z then Ret (inr (None, r1, out1))
      else Ret (inl (r1, out1))
  end.

Definition slurpQuoted (r : Reader) (out : buf)
  : outcome (option error * Reader * buf) :=
  loop (fun s => unread (fst s)) slurpQuotedBody (r, out).

(** Go's [int] is 64 bits wide on the platforms dgraph builds for;
    [depth++] and [depth--] wrap around. *)
Definition wrapInt (z : Z) : Z := ((z + 2 ^ 63) mod 2 ^ 64 - 2 ^ 63)%Z.

Module jsonChunker.

Definition begin (r : Reader) : outcome (option error * Reader) :=
  '(err, r1) <- slurpSpace r ;;
  match err with
  | Some _ => Ret (err, r1)
  | None =>
      let '(ch, err, r2) := ReadRune r1 in
      match err with
      | Some _ => Ret (err, r2)
      | None =>
          if negb (ch =? lbracket)%Z
          then Ret (Some (Errorf "json file must contain array. Found: %v" ch), r2)
          else Ret (None, r2)
      end
  end.

(** One iteration of [for depth > 0].  The loop is left either by a
    [return] of [chunk] ([inl]) or because [depth] reached zero ([inr]). *)
Definition depthBody (s : Z * Reader * buf)
  : outcome (Z * Reader * buf
             + ((option buf * option error * Reader) + Reader * buf)) :=
  let '(depth, r, out) := s in
  if (0 <? depth)%Z then
    let '(ch, err, r1) := ReadRune r in
    match err with
    | Some _ => Ret (inr (inl (None, Some (New "malformed json"), r1)))
    | None =>
        let out1 := WriteRune out ch in
        if (ch =? lbrace)%Z then Ret (inl (wrapInt (depth + 1), r1, out1))
        else if (ch =? rbrace)%Z then Ret (inl (wrapInt (depth - 1), r1, out1))
        else if (ch =? quote)%Z then
          '(err, r2, out2) <- slurpQuoted r1 out1 ;;
          match err with
          | Some _ => Ret (inr (inl (None, err, r2)))
          | None => Ret (inl (depth, r2, out2))
          end
        else Ret (inl (depth, r1, out1))
    end
  else Ret (inr (inr (r, out))).

Definition depthLoop
  : Z * Reader * buf
    -> outcome ((option buf * option error * Reader) + Reader * buf) :=
  loop (fun s => unread (snd (fst s))) depthBody.

Definition chunk (r : Reader) : outcome (option buf * option error * Reader) :=
  let out : buf := [] in
  '(err, r1) <- slurpSpace r ;;
  match err with
  | Some _ => Ret (Some out, err, r1)
  | None =>
      let '(ch, err, r2) := ReadRune r1 in
      match err with
      | Some _ => Ret (Some out, err, r2)
      | None =>
          if negb (ch =? lbrace)%Z
          then Ret (None, Some (Errorf "expected json map start. Found: %v" ch), r2)
          else
            let out := WriteRune out ch in
            (* We already consumed one `{`, so our depth starts at one. *)
            'scanned <- depthLoop (1%Z, r2, out) ;;
            match scanned with
            | inl returned => Ret returned
            | inr (r3, out) =>
                '(err, r4) <- slurpSpace r3 ;;
                match err with
                | Some _ => Ret (None, err, r4)
                | None =>
                    let '(ch, err, r5) := ReadRune r4 in
                    match err with
                    | Some _ => Ret (None, err, r5)
                    | None =>
                        if (ch =? rbracket)%Z then Ret (Some out, Some EOF, r5)
                        else if (ch =? comma)%Z then Ret (Some out, None, r5)
                        else
                          (* Let next call to this function report the error. *)
                          let '(err, r6) := UnreadRune r5 in
                          '_ <- Check err ;;
                          Ret (Some out, None, r6)
                    end
                end
            end
      end
  end.

Definition end_ (r : Reader) : outcome (option error * Reader) :=
  '(err, r1) <- slurpSpace r ;;
  if isEOF err then Ret (None, r1)
  else Ret (Some (New "not all of json file consumed"), r1).

Definition impl : chunker := mkChunker begin chunk end_.

End jsonChunker.

(** ** newChunker *)

Definition rdfInput : Z := 0%Z.
Definition jsonInput : Z := 1%Z.

(** [None] is the [panic("unknown loader type")] of the default case. *)
Definition newChunker (inputFormat : Z) : option chunker :=
  if (inputFormat =? rdfInput)%Z then Some rdfChunker.impl
  else if (inputFormat =? jsonInput)%Z then Some jsonChunker.impl
  else None.

(** ** The reader goroutine of mapStage *)

(** [ld.readerChunkCh <- chunkBuf] when the buffer is neither nil nor
    empty; [ch] is what the goroutine has sent so far. *)
Definition deliver (chunkBuf : option buf) (ch : list buf) : list buf :=
  match chunkBuf with
  | Some b => if (0 <? length b)%nat then ch ++ [b] else ch
  | None => ch
  end.

(** One iteration of the goroutine's [for] loop.  The loop is left by
    [break] (no error in the result) or by [x.Check(err)] ending the
    process (the error in the result). *)
Definition readerBody (c : chunker) (s : Reader * list buf)
  : outcome (Reader * list buf + Reader * list buf * option error) :=
  let '(r, ch) := s in
  match chunk c r with
  | Ret (chunkBuf, err, r1) =>
      let ch1 := deliver chunkBuf ch in
      if isEOF err then Ret (inr (r1, ch1, None))
      else match err with
           | Some e => Ret (inr (r1, ch1, Some e))
           | None => Ret (inl (r1, ch1))
           end
  | Fatal e => Ret (inr (r, ch, Some e))
  | OutOfFuel => OutOfFuel
  end.

(** What one reader goroutine did: the chunks it sent on the shared queue,
    in order, and the error that made [x.Check] end the process, if any
    ([None]: the goroutine ran to its end and [thr.Done()] was called). *)
Record report : Type := mkReport {
  sent : list buf;
  fatal : option error
}.

Definition readerLoop (c : chunker)
  : Reader * list buf -> outcome (Reader * list buf * option error) :=
  loop (fun s => unread (fst s)) (readerBody c).

Definition readerGo (c : chunker) (r : Reader) : outcome report :=
  match begin c r with
  | Ret (Some e, _) => Ret (mkReport [] (Some e))
  | Ret (None, r0) =>
      '(r1, ch, stop) <- readerLoop c (r0, []) ;;
      match stop with
      | Some e => Ret (mkReport ch (Some e))
      | None =>
          match end_ c r1 with
          | Ret (err, _) => Ret (mkReport ch err)
          | Fatal e => Ret (mkReport ch (Some e))
          | OutOfFuel => OutOfFuel
          end
      end
  | Fatal e => Ret (mkReport [] (Some e))
  | OutOfFuel => OutOfFuel
  end.

(** Literals for examples: the code points of an ASCII string, where an
    apostrophe stands for the double quote. *)
Definition lit (s : string) : list Z :=
  map (fun a => let n := Z.of_N (N_of_ascii a) in
                if (n =? 39)%Z then quote else n)
      (list_ascii_of_string s).

Definition jsonReader (s : string) : Reader := NewReader (lit s) EOF.

(** ** Specification vocabulary *)

(** A complete line: no newline but the one that ends it. *)
Definition Line (l : buf) : Prop :=
  exists body, l = body ++ [rdfChunker.newline] /\ ~ In rdfChunker.newline body.

(** [WholeLines k s]: [s] is the concatenation of exactly [k] complete lines. *)
Inductive WholeLines : nat -> buf -> Prop :=
| WholeLines_nil : WholeLines 0 []
| WholeLines_cons k l s : Line l -> WholeLines k s -> WholeLines (S k) (l ++ s).

(** Fewer than [n] complete lines followed by the start of a line. *)
Definition PartialChunk (n : nat) (got : buf) : Prop :=
  exists k ls tail,
    k < n /\ got = ls ++ tail /\ WholeLines k ls /\ ~ In rdfChunker.newline tail.

Definition EndsWithNewline (b : buf) : Prop :=
  exists body, b = body ++ [rdfChunker.newline].

(** ** Successive calls of chunk *)

(** The buffers returned by successive calls of [chunk] on one reader, in
    call order, up to and including the first call that reports an error,
    and that error. *)
Definition callsBody (c : chunker) (s : Reader * list (option buf))
  : outcome (Reader * list (option buf) + list (option buf) * option error) :=
  let '(r, bs) := s in
  '(b, err, r1) <- chunk c r ;;
  match err with
  | Some _ => Ret (inr (bs ++ [b], err))
  | None => Ret (inl (r1, bs ++ [b]))
  end.

Definition calls (c : chunker) (r : Reader)
  : outcome (list (option buf) * option error) :=
  loop (fun s => unread (fst s)) (callsBody c) (r, []).

(** A chunker makes progress when every call that reports no error has
    consumed input. *)
Definition Progress (c : chunker) : Prop :=
  forall r b r', chunk c r = Ret (b, None, r') -> unread r' < unread r.

(** ** Lexical structure of the JSON input *)

Definition Spaces (ws : list Z) : Prop := Forall (fun c => IsSpace c = true) ws.

(** What follows the opening quote of a string literal, up to and
    including the closing quote; a backslash takes the next rune with it. *)
Inductive StringTail : list Z -> Prop :=
| StringTail_close : StringTail [quote]
| StringTail_escape c s : StringTail s -> StringTail (backslash :: c :: s)
| StringTail_char c s :
    c <> quote -> c <> backslash -> StringTail s -> StringTail (c :: s).

(** [Closes d s]: read at nesting depth [d], the text [s] brings the depth
    to zero with its last rune and not before; braces inside string
    literals do not count. *)
Inductive Closes : nat -> list Z -> Prop :=
| Closes_last : Closes 1 [rbrace]
| Closes_close d s : Closes (S d) s -> Closes (S (S d)) (rbrace :: s)
| Closes_open d s : Closes (S (S d)) s -> Closes (S d) (lbrace :: s)
| Closes_string d q s :
    StringTail q -> Closes (S d) s -> Closes (S d) (quote :: q ++ s)
| Closes_char d c s :
    c <> lbrace -> c <> rbrace -> c <> quote ->
    Closes (S d) s -> Closes (S d) (c :: s).

(** One array element: an opening brace and the text that closes it. *)
Definition Object (o : list Z) : Prop :=
  exists s, o = lbrace :: s /\ Closes 1 s.

(** A text short enough for a Go buffer: its length is an [int]. *)
Definition Fits (text : list Z) : Prop := (Z.of_nat (length text) < 2 ^ 63)%Z.


(** What follows the opening quote of a string literal that is never
    closed: the text ends first, possibly right after a backslash. *)
Inductive Unterminated : list Z -> Prop :=
| Unterminated_nil : Unterminated []
| Unterminated_backslash : Unterminated [backslash]
| Unterminated_escape c s : Unterminated s -> Unterminated (backslash :: c :: s)
| Unterminated_char c s :
    c <> quote -> c <> backslash -> Unterminated s -> Unterminated (c :: s).

(** [Opens d d' p]: read at nesting depth [d], the text [p] ends outside
    string literals at depth [d'], and the depth stays positive throughout. *)
Inductive Opens : nat -> nat -> list Z -> Prop :=
| Opens_nil d : Opens (S d) (S d) []
| Opens_close d d' p : Opens (S d) d' p -> Opens (S (S d)) d' (rbrace :: p)
| Opens_open d d' p : Opens (S (S d)) d' p -> Opens (S d) d' (lbrace :: p)
| Opens_string d d' q p :
    StringTail q -> Opens (S d) d' p -> Opens (S d) d' (quote :: q ++ p)
| Opens_char d d' c p :
    c <> lbrace -> c <> rbrace -> c <> quote ->
    Opens (S d) d' p -> Opens (S d) d' (c :: p).

(** ** The main goroutine: events and process termination *)

(** [time.Second], a [time.Duration] in nanoseconds. *)
Definition Second : Z := 1000000000%Z.

(** What the goroutine that runs [newLoader] and [mapStage] does, in
    program order.  Calls that block ([thr.Start], [thr.Wait],
    [mapperWg.Wait]) are recorded when they are made; when they return is
    decided by the other goroutines (see [step] below). *)
Inductive event : Type :=
| EvPrintf (format : string)               (* fmt.Printf(format, ...) *)
| EvDial (addr : string)                   (* grpc.Dial(addr, ...) *)
| EvTimestamps (timeout : Z) (val : Z)     (* client.Timestamps(ctx, &pb.Num{Val: val}), ctx with this timeout *)
| EvSleep (d : Z)                          (* time.Sleep(d) *)
| EvGoReport                               (* go ld.prog.report() *)
| EvSetPhase (phase : string)              (* ld.prog.setPhase *)
| EvMkdir (dir : string)                   (* os.Mkdir(dir, 0755) *)
| EvBadgerOpen (dir : string)              (* badger.Open(opt) *)
| EvXidmapNew                              (* xidmap.New(...) *)
| EvWalk (dir : string)                    (* filepath.Walk(dir, ...) *)
| EvOpen (file : string)                   (* os.Open(file) *)
| EvGzipNewReader (file : string)          (* gzip.NewReader(f) *)
| EvGoMapper (i : nat)                     (* go func(m *mapper) {...}(m), m = ld.mappers[i] *)
| EvThrStart                               (* thr.Start() *)
| EvGoReader (file : string) (r : Reader)  (* go func(r *bufio.Reader) {...}(r) *)
| EvThrWait                                (* thr.Wait() *)
| EvCloseChunkCh                           (* close(ld.readerChunkCh) *)
| EvMapperWgWait                           (* mapperWg.Wait() *)
| EvEvictAll                               (* ld.xids.EvictAll() *)
| EvXidDBClose                             (* ld.xidDB.Close() *)
| EvGC                                     (* runtime.GC() *)
| EvFileClose (file : string)              (* the deferred f.Close() *)
| EvLogFatal (e : error)                   (* x.Check: log.Fatalf("%+v", err) *)
| EvExit (status : Z).                     (* os.Exit(status) *)

(** How a traced call ends: it returns, the process exits with a status,
    or it has not returned within the bound of the model. *)
Inductive ending (A : Type) : Type :=
| Continue (a : A)
| Terminated (status : Z)
| Hung.

Arguments Continue {A} a.
Arguments Terminated {A} status.
Arguments Hung {A}.

Definition traced (A : Type) : Type := (list event * ending A)%type.

Definition tret {A : Type} (a : A) : traced A := ([], Continue a).

Definition tbind {A B : Type} (m : traced A) (k : A -> traced B) : traced B :=
  match m with
  | (t, Continue a) => let '(t', e) := k a in (t ++ t', e)
  | (t, Terminated st) => (t, Terminated st)
  | (t, Hung) => (t, Hung)
  end.

Notation "' p <~ m ;; k" := (tbind m (fun p => k))
  (at level 61, p pattern, m at next level, right associativity).

Definition emit (e : event) : traced unit := ([e], Continue tt).

(** Modelled from the spec: [x.Check] is not in [loader.go].  In the main
    goroutine a non-nil error is logged and ends the process with a
    non-zero status (1, as [log.Fatalf] does). *)
Definition tCheck (err : option error) : traced unit :=
  match err with
  | None => tret tt
  | Some e => ([EvLogFatal e; EvExit 1%Z], Terminated 1%Z)
  end.

(** ** getWriteTimestamp *)

(** Modelled from the spec: [pb.AssignedIds] and its getter [GetStartId]
    are not in [loader.go].  The answer to an allocation request is a
    contiguous block, of which [StartId] is the starting value. *)
Record AssignedIds : Type := mkAssignedIds { StartId : Z; EndId : Z }.

(** The answer of the remote authority to one [Timestamps] call. *)
Inductive reply : Type :=
| Reply (ts : AssignedIds)
| Failure (e : error).

(** One iteration of the [for] loop of [getWriteTimestamp]; [zero n] is
    the answer to call number [n] (from 0).  The loop state is the number of
    calls made and the events so far. *)
Definition timestampBody (zero : nat -> reply) (s : nat * list event)
  : outcome (nat * list event + Z * list event) :=
  let '(n, log) := s in
  let log1 := log ++ [EvTimestamps Second 1%Z] in
  match zero n with
  | Reply ts => Ret (inr (StartId ts, log1))
  | Failure e =>
      Ret (inl (S n,
                log1 ++ [EvPrintf "Error communicating with dgraph zero, retrying: %v";
                         EvSleep Second]))
  end.

(** The loop has no bound in Go: [attempts] bounds the number of iterations
    looked at, and [Hung] says that the call has not returned within them. *)
Definition getWriteTimestamp (zero : nat -> reply) (attempts : nat) : traced Z :=
  match iter (timestampBody zero) attempts (O, []) with
  | Ret (ts, log) => (log, Continue ts)
  | Fatal e => ([EvLogFatal e; EvExit 1%Z], Terminated 1%Z)
  | OutOfFuel => ([], Hung)
  end.

(** ** options, state and loader *)

Record options : Type := mkOptions {
  RDFDir : string;
  JSONDir : string;
  SchemaFile : string;
  TmpDir : string;
  NumGoroutines : nat;
  MapShards : Z;
  ZeroAddr : string
}.

(** The fields of [state] and [loader] that [loader.go] assigns; progress,
    schema store and shard map are built by code outside this file and are
    left out.  [xids] and [xidDB] hold the directory of the store when set. *)
Record state : Type := mkState {
  opt : options;
  xids : option string;
  writeTs : Z
}.

Record loader : Type := mkLoader {
  st : state;
  mappers : list (option nat);
  xidDB : option string
}.

(** ** findDataFiles and mapStage *)

(** [strings.HasSuffix] *)
Definition HasSuffix (s suffix : string) : bool :=
  let n := String.length s in
  let m := String.length suffix in
  (m <=? n)%nat && String.eqb (substring (n - m) m s) suffix.

(** The file system and stores as [mapStage] meets them. *)
Record World : Type := mkWorld {
  mkdir : string -> option error;
  badgerOpen : string -> option error;
  badgerClose : string -> option error;
  (* the calls [fn(path, info, err)] that [filepath.Walk(dir, fn)] makes, in
     order, for as long as [fn] returns nil *)
  walk : string -> list (string * option error);
  (* [os.Open]: the bytes of the file and the error that ends its stream *)
  open : string -> (list Z * error) + error;
  (* [gzip.NewReader] and the decompressed stream *)
  gunzip : list Z * error -> (list Z * error) + error;
  (* the order in which [range] goes through the entries of a map *)
  rangeOrder : list (string * Reader) -> list (string * Reader)
}.

(** The callback of [filepath.Walk] applied to successive visits. *)
Fixpoint walkFn (ext : string) (visits : list (string * option error))
    (files : list string) : list string * option error :=
  match visits with
  | [] => (files, None)
  | (path, Some e) :: _ => (files, Some e)
  | (path, None) :: rest =>
      walkFn ext rest
        (if HasSuffix path ext || HasSuffix path (ext ++ ".gz")
         then files ++ [path] else files)
  end.

Definition findDataFiles (w : World) (dir ext : string) : traced (list string) :=
  '_ <~ emit (EvWalk dir) ;;
  let '(files, err) := walkFn ext (walk w dir) [] in
  '_ <~ tCheck err ;;
  tret files.

(** [readers[file] = r] on a map kept as an association list. *)
Fixpoint setReader (readers : list (string * Reader)) (file : string) (r : Reader)
  : list (string * Reader) :=
  match readers with
  | [] => [(file, r)]
  | (f, r0) :: rest =>
      if String.eqb f file then (f, r) :: rest
      else (f, r0) :: setReader rest file r
  end.

(** The loop that opens the files. *)
Fixpoint openReaders (w : World) (files : list string)
    (readers : list (string * Reader)) : traced (list (string * Reader)) :=
  match files with
  | [] => tret readers
  | file :: rest =>
      '_ <~ emit (EvOpen file) ;;
      match open w file with
      | inr e => '_ <~ tCheck (Some e) ;; tret readers
      | inl (bytes, fin) =>
          if negb (HasSuffix file ".gz")
          then openReaders w rest
                 (setReader readers file (NewReaderSize bytes fin (2 ^ 20)))
          else
            '_ <~ emit (EvGzipNewReader file) ;;
            match gunzip w (bytes, fin) with
            | inr e => '_ <~ tCheck (Some e) ;; tret readers
            | inl (plain, fin') =>
                openReaders w rest (setReader readers file (NewReader plain fin'))
            end
      end
  end.

Definition emitAll (es : list event) : traced unit := (es, Continue tt).

(** One round of the main map loop, for the entry [fr] of [readers]. *)
Definition readerTriple (fr : string * Reader) : list event :=
  [EvThrStart; EvPrintf "Processing file (%d out of %d): %s\n";
   EvGoReader (fst fr) (snd fr)].

Definition mapStage (w : World) (ld : loader) : traced loader :=
  let o := opt (st ld) in
  '_ <~ emit (EvSetPhase "mapPhase") ;;
  let xidDir := (TmpDir o ++ "/xids")%string in
  '_ <~ emit (EvMkdir xidDir) ;;
  '_ <~ tCheck (mkdir w xidDir) ;;
  '_ <~ emit (EvBadgerOpen xidDir) ;;
  '_ <~ tCheck (badgerOpen w xidDir) ;;
  '_ <~ emit EvXidmapNew ;;
  let ld := mkLoader (mkState o (Some xidDir) (writeTs (st ld)))
                     (mappers ld) (Some xidDir) in
  let loaderType := if negb (String.eqb (RDFDir o) "") then rdfInput else jsonInput in
  let ext := if negb (String.eqb (RDFDir o) "") then ".rdf"%string else ".json"%string in
  let dir := if negb (String.eqb (RDFDir o) "") then RDFDir o else JSONDir o in
  'files <~ findDataFiles w dir ext ;;
  'readers <~ openReaders w files [] ;;
  if (length readers =? 0)%nat then
    ([EvPrintf "No *%s files found.\n"; EvExit 1%Z], Terminated 1%Z)
  else
    '_ <~ emitAll (map EvGoMapper (seq 0 (length (mappers ld)))) ;;
    (* This is the main map loop. *)
    '_ <~ emitAll (flat_map readerTriple (rangeOrder w readers)) ;;
    '_ <~ emit EvThrWait ;;
    '_ <~ emit EvCloseChunkCh ;;
    '_ <~ emit EvMapperWgWait ;;
    (* Allow memory to GC before the reduce phase. *)
    let ld := mkLoader (st ld) (map (fun _ => None) (mappers ld)) (xidDB ld) in
    '_ <~ emit EvEvictAll ;;
    '_ <~ emit EvXidDBClose ;;
    '_ <~ tCheck (badgerClose w xidDir) ;;
    let ld := mkLoader (mkState o None (writeTs (st ld))) (mappers ld) (xidDB ld) in
    '_ <~ emit EvGC ;;
    '_ <~ emitAll (map EvFileClose (rev files)) ;;
    tret ld.

(** An event that starts a goroutine. *)
Definition startsGoroutine (e : event) : bool :=
  match e with
  | EvGoMapper _ | EvGoReader _ _ | EvGoReport => true
  | _ => false
  end.

(** ** The goroutines of the map stage *)

(** Modelled from the spec: [x.Throttle] is not in [loader.go].  It is the
    spec's counting semaphore with a blocking join: [Start] blocks while
    the configured number of readers is in flight, [Done] releases a slot,
    [Wait] blocks until no reader is in flight.  [None] stands for a call
    that cannot return yet. *)
Record Throttle : Type := mkThrottle { ceiling : nat; inflight : nat }.

(** Modelled from the spec: [x.NewThrottle(max)], absent from [loader.go]. *)
Definition NewThrottle (max : nat) : Throttle := mkThrottle max 0.

(** Modelled from the spec: [thr.Start()], absent from [loader.go]. *)
Definition ThrottleStart (t : Throttle) : option Throttle :=
  if (inflight t <? ceiling t)%nat
  then Some (mkThrottle (ceiling t) (S (inflight t)))
  else None.

(** Modelled from the spec: [thr.Done()], absent from [loader.go]. *)
Definition ThrottleDone (t : Throttle) : Throttle :=
  mkThrottle (ceiling t) (inflight t - 1).

(** Modelled from the spec: [thr.Wait()], absent from [loader.go]. *)
Definition ThrottleWait (t : Throttle) : option unit :=
  if (inflight t =? 0)%nat then Some tt else None.

Inductive mapperState : Type := MRunning | MDone.

(** Modelled from the spec: [mapper.run] is not in [loader.go].  A mapper
    worker pulls chunks from the shared queue until the queue is closed,
    then returns (and [mapperWg.Done()] runs).  The step of a running
    worker from the contents of the queue and its closed flag: its next
    state and what is left in the queue, [None] when it blocks. *)
Definition mapperRun (queue : list (list Z)) (closed : bool)
  : option (mapperState * list (list Z)) :=
  match queue with
  | _ :: q => Some (MRunning, q)
  | [] => if closed then Some (MDone, []) else None
  end.

(** Where a reader goroutine stands. *)
Inductive readerState : Type :=
| RBegin (r : Reader)                               (* x.Check(chunker.begin(r)) is next *)
| RChunk (r : Reader)                               (* top of the for loop: chunker.chunk(r) is next *)
| RSend (b : list Z) (err : option error) (r : Reader)  (* ld.readerChunkCh <- chunkBuf is next *)
| RBranch (err : option error) (r : Reader)         (* the test of err is next *)
| REnd (r : Reader)                                 (* x.Check(chunker.end(r)) is next *)
| RDeferred                                         (* the deferred thr.Done() is next *)
| RDone.                                            (* the goroutine is over *)

(** The map stage while it runs.  [prog] is what the goroutine of
    [mapStage] has still to do; [closes] and [joined] record what it has
    done to the queue and to the mapper pool. *)
Record config : Type := mkConfig {
  prog : list event;
  loaderType : Z;
  rds : list (chunker * readerState);    (* the reader goroutines started *)
  mps : list mapperState;                (* the mapper goroutines started *)
  thr : Throttle;
  capacity : nat;                        (* cap(ld.readerChunkCh) *)
  queue : list (list Z);                 (* what ld.readerChunkCh holds *)
  closed : bool;                         (* ld.readerChunkCh is closed *)
  closes : nat;                          (* how many times close() ran *)
  joined : bool;                         (* mapperWg.Wait() has returned *)
  alive : bool                           (* the process has not exited *)
}.

Definition setProg (c : config) (p : list event) : config :=
  mkConfig p (loaderType c) (rds c) (mps c) (thr c) (capacity c) (queue c)
           (closed c) (closes c) (joined c) (alive c).

Definition setRds (c : config) (l : list (chunker * readerState)) : config :=
  mkConfig (prog c) (loaderType c) l (mps c) (thr c) (capacity c) (queue c)
           (closed c) (closes c) (joined c) (alive c).

Definition setMps (c : config) (l : list mapperState) : config :=
  mkConfig (prog c) (loaderType c) (rds c) l (thr c) (capacity c) (queue c)
           (closed c) (closes c) (joined c) (alive c).

Definition setThr (c : config) (t : Throttle) : config :=
  mkConfig (prog c) (loaderType c) (rds c) (mps c) t (capacity c) (queue c)
           (closed c) (closes c) (joined c) (alive c).

Definition setQueue (c : config) (q : list (list Z)) : config :=
  mkConfig (prog c) (loaderType c) (rds c) (mps c) (thr c) (capacity c) q
           (closed c) (closes c) (joined c) (alive c).

(** [close(ld.readerChunkCh)]; closing a closed channel panics. *)
Definition closeQueue (c : config) : config :=
  mkConfig (prog c) (loaderType c) (rds c) (mps c) (thr c) (capacity c) (queue c)
           true (S (closes c)) (joined c) (alive c && negb (closed c)).

(** [mapperWg.Wait()] returns. *)
Definition join (c : config) : config :=
  mkConfig (prog c) (loaderType c) (rds c) (mps c) (thr c) (capacity c) (queue c)
           (closed c) (closes c) true (alive c).

(** The process exits: [os.Exit], [log.Fatalf] or a panic. *)
Definition kill (c : config) : config :=
  mkConfig (prog c) (loaderType c) (rds c) (mps c) (thr c) (capacity c) (queue c)
           (closed c) (closes c) (joined c) false.

(** Events of the main goroutine that involve no other goroutine. *)
Definition isLocal (e : event) : bool :=
  match e with
  | EvGoReport | EvGoMapper _ | EvThrStart | EvGoReader _ _ | EvThrWait
  | EvCloseChunkCh | EvMapperWgWait | EvExit _ => false
  | _ => true
  end.

(** Replace element [i] of a list. *)
Fixpoint update {A : Type} (l : list A) (i : nat) (x : A) : list A :=
  match l, i with
  | [], _ => []
  | _ :: l', O => x :: l'
  | y :: l', S i' => y :: update l' i' x
  end.

(** One step of a reader goroutine on its own: the next state, or the
    error with which [x.Check] ends the process.  [RSend], [RDeferred] and
    [RDone] involve the shared state and are part of [step]. *)
Definition readerStep (c : chunker) (s : readerState) : option (readerState + error) :=
  match s with
  | RBegin r =>
      match begin c r with
      | Ret (None, r0) => Some (inl (RChunk r0))
      | Ret (Some e, _) => Some (inr e)
      | Fatal e => Some (inr e)
      | OutOfFuel => None
      end
  | RChunk r =>
      match chunk c r with
      | Ret (chunkBuf, err, r1) =>
          match chunkBuf with
          | Some b =>
              if (0 <? length b)%nat then Some (inl (RSend b err r1))
              else Some (inl (RBranch err r1))
          | None => Some (inl (RBranch err r1))
          end
      | Fatal e => Some (inr e)
      | OutOfFuel => None
      end
  | RBranch err r =>
      if isEOF err then Some (inl (REnd r))
      else match err with
           | Some e => Some (inr e)
           | None => Some (inl (RChunk r))
           end
  | REnd r =>
      match end_ c r with
      | Ret (None, _) => Some (inl RDeferred)
      | Ret (Some e, _) => Some (inr e)
      | Fatal e => Some (inr e)
      | OutOfFuel => None
      end
  | RSend _ _ _ | RDeferred | RDone => None
  end.

(** The steps of the map stage, goroutines interleaved.  A send on the
    queue needs room in its buffer (an unbuffered channel is given the one
    slot of the hand-over) and panics when the queue is closed. *)
Inductive step : config -> config -> Prop :=
| step_local c e p :
    alive c = true -> prog c = e :: p -> isLocal e = true ->
    step c (setProg c p)
| step_exit c s p :
    alive c = true -> prog c = EvExit s :: p ->
    step c (kill (setProg c p))
| step_go_mapper c i p :
    alive c = true -> prog c = EvGoMapper i :: p ->
    step c (setMps (setProg c p) (mps c ++ [MRunning]))
| step_thr_start c p t :
    alive c = true -> prog c = EvThrStart :: p ->
    ThrottleStart (thr c) = Some t ->
    step c (setThr (setProg c p) t)
| step_go_reader c f r p ck :
    alive c = true -> prog c = EvGoReader f r :: p ->
    newChunker (loaderType c) = Some ck ->
    step c (setRds (setProg c p) (rds c ++ [(ck, RBegin r)]))
| step_go_reader_panic c f r p :
    alive c = true -> prog c = EvGoReader f r :: p ->
    newChunker (loaderType c) = None ->
    step c (kill c)
| step_thr_wait c p :
    alive c = true -> prog c = EvThrWait :: p ->
    ThrottleWait (thr c) = Some tt ->
    step c (setProg c p)
| step_close c p :
    alive c = true -> prog c = EvCloseChunkCh :: p ->
    step c (closeQueue (setProg c p))
| step_mapper_wait c p :
    alive c = true -> prog c = EvMapperWgWait :: p ->
    Forall (fun m => m = MDone) (mps c) ->
    step c (join (setProg c p))
| step_reader c i ck s s' :
    alive c = true -> nth_error (rds c) i = Some (ck, s) ->
    readerStep ck s = Some (inl s') ->
    step c (setRds c (update (rds c) i (ck, s')))
| step_reader_fatal c i ck s e :
    alive c = true -> nth_error (rds c) i = Some (ck, s) ->
    readerStep ck s = Some (inr e) ->
    step c (kill c)
| step_reader_send c i ck b err r :
    alive c = true -> nth_error (rds c) i = Some (ck, RSend b err r) ->
    closed c = false -> length (queue c) < Nat.max (capacity c) 1 ->
    step c (setQueue (setRds c (update (rds c) i (ck, RBranch err r)))
                     (queue c ++ [b]))
| step_reader_send_closed c i ck b err r :
    alive c = true -> nth_error (rds c) i = Some (ck, RSend b err r) ->
    closed c = true ->
    step c (kill c)
| step_reader_done c i ck :
    alive c = true -> nth_error (rds c) i = Some (ck, RDeferred) ->
    step c (setThr (setRds c (update (rds c) i (ck, RDone)))
                   (ThrottleDone (thr c)))
| step_mapper c j m q :
    alive c = true -> nth_error (mps c) j = Some MRunning ->
    mapperRun (queue c) (closed c) = Some (m, q) ->
    step c (setQueue (setMps c (update (mps c) j m)) q).

(** A run: any number of steps. *)
Inductive steps : config -> config -> Prop :=
| steps_refl c : steps c c
| steps_more c1 c2 c3 : steps c1 c2 -> step c2 c3 -> steps c1 c3.

(** The map stage as [mapStage] is entered: nothing done yet, no goroutine
    started, the queue open and empty. *)
Definition initial (w : World) (ld : loader) : config :=
  let o := opt (st ld) in
  mkConfig (fst (mapStage w ld))
           (if negb (String.eqb (RDFDir o) "") then rdfInput else jsonInput)
           [] [] (NewThrottle (NumGoroutines o)) (NumGoroutines o)
           [] false 0 false true.

(** ** Vocabulary for the completion protocol *)

Definition isStart (e : event) : bool :=
  match e with EvThrStart => true | _ => false end.

Definition isSpawn (e : event) : bool :=
  match e with EvGoReader _ _ => true | _ => false end.

(** [thr.Start()] calls and reader [go] statements in a program. *)
Definition starts (p : list event) : nat := length (filter isStart p).
Definition spawns (p : list event) : nat := length (filter isSpawn p).

(** In a program and all its tails, no [thr.Start()] is left without the
    [go] statement it is made for. *)
Fixpoint Paired (p : list event) : Prop :=
  match p with
  | [] => True
  | e :: p' => starts (e :: p') <= spawns (e :: p') /\ Paired p'
  end.

(** Events met while goroutines are being started, and events met once
    they no longer are. *)
Definition spawnEv (e : event) : bool :=
  match e with
  | EvThrWait | EvCloseChunkCh | EvMapperWgWait | EvExit _ => false
  | _ => true
  end.

Definition tailEv (e : event) : bool :=
  match e with
  | EvExit _ => true
  | _ => isLocal e
  end.

Definition isDone (s : readerState) : bool :=
  match s with RDone => true | _ => false end.

(** The reader goroutines that are not over. *)
Definition running (l : list (chunker * readerState)) : nat :=
  length (filter (fun r => negb (isDone (snd r))) l).

(** Where a run of the map stage can be: on its way to an exit with no
    goroutine ever started, starting goroutines, past [thr.Wait()], past
    [close], past [mapperWg.Wait()]. *)
Inductive Inv : config -> Prop :=
| Inv_setup c :
    Forall (fun e => tailEv e = true) (prog c) ->
    (alive c = true -> exists s, In (EvExit s) (prog c)) ->
    rds c = [] -> mps c = [] ->
    closed c = false -> closes c = 0 -> joined c = false ->
    Inv c
| Inv_spawning c sp rest :
    prog c = sp ++ EvThrWait :: EvCloseChunkCh :: EvMapperWgWait :: rest ->
    Forall (fun e => spawnEv e = true) sp -> Paired sp ->
    Forall (fun e => tailEv e = true) rest ->
    inflight (thr c) + starts sp = running (rds c) + spawns sp ->
    Forall (fun m => m = MRunning) (mps c) ->
    closed c = false -> closes c = 0 -> joined c = false ->
    Inv c
| Inv_waited c rest :
    prog c = EvCloseChunkCh :: EvMapperWgWait :: rest ->
    Forall (fun e => tailEv e = true) rest ->
    inflight (thr c) = 0 -> running (rds c) = 0 ->
    Forall (fun m => m = MRunning) (mps c) ->
    closed c = false -> closes c = 0 -> joined c = false ->
    Inv c
| Inv_closed c rest :
    prog c = EvMapperWgWait :: rest ->
    Forall (fun e => tailEv e = true) rest ->
    inflight (thr c) = 0 -> running (rds c) = 0 ->
    closed c = true -> closes c = 1 -> joined c = false ->
    Inv c
| Inv_joined c :
    Forall (fun e => tailEv e = true) (prog c) ->
    inflight (thr c) = 0 -> running (rds c) = 0 ->
    closed c = true -> closes c = 1 -> joined c = true ->
    Inv c.

(** Events that are neither a [thr.Start()] nor the start of a reader. *)
Definition quiet (e : event) : Prop := isStart e = false /\ isSpawn e = false.

(** ** Vocabulary for the timestamp bootstrap *)

(** What [getWriteTimestamp] does for one failed attempt: the call under
    its timeout, the log line, the sleep. *)
Definition failedAttempt : list event :=
  [EvTimestamps Second 1%Z;
   EvPrintf "Error communicating with dgraph zero, retrying: %v";
   EvSleep Second].

Definition retries (n : nat) : list event := concat (repeat failedAttempt n).

Definition isTimestamps (e : event) : bool :=
  match e with EvTimestamps _ _ => true | _ => false end.

(** The number of [Timestamps] calls in a trace. *)
Definition attemptsIn (trace : list event) : nat :=
  length (filter isTimestamps trace).

(** ** Inputs for examples *)

(** A reader over one complete line and the start of another. *)
Definition rdfExample : Reader :=
  NewReader (lit "<a> <b> <c> ." ++ [rdfChunker.newline] ++ lit "<d> <e") EOF.

(** A reader with the smallest buffer over a line of twenty bytes, a short
    line and an unfinished one. *)
Definition longLineExample : Reader :=
  NewReaderSize (lit "<subject> <p> <o> ." ++ [rdfChunker.newline]
                 ++ lit "<a> <b> <c> ." ++ [rdfChunker.newline] ++ lit "<d>")
                EOF 16.

(** An authority that fails twice, then answers with start value 42. *)
Definition failsTwice (i : nat) : reply :=
  if (i <? 2)%nat then Failure ErrRead else Reply (mkAssignedIds 42 43).

(** ** A small world for examples *)

(** One directory [data] holding [notes.txt] and the gzip file [a.rdf.gz]
    of one line; every call succeeds. *)
Definition exampleWorld : World :=
  mkWorld (fun _ => None) (fun _ => None) (fun _ => None)
          (fun _ => [("data"%string, None); ("data/a.rdf.gz"%string, None);
                     ("data/notes.txt"%string, None)])
          (fun _ => inl (lit "<a> <b> <c> ." ++ [10%Z], EOF))
          (fun stream => inl stream)
          (fun readers => readers).

(** The same directory without the data file. *)
Definition emptyWorld : World :=
  mkWorld (fun _ => None) (fun _ => None) (fun _ => None)
          (fun _ => [("data"%string, None); ("data/notes.txt"%string, None)])
          (fun _ => inr ErrRead)
          (fun stream => inl stream)
          (fun readers => readers).

(** A loader for RDF input under [data], with one mapper. *)
Definition exampleLoader : loader :=
  mkLoader (mkState (mkOptions "data" "" "schema" "tmp" 1 1 "localhost:5080")
                    None 42%Z)
           [Some 0] None.

(** Where a run of [exampleLoader] in [exampleWorld] ends when nothing
    fails: nothing left to do, the reader and the mapper over, the queue
    drained and closed. *)
Definition exampleFinal : config :=
  mkConfig [] rdfInput [(rdfChunker.impl, RDone)] [MDone] (mkThrottle 1 0) 1 []
           true 1 true true.

(** ** Arrays of elements *)

(** What [slurpSpace] leaves of a text: the text from its first rune that
    is not white space on. *)
Fixpoint skipSpaces (l : list Z) : list Z :=
  match l with
  | [] => []
  | c :: l' => if IsSpace c then skipSpaces l' else l
  end.

(** An array element as it stands in the input: white space, the object,
    white space. *)
Record element : Type := mkElement {
  before : list Z;
  object : list Z;
  after : list Z
}.

Definition Element (e : element) : Prop :=
  Spaces (before e) /\ Object (object e) /\ Fits (object e) /\ Spaces (after e).

Definition text (e : element) : list Z := before e ++ object e ++ after e.

(** Elements each followed by a comma. *)
Definition separated (es : list element) : list Z :=
  flat_map (fun e => text e ++ [comma]) es.

(** A text that starts, after white space, with an opening brace. *)
Definition StartsObject (l : list Z) : Prop :=
  exists ws l', l = ws ++ lbrace :: l' /\ Spaces ws.

(** Two elements for examples. *)
Definition firstElement : element := mkElement [] (lit "{'k': 'a}b'}") (lit " ").
Definition secondElement : element :=
  mkElement (lit " ")
            (lbrace :: lit "'k': 'a" ++ [backslash; quote] ++ lit "}b'}") [].

(** ** Further inputs for examples *)

(** A reader whose underlying stream fails after one complete line and
    the start of another. *)
Definition failingExample : Reader :=
  mkReader (lit "<a> <b> <c> ." ++ [rdfChunker.newline] ++ lit "<d> <e") 4096 None ErrRead.

(** ** Vocabulary for file discovery *)

(** The test of the callback of [findDataFiles]. *)
Definition isDataFile (ext path : string) : bool :=
  HasSuffix path ext || HasSuffix path (ext ++ ".gz").

(** The directory and the extension that [mapStage] hands to
    [findDataFiles]. *)
Definition inputDir (o : options) : string :=
  if negb (String.eqb (RDFDir o) "") then RDFDir o else JSONDir o.

Definition inputExt (o : options) : string :=
  if negb (String.eqb (RDFDir o) "") then ".rdf"%string else ".json"%string.

(** [ReaderOf w file r]: [r] is a reader over the contents of [file], as
    [mapStage] builds it: over the file itself with a buffer of [1 << 20]
    bytes, or over the decompressed stream with the default buffer when the
    name ends in [.gz]. *)
Definition ReaderOf (w : World) (file : string) (r : Reader) : Prop :=
  exists bytes fin,
    open w file = inl (bytes, fin) /\
    ((HasSuffix file ".gz" = false /\ r = NewReaderSize bytes fin (2 ^ 20)) \/
     (HasSuffix file ".gz" = true /\
      exists plain fin',
        gunzip w (bytes, fin) = inl (plain, fin') /\ r = NewReader plain fin')).

(** The reader goroutines that a trace starts for [file]. *)
Definition isReaderOf (file : string) (e : event) : bool :=
  match e with
  | EvGoReader f _ => String.eqb f file
  | _ => false
  end.

Definition readersFor (file : string) (trace : list event) : nat :=
  length (filter (isReaderOf file) trace).

(** A directory in which the walk fails at the second path. *)
Definition brokenWorld : World :=
  mkWorld (fun _ => None) (fun _ => None) (fun _ => None)
          (fun _ => [("data/a.rdf"%string, None); ("data/sub"%string, Some ErrRead)])
          (fun _ => inr ErrRead) (fun stream => inl stream)
          (fun readers => readers).

(** ** filepath.Ext and ioutil.ReadAll *)

(** [filepath.Ext(path)]: the suffix of [path] that starts at the last dot
    of its last element, empty when that element has no dot.  [extLoop path
    i] is the loop [for i := len(path) - 1; i >= 0 &&
    !os.IsPathSeparator(path[i]); i--] with [i] indices left to look at. *)
Fixpoint extLoop (path : string) (i : nat) : string :=
  match i with
  | O => ""
  | S j =>
      match String.get j path with
      | Some c =>
          if Ascii.eqb c "/" then ""
          else if Ascii.eqb c "."
               then substring j (String.length path - j) path
               else extLoop path j
      | None => ""
      end
  end.

Definition Ext (path : string) : string := extLoop path (String.length path).

(** [ioutil.ReadAll(r)]: everything up to the end of the stream; the end
    of the stream itself is no error. *)
Definition ReadAll (stream : list Z * error) : list Z * option error :=
  let '(bytes, fin) := stream in
  (bytes, if isEOF (Some fin) then None else Some fin).

(** Modelled from the spec: [x.Check] is not in [loader.go].  This is
    [x.Check(err)] with an error at hand: the error is logged and the
    process ends with status 1, as with [tCheck]. *)
Definition tFatal {A : Type} (e : error) : traced A :=
  ([EvLogFatal e; EvExit 1%Z], Terminated 1%Z).

(** ** readSchema and newLoader *)

(** [readSchema]; [parse] is [schema.Parse], which lives outside
    [loader.go], and [Update] the type of what it returns. *)
Section ReadSchema.
Variable Update : Type.
Variable parse : list Z -> Update + error.

Definition readSchema (w : World) (filename : string) : traced Update :=
  '_ <~ emit (EvOpen filename) ;;
  match open w filename with
  | inr e => tFatal e
  | inl f =>
      'r <~ (if String.eqb (Ext filename) ".gz"
             then '_ <~ emit (EvGzipNewReader filename) ;;
                  match gunzip w f with
                  | inr e => tFatal e
                  | inl r => tret r
                  end
             else tret f) ;;
      let '(buf, err) := ReadAll r in
      match err with
      | Some e => tFatal e
      | None =>
          match parse buf with
          | inr e => tFatal e
          | inl initialSchema =>
              '_ <~ emit (EvFileClose filename) ;;
              tret initialSchema
          end
      end
  end.

(** [newLoader]: [dial] is the result of [grpc.Dial] and [w] the file
    system in which the schema file is looked up.  The fields of the
    [state] literal are evaluated in the order written, so the write
    timestamp is asked for before the schema file is read.  What
    [newProgress], [newShardMap], [newSchemaStore] and [newMapper] build
    lives outside [loader.go]: the schema read is handed to
    [newSchemaStore] and its store is not kept in [state] here, and a
    mapper is known by its index.  The progress reporter is started last. *)
Definition newLoader (dial : option error) (zero : nat -> reply) (attempts : nat)
    (w : World) (o : options) : traced loader :=
  '_ <~ emit (EvPrintf "Connecting to zero at %s\n") ;;
  '_ <~ emit (EvDial (ZeroAddr o)) ;;
  '_ <~ tCheck dial ;;
  'ts <~ getWriteTimestamp zero attempts ;;
  let st := mkState o None ts in
  '_ <~ readSchema w (SchemaFile o) ;;
  let ld := mkLoader st (map Some (seq 0 (NumGoroutines o))) None in
  '_ <~ emit EvGoReport ;;
  tret ld.

End ReadSchema.

(** Options for RDF input under [data] with the schema in [schema.gz]. *)
Definition exampleOptions : options :=
  mkOptions "data" "" "schema.gz" "tmp" 1 1 "localhost:5080".

(** A world with a compressed schema file. *)
Definition schemaWorld : World :=
  mkWorld (fun _ => None) (fun _ => None) (fun _ => None) (fun _ => [])
          (fun _ => inl (lit "packed", EOF))
          (fun _ => inl (lit "name: string .", EOF))
          (fun readers => readers).




(* ================================================================== *)
(** * Properties *)

Lemma Ret_inj (A : Type) (a b : A) : Ret a = Ret b -> a = b.
Proof. now intros [=]. Qed.

(** ** Loops *)

Section LoopFacts.
Variables (St R : Type).
Variable measure : St -> nat.
Variable body : St -> outcome (St + R).
Hypothesis decr : forall s s', body s = Ret (inl s') -> measure s' < measure s.

Lemma iter_S n s :
  iter body (S n) s =
  match body s with
  | Ret (inl s') => iter body n s'
  | Ret (inr r) => Ret r
  | Fatal e => Fatal e
  | OutOfFuel => OutOfFuel
  end.
Proof. reflexivity. Qed.

Lemma iter_enough n : forall m s,
  measure s < n -> measure s < m -> iter body n s = iter body m s.
Proof.
  induction n as [|n IH]; intros m s Hn Hm; [lia|].
  destruct m as [|m]; [lia|]. simpl.
  destruct (body s) as [[s'|r]|e|] eqn:E; auto.
  apply decr in E. apply IH; lia.
Qed.

Lemma loop_unfold s :
  loop measure body s =
  match body s with
  | Ret (inl s') => loop measure body s'
  | Ret (inr r) => Ret r
  | Fatal e => Fatal e
  | OutOfFuel => OutOfFuel
  end.
Proof.
  unfold loop at 1. rewrite iter_S.
  destruct (body s) as [[s'|r]|e|] eqn:E; auto.
  apply decr in E. unfold loop. apply iter_enough; lia.
Qed.

(** Invariant rule: what holds of every state the loop goes through holds
    of the state it is left from. *)
Lemma loop_rule (I : St -> Prop) (Q : R -> Prop) :
  (forall s s', I s -> body s = Ret (inl s') -> I s') ->
  (forall s r, I s -> body s = Ret (inr r) -> Q r) ->
  forall s r, I s -> loop measure body s = Ret r -> Q r.
Proof.
  intros Hstep Hexit s.
  remember (measure s) as n eqn:Hn. revert s Hn.
  induction n as [n IH] using lt_wf_ind; intros s Hn r HI.
  rewrite loop_unfold.
  destruct (body s) as [[s'|r']|e|] eqn:E; try discriminate.
  - apply (IH (measure s')); eauto. subst n. eauto.
  - intros H; inversion H; subst. eauto.
Qed.

(** A loop whose body always returns returns. *)
Lemma loop_returns :
  (forall s, exists x, body s = Ret x) ->
  forall s, exists r, loop measure body s = Ret r.
Proof.
  intros Hbody s.
  remember (measure s) as n eqn:Hn. revert s Hn.
  induction n as [n IH] using lt_wf_ind; intros s Hn.
  rewrite loop_unfold.
  destruct (Hbody s) as [[s'|r] E]; rewrite E; eauto.
  apply (IH (measure s')); eauto. subst n. eauto.
Qed.

End LoopFacts.

(** ** bufio *)

Lemma IndexByte_Some s c : forall i,
  IndexByte s c = Some i ->
  exists body rest,
    s = body ++ c :: rest /\ length body = i /\ ~ In c body.
Proof.
  induction s as [|x s IH]; simpl; intros i H; [discriminate|].
  destruct (Z.eqb_spec x c) as [->|Hne].
  - inversion H; subst. exists [], s. simpl. tauto.
  - destruct (IndexByte s c) as [j|]; [|discriminate].
    simpl in H. inversion H; subst.
    destruct (IH j eq_refl) as (body & rest & -> & Hlen & Hnin).
    exists (x :: body), rest. simpl. repeat split; auto.
    intros [?|?]; congruence || auto.
Qed.

Lemma IndexByte_None s c : IndexByte s c = None -> ~ In c s.
Proof.
  induction s as [|x s IH]; simpl; intros H; [tauto|].
  destruct (Z.eqb_spec x c) as [->|Hne]; [discriminate|].
  destruct (IndexByte s c); [discriminate|].
  intros [?|?]; [congruence | now apply IH].
Qed.

Lemma IndexByte_firstn s c : forall k i,
  IndexByte (firstn k s) c = Some i -> IndexByte s c = Some i.
Proof.
  induction s as [|x s IH]; intros [|k] i; simpl; try discriminate.
  destruct (Z.eqb x c); auto.
  destruct (IndexByte (firstn k s) c) as [j|] eqn:E; [|discriminate].
  now rewrite (IH _ _ E).
Qed.

Lemma firstn_skipn_found (body rest : list Z) c :
  firstn (S (length body)) (body ++ c :: rest) = body ++ [c]
  /\ skipn (S (length body)) (body ++ c :: rest) = rest.
Proof.
  replace (body ++ c :: rest) with ((body ++ [c]) ++ rest)
    by now rewrite <- app_assoc.
  replace (S (length body)) with (length (body ++ [c]) + 0)
    by (rewrite length_app; simpl; lia).
  rewrite firstn_app_2, skipn_app.
  rewrite skipn_all2 by lia.
  replace (length (body ++ [c]) + 0 - length (body ++ [c])) with 0 by lia.
  simpl. now rewrite app_nil_r.
Qed.

(** What the two line-reading calls do on a stream that ends with [EOF]:
    either they hand out a complete line, or the stream holds no further
    newline and they hand out all that is left. *)
Lemma ReadString_newline r :
  let '(str, err, r1) := ReadString r rdfChunker.newline in
  pending r = str ++ pending r1 /\ size r1 = size r /\ srcErr r1 = srcErr r /\
  ((err = None /\ Line str) \/
   (err = Some (srcErr r) /\ pending r1 = [] /\ ~ In rdfChunker.newline str)).
Proof.
  unfold ReadString.
  destruct (IndexByte (pending r) rdfChunker.newline) as [i|] eqn:E;
    unfold advance; cbn [pending size srcErr].
  - destruct (IndexByte_Some _ _ E) as (body & rest & Hp & Hlen & Hnin).
    subst i. rewrite Hp.
    destruct (firstn_skipn_found body rest rdfChunker.newline) as [-> ->].
    repeat split; [now rewrite <- app_assoc|].
    left. split; [reflexivity|]. now exists body.
  - rewrite skipn_all, app_nil_r. repeat split.
    right. repeat split. now apply IndexByte_None.
Qed.

Lemma ReadSlice_newline r :
  let '(slc, err, r1) := ReadSlice r rdfChunker.newline in
  pending r = slc ++ pending r1 /\ size r1 = size r /\ srcErr r1 = srcErr r /\
  ((err = None /\ Line slc) \/
   (err = Some ErrBufferFull /\ ~ In rdfChunker.newline slc) \/
   (err = Some (srcErr r) /\ pending r1 = [] /\ ~ In rdfChunker.newline slc)).
Proof.
  unfold ReadSlice.
  destruct (IndexByte (firstn (size r) (pending r)) rdfChunker.newline)
    as [i|] eqn:E.
  - apply IndexByte_firstn in E.
    unfold advance; cbn [pending size srcErr].
    destruct (IndexByte_Some _ _ E) as (body & rest & Hp & Hlen & Hnin).
    subst i. rewrite Hp.
    destruct (firstn_skipn_found body rest rdfChunker.newline) as [-> ->].
    repeat split; [now rewrite <- app_assoc|].
    left. split; [reflexivity|]. now exists body.
  - apply IndexByte_None in E.
    destruct (size r <=? length (pending r)) eqn:Hfull;
      unfold advance; cbn [pending size srcErr].
    + rewrite firstn_skipn. repeat split. right; left. now split.
    + apply Nat.leb_gt in Hfull.
      rewrite firstn_all2 in E by lia.
      rewrite skipn_all, app_nil_r. repeat split. right; right. now repeat split.
Qed.

(** ** rdfChunker.chunk *)

Lemma PartialChunk_cons n l got :
  Line l -> PartialChunk n got -> PartialChunk (S n) (l ++ got).
Proof.
  intros Hl (k & ls & tail & Hk & -> & Hls & Htail).
  exists (S k), (l ++ ls), tail. repeat split; [lia| |now constructor|auto].
  now rewrite app_assoc.
Qed.

Lemma PartialChunk_tail n tail :
  ~ In rdfChunker.newline tail -> PartialChunk (S n) tail.
Proof.
  intros H. exists 0, [], tail. repeat split; [lia|constructor|auto].
Qed.

Lemma Line_app pre body :
  ~ In rdfChunker.newline pre -> Line body -> Line (pre ++ body).
Proof.
  intros Hpre (b & -> & Hb). exists (pre ++ b). split.
  - now rewrite app_assoc.
  - rewrite in_app_iff. tauto.
Qed.

(** The loop of [chunk] on a stream that ends with [EOF]: it consumes a
    prefix [got] of the stream and returns it appended to [batch]; without
    error it is exactly [n] complete lines, otherwise the stream is
    exhausted and the error is [io.EOF]. *)
Lemma chunkLines_spec n : forall r batch,
  srcErr r = EOF ->
  exists got err r',
    rdfChunker.chunkLines n r batch = (Some (batch ++ got), err, r') /\
    pending r = got ++ pending r' /\ size r' = size r /\ srcErr r' = EOF /\
    ((err = None /\ WholeLines n got) \/
     (err = Some EOF /\ pending r' = [] /\ PartialChunk n got)).
Proof.
  induction n as [|n IH]; intros r batch Hsrc.
  - exists [], None, r. simpl. rewrite app_nil_r.
    repeat split; auto. left. split; [reflexivity|constructor].
  - cbn [rdfChunker.chunkLines]. unfold Write.
    pose proof (ReadSlice_newline r) as HS.
    destruct (ReadSlice r rdfChunker.newline) as [[slc err] r1].
    destruct HS as (Hp & Hsz & Hse & [[-> Hl] | [[-> Hnin] | (-> & Hnil & Hnin)]]).
    + (* a complete line within the buffer *)
      cbn [isEOF isBufferFull].
      destruct (IH r1 (batch ++ slc)) as (got & err & r' & Hc & Hp' & Hsz' & Hse' & Hor);
        [congruence|].
      exists (slc ++ got), err, r'. rewrite Hc, Hp, Hp', !app_assoc.
      repeat split; [congruence|auto|].
      destruct Hor as [[-> Hw] | (-> & Hn & Hpc)]; [left|right];
        repeat split; auto using PartialChunk_cons. now constructor.
    + (* the buffer filled up inside a line *)
      cbn [isEOF isBufferFull].
      pose proof (ReadString_newline r1) as HR.
      destruct (ReadString r1 rdfChunker.newline) as [[str err] r2].
      destruct HR as (Hp1 & Hsz1 & Hse1 & [[-> Hl] | (-> & Hnil & Hnin1)]).
      * cbn [isEOF].
        destruct (IH r2 ((batch ++ slc) ++ str))
          as (got & err & r' & Hc & Hp' & Hsz' & Hse' & Hor); [congruence|].
        exists ((slc ++ str) ++ got), err, r'.
        rewrite Hc, Hp, Hp1, Hp', !app_assoc.
        repeat split; [congruence|auto|].
        assert (Line (slc ++ str)) by now apply Line_app.
        destruct Hor as [[-> Hw] | (-> & Hn & Hpc)]; [left|right];
          repeat split; auto using PartialChunk_cons. now constructor.
      * rewrite Hse, Hsrc. cbn [isEOF].
        exists (slc ++ str), (Some EOF), r2.
        rewrite Hp, Hp1, Hnil, !app_nil_r, !app_assoc.
        repeat split; [congruence|congruence|].
        right. repeat split; auto. apply PartialChunk_tail.
        rewrite in_app_iff. tauto.
    + (* the stream ends inside a line *)
      rewrite Hsrc. cbn [isEOF].
      exists slc, (Some EOF), r1. rewrite Hp, Hnil, app_nil_r.
      repeat split; [auto|congruence|].
      right. repeat split; auto using PartialChunk_tail.
Qed.

Lemma Line_length l : Line l -> 0 < length l.
Proof. intros (b & -> & _). rewrite length_app. simpl. lia. Qed.

(** A call that reports no error went through all its iterations, each of
    which consumed at least one byte; this holds whatever the underlying
    reader fails with. *)
Lemma chunkLines_consumes n : forall r batch ob r',
  rdfChunker.chunkLines n r batch = (ob, None, r') ->
  unread r' + n <= unread r.
Proof.
  unfold unread.
  induction n as [|n IH]; intros r batch ob r' H.
  - simpl in H. inversion H; subst. lia.
  - cbn [rdfChunker.chunkLines] in H.
    pose proof (ReadSlice_newline r) as HS.
    destruct (ReadSlice r rdfChunker.newline) as [[slc err] r1].
    destruct HS as (Hp & _ & Hse & [[-> Hl] | [[-> Hnin] | (-> & Hnil & Hnin)]]).
    + cbn [isEOF isBufferFull] in H. apply IH in H. apply Line_length in Hl.
      rewrite Hp, length_app. lia.
    + cbn [isEOF isBufferFull] in H.
      pose proof (ReadString_newline r1) as HR.
      destruct (ReadString r1 rdfChunker.newline) as [[str err] r2].
      destruct HR as (Hp1 & _ & _ & [[-> Hl] | (-> & _ & _)]).
      * cbn [isEOF] in H. apply IH in H. apply Line_length in Hl.
        rewrite Hp, Hp1, !length_app. lia.
      * destruct (isEOF (Some (srcErr r1))); inversion H.
    + pose proof (ReadString_newline r1) as HR.
      destruct (ReadString r1 rdfChunker.newline) as [[str err] r2].
      destruct HR as (Hp1 & _ & _ & [[-> Hl] | (-> & _ & _)]).
      * apply Line_length in Hl. rewrite Hnil in Hp1.
        destruct str; [simpl in Hl; lia | discriminate].
      * destruct (srcErr r); cbn [isEOF isBufferFull] in H; try discriminate.
        destruct (srcErr r1); inversion H.
Qed.

Lemma maxLines_pos : rdfChunker.maxLines = S (Z.to_nat 99999).
Proof.
  unfold rdfChunker.maxLines. now rewrite <- Z2Nat.inj_succ by lia.
Qed.

Lemma rdf_progress : Progress rdfChunker.impl.
Proof.
  intros r b r' H. cbn [chunk rdfChunker.impl] in H. unfold rdfChunker.chunk in H.
  apply Ret_inj in H. apply chunkLines_consumes in H.
  rewrite maxLines_pos in H. revert H.
  generalize (Z.to_nat 99999). intros; lia.
Qed.

Lemma WholeLines_ends k : forall s, WholeLines (S k) s -> EndsWithNewline s.
Proof.
  induction k as [|k IH]; intros s H; inversion H as [|? l s' Hl Hs']; subst.
  - inversion Hs'; subst. destruct Hl as (b & -> & _).
    exists b. now rewrite app_nil_r.
  - destruct (IH _ Hs') as (b & ->). exists (l ++ b). now rewrite app_assoc.
Qed.

Section Calls.
Variable c : chunker.
Hypothesis progress : Progress c.

Lemma callsBody_decr (s s' : Reader * list (option buf)) :
  callsBody c s = Ret (inl s') -> unread (fst s') < unread (fst s).
Proof.
  destruct s as [r bs]. unfold callsBody.
  destruct (chunk c r) as [[[b [e|]] r1]|e|] eqn:E; simpl; try discriminate.
  intros H; inversion H; subst. simpl. eauto.
Qed.

Lemma calls_unfold r bs :
  loop (fun s => unread (fst s)) (callsBody c) (r, bs) =
  match chunk c r with
  | Ret (b, Some e, _) => Ret (bs ++ [b], Some e)
  | Ret (b, None, r1) => loop (fun s => unread (fst s)) (callsBody c) (r1, bs ++ [b])
  | Fatal e => Fatal e
  | OutOfFuel => OutOfFuel
  end.
Proof.
  rewrite loop_unfold by exact callsBody_decr.
  unfold callsBody.
  destruct (chunk c r) as [[[b [e|]] r1]|e|]; reflexivity.
Qed.

End Calls.

(** Successive calls on a stream that ends with [EOF] return buffers whose
    concatenation is the stream; all but the last hold exactly [maxLines]
    complete lines. *)
Lemma rdf_calls n : forall r acc,
  unread r <= n -> srcErr r = EOF ->
  exists bufs,
    loop (fun s => unread (fst s)) (callsBody rdfChunker.impl) (r, acc)
      = Ret (acc ++ map Some bufs, Some EOF) /\
    bufs <> [] /\
    concat bufs = pending r /\
    Forall (WholeLines rdfChunker.maxLines) (removelast bufs).
Proof.
  induction n as [n IH] using lt_wf_ind; intros r acc Hn Hsrc.
  rewrite (calls_unfold rdf_progress).
  cbn [chunk rdfChunker.impl]. unfold rdfChunker.chunk.
  destruct (chunkLines_spec rdfChunker.maxLines r [] Hsrc)
    as (got & err & r' & Hc & Hp & Hsz & Hse & Hor).
  rewrite Hc. cbn [app].
  destruct Hor as [[-> Hw] | (-> & Hnil & Hpc)]; cbv beta iota.
  - assert (Hlt : unread r' < unread r).
    { apply (@rdf_progress r (Some got) r'). cbn [chunk rdfChunker.impl].
      unfold rdfChunker.chunk. now rewrite Hc. }
    destruct (IH (unread r') ltac:(lia) r' (acc ++ [Some got]) (le_n _) Hse)
      as (bufs & Hl & Hne & Hcat & Hall).
    exists (got :: bufs). repeat split.
    + refine (eq_trans Hl _). simpl. now rewrite <- app_assoc.
    + discriminate.
    + simpl. now rewrite Hcat, Hp.
    + destruct bufs as [|b bufs]; [congruence|].
      change (removelast (got :: b :: bufs)) with (got :: removelast (b :: bufs)).
      now constructor.
  - exists [got]. simpl. rewrite app_nil_r. repeat split; auto.
    + discriminate.
    + now rewrite Hp, Hnil, app_nil_r.
Qed.

(** ** slurpSpace *)

Lemma slurpSpaceBody_decr r r' :
  slurpSpaceBody r = Ret (inl r') -> unread r' < unread r.
Proof.
  unfold slurpSpaceBody, ReadRune, unread.
  destruct (pending r) as [|ch rest] eqn:E; [discriminate|].
  destruct (IsSpace ch); simpl; [|discriminate].
  intros [= <-]. simpl. lia.
Qed.

Lemma slurpSpace_unfold r :
  slurpSpace r =
  match slurpSpaceBody r with
  | Ret (inl r') => slurpSpace r'
  | Ret (inr x) => Ret x
  | Fatal e => Fatal e
  | OutOfFuel => OutOfFuel
  end.
Proof. apply loop_unfold, slurpSpaceBody_decr. Qed.

Lemma slurpSpace_skip ws c rest sz fin : forall last,
  Spaces ws -> IsSpace c = false ->
  slurpSpace (mkReader (ws ++ c :: rest) sz last fin)
  = Ret (None, mkReader (c :: rest) sz None fin).
Proof.
  induction ws as [|w ws IH]; intros last Hws Hc; rewrite slurpSpace_unfold;
    unfold slurpSpaceBody, ReadRune, UnreadRune; simpl.
  - now rewrite Hc.
  - inversion Hws as [|? ? Hw Hws']; subst. rewrite Hw. simpl. now apply IH.
Qed.

Lemma slurpSpace_end ws sz fin : forall last,
  Spaces ws ->
  slurpSpace (mkReader ws sz last fin) = Ret (Some fin, mkReader [] sz None fin).
Proof.
  induction ws as [|w ws IH]; intros last Hws; rewrite slurpSpace_unfold;
    unfold slurpSpaceBody, ReadRune, UnreadRune; simpl.
  - reflexivity.
  - inversion Hws as [|? ? Hw Hws']; subst. rewrite Hw. simpl. now apply IH.
Qed.

Lemma slurpSpace_returns r : exists x, slurpSpace r = Ret x.
Proof.
  apply loop_returns; [exact slurpSpaceBody_decr|].
  intros s. unfold slurpSpaceBody.
  destruct (ReadRune s) as [[ch [e|]] r1]; eauto.
  destruct (negb (IsSpace ch)); eauto.
Qed.

Lemma ReadRune_cases r :
  (pending r = [] /\ ReadRune r = (0%Z, Some (srcErr r), mkReader [] (size r) None (srcErr r)))
  \/ (exists ch rest, pending r = ch :: rest /\
        ReadRune r = (ch, None, mkReader rest (size r) (Some ch) (srcErr r))).
Proof.
  unfold ReadRune. destruct (pending r) as [|ch rest]; [left|right]; eauto.
Qed.

Lemma ReadRune_le r ch e r' : ReadRune r = (ch, e, r') -> unread r' <= unread r.
Proof.
  unfold unread.
  destruct (ReadRune_cases r) as [[Hp ->] | (c & rest & Hp & ->)];
    intros [= <- <- <-]; rewrite Hp; simpl; lia.
Qed.

Lemma ReadRune_lt r ch r' : ReadRune r = (ch, None, r') -> unread r' < unread r.
Proof.
  unfold unread.
  destruct (ReadRune_cases r) as [[Hp ->] | (c & rest & Hp & ->)];
    intros [= <- <-]; rewrite Hp; simpl; lia.
Qed.

(** Pushing back the rune just read restores the length of the input. *)
Lemma UnreadRune_after r ch r1 :
  ReadRune r = (ch, None, r1) ->
  fst (UnreadRune r1) = None /\ unread (snd (UnreadRune r1)) = unread r.
Proof.
  unfold unread.
  destruct (ReadRune_cases r) as [[Hp ->] | (c & rest & Hp & ->)];
    intros [= <- <-]. rewrite Hp. unfold UnreadRune. simpl. auto.
Qed.

Lemma slurpSpace_le r e r' : slurpSpace r = Ret (e, r') -> unread r' <= unread r.
Proof.
  intros H.
  refine (loop_rule unread slurpSpaceBody slurpSpaceBody_decr
            (fun s => unread s <= unread r)
            (fun x => unread (snd x) <= unread r) _ _ r (le_n _) H).
  - intros s s' Hs Hb. apply slurpSpaceBody_decr in Hb. lia.
  - intros s [e1 r1] Hs. unfold slurpSpaceBody.
    destruct (ReadRune s) as [[ch [e2|]] r2] eqn:E.
    + intros [= <- <-]. apply ReadRune_le in E. simpl. lia.
    + destruct (negb (IsSpace ch)); [|discriminate].
      intros [= <- <-]. apply UnreadRune_after in E. simpl. lia.
Qed.

(** ** slurpQuoted *)

Lemma slurpQuotedBody_decr s s' :
  slurpQuotedBody s = Ret (inl s') -> unread (fst s') < unread (fst s).
Proof.
  destruct s as [r out]. unfold slurpQuotedBody.
  destruct (ReadRune r) as [[ch [e|]] r1] eqn:E; [discriminate|].
  apply ReadRune_lt in E.
  destruct (ch =? backslash)%Z.
  - destruct (ReadRune r1) as [[esc [e|]] r2] eqn:E2; [discriminate|].
    apply ReadRune_lt in E2. intros [= <-]. simpl. lia.
  - destruct (ch =? quote)%Z; [discriminate|]. intros [= <-]. simpl. lia.
Qed.

Lemma slurpQuoted_unfold r out :
  slurpQuoted r out =
  match slurpQuotedBody (r, out) with
  | Ret (inl (r', out')) => slurpQuoted r' out'
  | Ret (inr x) => Ret x
  | Fatal e => Fatal e
  | OutOfFuel => OutOfFuel
  end.
Proof.
  unfold slurpQuoted. rewrite loop_unfold by exact slurpQuotedBody_decr.
  destruct (slurpQuotedBody (r, out)) as [[[r' out']|x]|e|]; reflexivity.
Qed.

(** A well-formed string tail is copied whole and the scan stops right
    after the closing quote. *)
Lemma slurpQuoted_string q : StringTail q -> forall rest sz last fin out,
  slurpQuoted (mkReader (q ++ rest) sz last fin) out
  = Ret (None, mkReader rest sz (Some quote) fin, out ++ q).
Proof.
  induction 1 as [|c s Hs IH|c s Hq Hb Hs IH]; intros rest sz last fin out;
    rewrite slurpQuoted_unfold; unfold slurpQuotedBody, ReadRune, WriteRune; simpl.
  - reflexivity.
  - rewrite IH. now rewrite <- !app_assoc.
  - apply Z.eqb_neq in Hq, Hb. rewrite Hq, Hb, IH. now rewrite <- app_assoc.
Qed.

Lemma slurpQuoted_returns r out : exists x, slurpQuoted r out = Ret x.
Proof.
  apply loop_returns; [exact slurpQuotedBody_decr|].
  intros [s o]. unfold slurpQuotedBody.
  destruct (ReadRune s) as [[ch [e|]] r1]; eauto.
  destruct (ch =? backslash)%Z.
  - destruct (ReadRune r1) as [[esc [e|]] r2]; eauto.
  - destruct (ch =? quote)%Z; eauto.
Qed.

Lemma slurpQuoted_le r out e r' out' :
  slurpQuoted r out = Ret (e, r', out') -> unread r' <= unread r.
Proof.
  intros H.
  refine (loop_rule (fun s => unread (fst s)) slurpQuotedBody
            slurpQuotedBody_decr
            (fun s => unread (fst s) <= unread r)
            (fun x => unread (snd (fst x)) <= unread r) _ _ (r, out)
            (le_n _) H).
  - intros s s' Hs Hb. apply slurpQuotedBody_decr in Hb. lia.
  - intros [s o] [[e1 r1] o1] Hs. unfold slurpQuotedBody. simpl in Hs.
    destruct (ReadRune s) as [[ch [e2|]] r2] eqn:E.
    + intros [= <- <- <-]. apply ReadRune_le in E. simpl. lia.
    + apply ReadRune_le in E. destruct (ch =? backslash)%Z.
      * destruct (ReadRune r2) as [[esc [e3|]] r3] eqn:E3; [|discriminate].
        intros [= <- <- <-]. apply ReadRune_le in E3. simpl. lia.
      * destruct (ch =? quote)%Z; [|discriminate].
        intros [= <- <- <-]. simpl. lia.
Qed.

(** ** jsonChunker.chunk: the depth loop *)

Lemma depthBody_decr s s' :
  jsonChunker.depthBody s = Ret (inl s') ->
  unread (snd (fst s')) < unread (snd (fst s)).
Proof.
  destruct s as [[d r] out]. unfold jsonChunker.depthBody.
  destruct (0 <? d)%Z; [|discriminate].
  destruct (ReadRune r) as [[ch [e|]] r1] eqn:E; [discriminate|].
  apply ReadRune_lt in E.
  destruct (ch =? lbrace)%Z; [intros [= <-]; simpl; lia|].
  destruct (ch =? rbrace)%Z; [intros [= <-]; simpl; lia|].
  destruct (ch =? quote)%Z; [|intros [= <-]; simpl; lia].
  destruct (slurpQuoted r1 (WriteRune out ch)) as [[[e r2] out2]|e|] eqn:Q;
    cbn [bind]; try discriminate.
  apply slurpQuoted_le in Q.
  destruct e; [discriminate|]. intros [= <-]. simpl. lia.
Qed.

Lemma depthLoop_unfold s :
  jsonChunker.depthLoop s =
  match jsonChunker.depthBody s with
  | Ret (inl s') => jsonChunker.depthLoop s'
  | Ret (inr x) => Ret x
  | Fatal e => Fatal e
  | OutOfFuel => OutOfFuel
  end.
Proof. apply loop_unfold, depthBody_decr. Qed.

Lemma depthLoop_done d r out :
  (d <= 0)%Z -> jsonChunker.depthLoop (d, r, out) = Ret (inr (r, out)).
Proof.
  intros Hd. rewrite depthLoop_unfold. unfold jsonChunker.depthBody.
  apply Z.ltb_ge in Hd. now rewrite Hd.
Qed.

Lemma depthLoop_end d sz last fin out :
  (0 < d)%Z ->
  jsonChunker.depthLoop (d, mkReader [] sz last fin, out)
  = Ret (inl (None, Some (New "malformed json"), mkReader [] sz None fin)).
Proof.
  intros Hd. rewrite depthLoop_unfold. unfold jsonChunker.depthBody.
  apply Z.ltb_lt in Hd. now rewrite Hd.
Qed.

Lemma depthLoop_step d c l sz last fin out :
  (0 < d)%Z ->
  jsonChunker.depthLoop (d, mkReader (c :: l) sz last fin, out) =
  if (c =? lbrace)%Z
  then jsonChunker.depthLoop (wrapInt (d + 1), mkReader l sz (Some c) fin, out ++ [c])
  else if (c =? rbrace)%Z
  then jsonChunker.depthLoop (wrapInt (d - 1), mkReader l sz (Some c) fin, out ++ [c])
  else if (c =? quote)%Z
  then match slurpQuoted (mkReader l sz (Some c) fin) (out ++ [c]) with
       | Ret (None, r2, out2) => jsonChunker.depthLoop (d, r2, out2)
       | Ret (Some e, r2, _) => Ret (inl (None, Some e, r2))
       | Fatal e => Fatal e
       | OutOfFuel => OutOfFuel
       end
  else jsonChunker.depthLoop (d, mkReader l sz (Some c) fin, out ++ [c]).
Proof.
  intros Hd. rewrite depthLoop_unfold. unfold jsonChunker.depthBody.
  apply Z.ltb_lt in Hd. rewrite Hd.
  unfold ReadRune, WriteRune. cbn [pending size srcErr].
  destruct (c =? lbrace)%Z; [reflexivity|].
  destruct (c =? rbrace)%Z; [reflexivity|].
  destruct (c =? quote)%Z; [|reflexivity].
  destruct (slurpQuoted (mkReader l sz (Some c) fin) (out ++ [c]))
    as [[[[e|] r2] out2]|e|]; reflexivity.
Qed.

Lemma wrapInt_small z :
  (- 2 ^ 63 <= z < 2 ^ 63)%Z -> wrapInt z = z.
Proof.
  intros H. unfold wrapInt. rewrite Z.mod_small; lia.
Qed.

(** Text that closes [d] levels takes the depth counter from [d + k] to
    [k], is copied whole, and is left with its last brace. *)
Lemma depthLoop_closes d s :
  Closes d s -> forall k rest sz last fin out,
  (0 <= k)%Z ->
  (Z.of_nat d + k + Z.of_nat (length s) < 2 ^ 63)%Z ->
  jsonChunker.depthLoop ((Z.of_nat d + k)%Z, mkReader (s ++ rest) sz last fin, out)
  = jsonChunker.depthLoop (k, mkReader rest sz (Some rbrace) fin, out ++ s).
Proof.
  induction 1 as [|d s Hs IH|d s Hs IH|d q s Hq Hs IH|d c s Hl Hr Hq Hs IH];
    intros k rest sz last fin out Hk Hbound;
    cbn [app]; cbn [length] in Hbound; rewrite depthLoop_step by lia.
  - change (rbrace =? lbrace)%Z with false.
    change (rbrace =? rbrace)%Z with true. cbv iota.
    rewrite wrapInt_small by lia. f_equal. f_equal. f_equal. lia.
  - change (rbrace =? lbrace)%Z with false.
    change (rbrace =? rbrace)%Z with true. cbv iota.
    rewrite wrapInt_small by lia.
    replace (Z.of_nat (S (S d)) + k - 1)%Z with (Z.of_nat (S d) + k)%Z by lia.
    rewrite IH by lia.
    now rewrite <- app_assoc.
  - change (lbrace =? lbrace)%Z with true. cbv iota.
    rewrite wrapInt_small by lia.
    replace (Z.of_nat (S d) + k + 1)%Z with (Z.of_nat (S (S d)) + k)%Z by lia.
    rewrite IH by lia.
    now rewrite <- app_assoc.
  - change (quote =? lbrace)%Z with false.
    change (quote =? rbrace)%Z with false.
    change (quote =? quote)%Z with true. cbv iota.
    rewrite <- app_assoc, slurpQuoted_string by assumption.
    rewrite length_app in Hbound.
    rewrite IH by lia.
    now rewrite <- !app_assoc.
  - apply Z.eqb_neq in Hl, Hr, Hq. rewrite Hl, Hr, Hq.
    rewrite IH by lia.
    now rewrite <- app_assoc.
Qed.

Lemma depthBody_returns s : exists x, jsonChunker.depthBody s = Ret x.
Proof.
  destruct s as [[d r] out]. unfold jsonChunker.depthBody.
  destruct (0 <? d)%Z; eauto.
  destruct (ReadRune r) as [[ch [e|]] r1]; eauto.
  destruct (ch =? lbrace)%Z; eauto.
  destruct (ch =? rbrace)%Z; eauto.
  destruct (ch =? quote)%Z; eauto.
  destruct (slurpQuoted_returns r1 (WriteRune out ch)) as [[[[e|] r2] out2] ->];
    cbn [bind]; eauto.
Qed.

Lemma depthLoop_returns s : exists x, jsonChunker.depthLoop s = Ret x.
Proof.
  apply loop_returns; [exact depthBody_decr | exact depthBody_returns].
Qed.

(** However the depth loop is left, it has not put input back. *)
Lemma depthLoop_le d r out x :
  jsonChunker.depthLoop (d, r, out) = Ret x ->
  match x with
  | inl (_, _, r') => unread r' <= unread r
  | inr (r', _) => unread r' <= unread r
  end.
Proof.
  intros H.
  refine (loop_rule (fun s => unread (snd (fst s))) jsonChunker.depthBody
            depthBody_decr
            (fun s => unread (snd (fst s)) <= unread r)
            (fun x => match x with
                      | inl (_, _, r') => unread r' <= unread r
                      | inr (r', _) => unread r' <= unread r
                      end) _ _ (d, r, out) (le_n _) H).
  - intros s s' Hs Hb. apply depthBody_decr in Hb. lia.
  - intros [[d1 r1] out1] y Hs. unfold jsonChunker.depthBody. cbn [fst snd] in Hs.
    destruct (0 <? d1)%Z; [|intros [= <-]; exact Hs].
    destruct (ReadRune r1) as [[ch [e|]] r2] eqn:E; apply ReadRune_le in E.
    + intros [= <-]. lia.
    + destruct (ch =? lbrace)%Z; [discriminate|].
      destruct (ch =? rbrace)%Z; [discriminate|].
      destruct (ch =? quote)%Z; [|discriminate].
      destruct (slurpQuoted r2 (WriteRune out1 ch)) as [[[[e|] r3] out3]|e|] eqn:Q;
        cbn [bind]; try discriminate.
      apply slurpQuoted_le in Q. intros [= <-]. lia.
Qed.

(** ** jsonChunker.chunk *)

(** Every call of [chunk] returns: no loop of the model runs out of
    iterations and the [x.Check] on [UnreadRune] never fires. *)
Lemma json_chunk_returns r : exists x, jsonChunker.chunk r = Ret x.
Proof.
  unfold jsonChunker.chunk.
  destruct (slurpSpace_returns r) as [[[e|] r1] ->]; cbn [bind]; eauto.
  destruct (ReadRune r1) as [[ch [e|]] r2]; eauto.
  destruct (negb (ch =? lbrace)%Z); eauto.
  destruct (depthLoop_returns (1%Z, r2, WriteRune [] ch)) as [[x|[r3 out]] ->];
    cbn [bind]; eauto.
  destruct (slurpSpace_returns r3) as [[[e|] r4] ->]; cbn [bind]; eauto.
  destruct (ReadRune r4) as [[c [e|]] r5] eqn:E; eauto.
  destruct (c =? rbracket)%Z; eauto.
  destruct (c =? comma)%Z; eauto.
  destruct (UnreadRune_after _ E) as [Hu _].
  destruct (UnreadRune r5) as [e r6]. simpl in Hu. subst e. cbn [Check bind]. eauto.
Qed.

Lemma json_progress : Progress jsonChunker.impl.
Proof.
  intros r b r'. cbn [chunk jsonChunker.impl]. unfold jsonChunker.chunk.
  destruct (slurpSpace r) as [[[e|] r1]|e|] eqn:S1; cbn [bind]; try discriminate.
  apply slurpSpace_le in S1.
  destruct (ReadRune r1) as [[ch [e|]] r2] eqn:R1; [discriminate|].
  apply ReadRune_lt in R1.
  destruct (negb (ch =? lbrace)%Z); [discriminate|].
  destruct (jsonChunker.depthLoop (1%Z, r2, WriteRune [] ch))
    as [[[[ob oe] rx]|[r3 out]]|e|] eqn:D; cbn [bind]; try discriminate;
    apply depthLoop_le in D.
  - intros [= -> -> ->]. lia.
  - destruct (slurpSpace r3) as [[[e|] r4]|e|] eqn:S2; cbn [bind]; try discriminate.
    apply slurpSpace_le in S2.
    destruct (ReadRune r4) as [[c [e|]] r5] eqn:R2; [discriminate|].
    pose proof (ReadRune_lt _ R2) as Hlt.
    destruct (c =? rbracket)%Z; [discriminate|].
    destruct (c =? comma)%Z; [intros [= <- <-]; lia|].
    destruct (UnreadRune_after _ R2) as [Hu Hlen].
    destruct (UnreadRune r5) as [e r6]. simpl in Hu, Hlen. subst e.
    cbn [Check bind]. intros [= <- <-]. lia.
Qed.

Lemma IsSpace_lbrace : IsSpace lbrace = false.
Proof. reflexivity. Qed.

Lemma IsSpace_lbracket : IsSpace lbracket = false.
Proof. reflexivity. Qed.

(** The runes of an element are the chunk; what the call does next depends
    on the first rune after it that is not white space. *)
Lemma json_chunk_object ws s ws' c rest sz last fin :
  Spaces ws -> Closes 1 s -> Fits (lbrace :: s) ->
  Spaces ws' -> IsSpace c = false ->
  jsonChunker.chunk (mkReader (ws ++ lbrace :: s ++ ws' ++ c :: rest) sz last fin)
  = if (c =? rbracket)%Z
    then Ret (Some (lbrace :: s), Some EOF, mkReader rest sz (Some c) fin)
    else if (c =? comma)%Z
    then Ret (Some (lbrace :: s), None, mkReader rest sz (Some c) fin)
    else Ret (Some (lbrace :: s), None, mkReader (c :: rest) sz None fin).
Proof.
  intros Hws Hs Hlen Hws' Hc. unfold jsonChunker.chunk.
  rewrite slurpSpace_skip by auto using IsSpace_lbrace. cbn [bind].
  unfold ReadRune, WriteRune. cbn [pending size srcErr app].
  change (negb (lbrace =? lbrace)%Z) with false. cbv iota.
  change 1%Z with (Z.of_nat 1 + 0)%Z.
  unfold Fits in Hlen. cbn [length] in Hlen.
  rewrite depthLoop_closes by (auto; lia).
  rewrite depthLoop_done by lia. cbn [bind].
  rewrite slurpSpace_skip by auto. cbn [bind pending size srcErr].
  destruct (c =? rbracket)%Z; [reflexivity|].
  destruct (c =? comma)%Z; reflexivity.
Qed.

(** The stream ends after an element: the element is dropped and the error
    of the underlying reader is returned as it is. *)
Lemma json_chunk_object_end ws s ws' sz last fin :
  Spaces ws -> Closes 1 s -> Fits (lbrace :: s) ->
  Spaces ws' ->
  jsonChunker.chunk (mkReader (ws ++ lbrace :: s ++ ws') sz last fin)
  = Ret (None, Some fin, mkReader [] sz None fin).
Proof.
  intros Hws Hs Hlen Hws'. unfold jsonChunker.chunk.
  rewrite slurpSpace_skip by auto using IsSpace_lbrace. cbn [bind].
  unfold ReadRune, WriteRune. cbn [pending size srcErr app].
  change (negb (lbrace =? lbrace)%Z) with false. cbv iota.
  change 1%Z with (Z.of_nat 1 + 0)%Z.
  unfold Fits in Hlen. cbn [length] in Hlen.
  rewrite depthLoop_closes by (auto; lia).
  rewrite depthLoop_done by lia. cbn [bind].
  rewrite slurpSpace_end by auto. reflexivity.
Qed.

(** Where an element must start there is another rune. *)
Lemma json_chunk_no_object ws c rest sz last fin :
  Spaces ws -> IsSpace c = false -> c <> lbrace ->
  jsonChunker.chunk (mkReader (ws ++ c :: rest) sz last fin)
  = Ret (None, Some (Errorf "expected json map start. Found: %v" c),
         mkReader rest sz (Some c) fin).
Proof.
  intros Hws Hc Hne. unfold jsonChunker.chunk.
  rewrite slurpSpace_skip by auto. cbn [bind].
  unfold ReadRune. cbn [pending size srcErr].
  apply Z.eqb_neq in Hne. now rewrite Hne.
Qed.

(** Nothing but white space is left. *)
Lemma json_chunk_end ws sz last fin :
  Spaces ws ->
  jsonChunker.chunk (mkReader ws sz last fin)
  = Ret (Some [], Some fin, mkReader [] sz None fin).
Proof.
  intros Hws. unfold jsonChunker.chunk. now rewrite slurpSpace_end.
Qed.

Lemma json_begin_array ws rest sz last fin :
  Spaces ws ->
  jsonChunker.begin (mkReader (ws ++ lbracket :: rest) sz last fin)
  = Ret (None, mkReader rest sz (Some lbracket) fin).
Proof.
  intros Hws. unfold jsonChunker.begin.
  now rewrite slurpSpace_skip by auto using IsSpace_lbracket.
Qed.

Lemma json_end_spaces ws sz last :
  Spaces ws ->
  jsonChunker.end_ (mkReader ws sz last EOF) = Ret (None, mkReader [] sz None EOF).
Proof.
  intros Hws. unfold jsonChunker.end_. now rewrite slurpSpace_end.
Qed.

(** ** The reader goroutine *)

Section ReaderLoop.
Variable c : chunker.
Hypothesis progress : Progress c.

Lemma readerBody_decr (s s' : Reader * list (list Z)) :
  readerBody c s = Ret (inl s') -> unread (fst s') < unread (fst s).
Proof.
  destruct s as [r ch]. unfold readerBody.
  destruct (chunk c r) as [[[b err] r1]|e|] eqn:E; try discriminate.
  destruct (isEOF err); [discriminate|].
  destruct err; [discriminate|]. intros [= <-]. simpl. eauto.
Qed.

Lemma readerLoop_unfold r ch :
  readerLoop c (r, ch) =
  match chunk c r with
  | Ret (chunkBuf, err, r1) =>
      if isEOF err then Ret (r1, deliver chunkBuf ch, None)
      else match err with
           | Some e => Ret (r1, deliver chunkBuf ch, Some e)
           | None => readerLoop c (r1, deliver chunkBuf ch)
           end
  | Fatal e => Ret (r, ch, Some e)
  | OutOfFuel => OutOfFuel
  end.
Proof.
  unfold readerLoop. rewrite loop_unfold by exact readerBody_decr.
  unfold readerBody.
  destruct (chunk c r) as [[[b err] r1]|e|]; try reflexivity.
  destruct (isEOF err); [reflexivity|]. destruct err; reflexivity.
Qed.

Lemma readerLoop_returns s :
  (forall r, exists x, chunk c r = Ret x) ->
  exists x, readerLoop c s = Ret x.
Proof.
  intros Hchunk. apply loop_returns; [exact readerBody_decr|].
  intros [r ch]. unfold readerBody.
  destruct (Hchunk r) as [[[b err] r1] ->].
  destruct (isEOF err); eauto. destruct err; eauto.
Qed.

End ReaderLoop.

(** The reader goroutine on an RDF stream that ends with [io.EOF]: what it
    sends on the queue, in order, is the stream cut into non-empty pieces,
    and it ends without error. *)
Lemma rdf_readerLoop n : forall r ch,
  unread r <= n -> srcErr r = EOF ->
  exists sent r',
    readerLoop rdfChunker.impl (r, ch) = Ret (r', ch ++ sent, None) /\
    concat sent = pending r /\
    Forall (fun b => b <> []) sent.
Proof.
  induction n as [n IH] using lt_wf_ind; intros r ch Hn Hsrc.
  rewrite (readerLoop_unfold rdf_progress).
  cbn [chunk rdfChunker.impl]. unfold rdfChunker.chunk.
  destruct (chunkLines_spec rdfChunker.maxLines r [] Hsrc)
    as (got & err & r' & Hc & Hp & Hsz & Hse & Hor).
  rewrite Hc. cbn [app].
  destruct Hor as [[-> Hw] | (-> & Hnil & Hpc)]; cbn [isEOF deliver].
  - assert (Hlt : unread r' < unread r).
    { apply (@rdf_progress r (Some got) r'). cbn [chunk rdfChunker.impl].
      unfold rdfChunker.chunk. now rewrite Hc. }
    assert (Hlen : 0 < length got).
    { rewrite maxLines_pos in Hw. inversion Hw as [|k l s Hl Hs]; subst.
      apply Line_length in Hl. rewrite length_app. lia. }
    replace (0 <? length got)%nat with true by (symmetry; now apply Nat.ltb_lt).
    destruct (IH (unread r') ltac:(lia) r' (ch ++ [got]) (le_n _) Hse)
      as (sent & r'' & Hl & Hcat & Hne).
    exists (got :: sent), r''. rewrite Hl. repeat split.
    + now rewrite <- app_assoc.
    + simpl. now rewrite Hcat, Hp.
    + constructor; [|exact Hne]. intros ->. simpl in Hlen. lia.
  - rewrite Hnil, app_nil_r in Hp. subst got.
    destruct (pending r) as [|x l] eqn:E; cbn [length Nat.ltb Nat.leb].
    + exists [], r'. rewrite app_nil_r. repeat split; auto.
    + exists [x :: l], r'. cbn [concat]. rewrite app_nil_r.
      repeat split; auto. constructor; [discriminate|constructor].
Qed.

Lemma rdf_reader_sends_stream (data : list Z) (sz : nat) :
  exists sent,
    readerGo rdfChunker.impl (NewReaderSize data EOF sz) = Ret (mkReport sent None) /\
    concat sent = data.
Proof.
  unfold readerGo. cbn [begin end_ rdfChunker.impl].
  unfold rdfChunker.begin, rdfChunker.end_.
  destruct (@rdf_readerLoop _ (NewReaderSize data EOF sz) [] (le_n _) eq_refl)
    as (sent & r' & -> & Hcat & _).
  exists sent. split; [reflexivity | exact Hcat].
Qed.

(** ** jsonChunker.chunk: strings, stray braces, truncated input *)



(** A string literal is copied whole and leaves the depth as it is,
    whatever braces and escaped quotes it holds. *)
Lemma depthLoop_string d q rest sz last fin out :
  (0 < d)%Z -> StringTail q ->
  jsonChunker.depthLoop (d, mkReader (quote :: q ++ rest) sz last fin, out)
  = jsonChunker.depthLoop (d, mkReader rest sz (Some quote) fin, out ++ quote :: q).
Proof.
  intros Hd Hq. rewrite depthLoop_step by assumption.
  change (quote =? lbrace)%Z with false.
  change (quote =? rbrace)%Z with false.
  change (quote =? quote)%Z with true. cbv iota.
  rewrite slurpQuoted_string by assumption.
  now rewrite <- app_assoc.
Qed.

(** The element of the spec's example (key k, value the string a}b),
    after its opening brace. *)
Lemma example_closes : Closes 1 (lit "'k': 'a}b'}").
Proof.
  apply (Closes_string (q := lit "k'") (s := lit ": 'a}b'}")).
  { apply StringTail_char; [discriminate..|apply StringTail_close]. }
  apply Closes_char; [discriminate..|].
  apply Closes_char; [discriminate..|].
  apply (Closes_string (q := lit "a}b'") (s := lit "}")).
  { repeat (apply StringTail_char; [discriminate..|]). apply StringTail_close. }
  apply Closes_last.
Qed.

Lemma example_object : Object (lit "{'k': 'a}b'}").
Proof. exists (lit "'k': 'a}b'}"). split; [reflexivity|exact example_closes]. Qed.

Lemma example_fits : Fits (lit "{'k': 'a}b'}").
Proof. unfold Fits. simpl. lia. Qed.

(** An element whose string value holds an escaped quote followed by a
    brace, after its opening brace. *)
Lemma escaped_example_closes :
  Closes 1 (lit "'k': 'a" ++ [backslash; quote] ++ lit "}b'}").
Proof.
  apply (Closes_string (q := lit "k'")
           (s := lit ": 'a" ++ [backslash; quote] ++ lit "}b'}")).
  { apply StringTail_char; [discriminate..|apply StringTail_close]. }
  apply Closes_char; [discriminate..|].
  apply Closes_char; [discriminate..|].
  apply (Closes_string (q := lit "a" ++ [backslash; quote] ++ lit "}b'")
           (s := lit "}")).
  { apply StringTail_char; [discriminate..|].
    apply StringTail_escape.
    repeat (apply StringTail_char; [discriminate..|]). apply StringTail_close. }
  apply Closes_last.
Qed.

(** The reader goroutine comes to an end on every input, with either
    chunker: no loop of the model runs out of iterations. *)
Lemma readerGo_rdf_returns r : exists rep, readerGo rdfChunker.impl r = Ret rep.
Proof.
  assert (Hchunk : forall r0, exists x, chunk rdfChunker.impl r0 = Ret x).
  { intros r0. cbn [chunk rdfChunker.impl]. unfold rdfChunker.chunk. eauto. }
  unfold readerGo. cbn [begin end_ rdfChunker.impl].
  unfold rdfChunker.begin, rdfChunker.end_.
  destruct (@readerLoop_returns rdfChunker.impl rdf_progress (r, []) Hchunk)
    as [[[r1 ch] [e|]] ->]; cbn [bind]; eauto.
Qed.

Lemma readerGo_json_returns r : exists rep, readerGo jsonChunker.impl r = Ret rep.
Proof.
  unfold readerGo. cbn [begin end_ jsonChunker.impl].
  unfold jsonChunker.begin, jsonChunker.end_.
  destruct (slurpSpace_returns r) as [[[e|] r1] ->]; cbn [bind]; eauto.
  destruct (ReadRune r1) as [[ch [e|]] r2]; eauto.
  destruct (negb (ch =? lbracket)%Z); eauto.
  destruct (@readerLoop_returns jsonChunker.impl json_progress (r2, [])
              json_chunk_returns)
    as [[[r3 ch'] [e|]] ->]; cbn [bind]; eauto.
  destruct (slurpSpace_returns r3) as [[e r4] ->]; cbn [bind].
  destruct (isEOF e); eauto.
Qed.

(** *** Input that ends inside a string literal *)

Lemma slurpQuoted_unterminated q : Unterminated q -> forall sz last fin out,
  exists out',
    slurpQuoted (mkReader q sz last fin) out
    = Ret (Some fin, mkReader [] sz None fin, out').
Proof.
  induction 1 as [| |c s Hs IH|c s Hq Hb Hs IH]; intros sz last fin out;
    rewrite slurpQuoted_unfold; unfold slurpQuotedBody, ReadRune, WriteRune; simpl.
  - eauto.
  - eauto.
  - apply IH.
  - apply Z.eqb_neq in Hq, Hb. rewrite Hq, Hb. apply IH.
Qed.

Lemma depthLoop_opens d d' p :
  Opens d d' p -> forall rest sz last fin out,
  (Z.of_nat d + Z.of_nat (length p) < 2 ^ 63)%Z ->
  (0 < d')%nat /\
  exists last',
    jsonChunker.depthLoop (Z.of_nat d, mkReader (p ++ rest) sz last fin, out)
    = jsonChunker.depthLoop (Z.of_nat d', mkReader rest sz last' fin, out ++ p).
Proof.
  induction 1 as [d|d d' p Hp IH|d d' p Hp IH|d d' q p Hq Hp IH
                 |d d' c p Hl Hr Hq Hp IH];
    intros rest sz last fin out Hbound; cbn [app]; cbn [length] in Hbound.
  - split; [lia|]. exists last. now rewrite app_nil_r.
  - rewrite depthLoop_step by lia.
    change (rbrace =? lbrace)%Z with false.
    change (rbrace =? rbrace)%Z with true. cbv iota.
    rewrite wrapInt_small by lia.
    replace (Z.of_nat (S (S d)) - 1)%Z with (Z.of_nat (S d)) by lia.
    destruct (IH rest sz (Some rbrace) fin (out ++ [rbrace]) ltac:(lia))
      as [Hpos [last' ->]].
    split; [exact Hpos|]. exists last'. now rewrite <- app_assoc.
  - rewrite depthLoop_step by lia.
    change (lbrace =? lbrace)%Z with true. cbv iota.
    rewrite wrapInt_small by lia.
    replace (Z.of_nat (S d) + 1)%Z with (Z.of_nat (S (S d))) by lia.
    destruct (IH rest sz (Some lbrace) fin (out ++ [lbrace]) ltac:(lia))
      as [Hpos [last' ->]].
    split; [exact Hpos|]. exists last'. now rewrite <- app_assoc.
  - rewrite <- app_assoc, depthLoop_string by (assumption || lia).
    rewrite length_app in Hbound.
    destruct (IH rest sz (Some quote) fin (out ++ quote :: q) ltac:(lia))
      as [Hpos [last' ->]].
    split; [exact Hpos|]. exists last'.
    now rewrite <- !app_assoc.
  - rewrite depthLoop_step by lia.
    apply Z.eqb_neq in Hl, Hr, Hq. rewrite Hl, Hr, Hq.
    destruct (IH rest sz (Some c) fin (out ++ [c]) ltac:(lia))
      as [Hpos [last' ->]].
    split; [exact Hpos|]. exists last'. now rewrite <- app_assoc.
Qed.

(** An element cut off inside a string literal: [chunk] returns no buffer
    and the error of the underlying reader as it is. *)
Lemma json_chunk_unterminated ws p d' q sz last fin :
  Spaces ws -> Opens 1 d' p -> Unterminated q ->
  Fits (lbrace :: p ++ quote :: q) ->
  jsonChunker.chunk (mkReader (ws ++ lbrace :: p ++ quote :: q) sz last fin)
  = Ret (None, Some fin, mkReader [] sz None fin).
Proof.
  intros Hws Hp Hq Hfit. unfold jsonChunker.chunk.
  rewrite slurpSpace_skip by auto using IsSpace_lbrace. cbn [bind].
  unfold ReadRune, WriteRune. cbn [pending size srcErr app].
  change (negb (lbrace =? lbrace)%Z) with false. cbv iota.
  unfold Fits in Hfit. cbn [length] in Hfit. rewrite length_app in Hfit.
  change 1%Z with (Z.of_nat 1).
  destruct (depthLoop_opens Hp (quote :: q) sz (Some lbrace) fin [lbrace]
              ltac:(lia)) as [Hpos [last' ->]].
  rewrite depthLoop_step by lia.
  change (quote =? lbrace)%Z with false.
  change (quote =? rbrace)%Z with false.
  change (quote =? quote)%Z with true. cbv iota.
  destruct (slurpQuoted_unterminated Hq sz (Some quote) fin
              (([lbrace] ++ p) ++ [quote])) as [out' ->].
  reflexivity.
Qed.

(** With a stream that ends in [io.EOF] the reader goroutine takes this
    for the end of the input: nothing is sent and no error is raised. *)
Lemma json_unterminated_accepted ws0 ws p d' q sz last :
  Spaces ws0 -> Spaces ws -> Opens 1 d' p -> Unterminated q ->
  Fits (lbrace :: p ++ quote :: q) ->
  readerGo jsonChunker.impl
    (mkReader (ws0 ++ lbracket :: ws ++ lbrace :: p ++ quote :: q) sz last EOF)
  = Ret (mkReport [] None).
Proof.
  intros H0 Hws Hp Hq Hfit.
  unfold readerGo. cbn [begin jsonChunker.impl].
  rewrite json_begin_array by assumption.
  rewrite (readerLoop_unfold json_progress). cbn [chunk jsonChunker.impl].
  rewrite (json_chunk_unterminated sz (Some lbracket) EOF Hws Hp Hq Hfit).
  cbn [isEOF deliver bind]. cbn [end_ jsonChunker.impl].
  now rewrite (json_end_spaces sz None (Forall_nil _ : Spaces [])).
Qed.

(** *** Examples *)

(** A line longer than the read buffer is read whole: [ReadSlice] fills
    the buffer of 16 bytes, [ReadString] gets the rest of the line. *)
Example rdf_long_line :
  fst (fst (ReadSlice longLineExample rdfChunker.newline))
    = lit "<subject> <p> <o"
  /\ snd (fst (ReadSlice longLineExample rdfChunker.newline)) = Some ErrBufferFull
  /\ rdfChunker.chunk longLineExample
     = Ret (Some (pending longLineExample), Some EOF, mkReader [] 16 None EOF).
Proof. repeat split; vm_compute; reflexivity. Qed.

(** An escaped quote does not end the string: the brace after it is still
    inside the string and the element is returned whole. *)
Example json_escaped_quote :
  jsonChunker.chunk
    (NewReader (lit "{'k': 'a" ++ [backslash; quote] ++ lit "}b'}, {}]") EOF)
  = Ret (Some (lit "{'k': 'a" ++ [backslash; quote] ++ lit "}b'}"), None,
         mkReader (lit " {}]") 4096 (Some comma) EOF).
Proof.
  apply (@json_chunk_object []
           (lit "'k': 'a" ++ [backslash; quote] ++ lit "}b'}") [] comma
           (lit " {}]") 4096 None EOF).
  - constructor.
  - exact escaped_example_closes.
  - unfold Fits. vm_compute. reflexivity.
  - constructor.
  - reflexivity.
Qed.

(* ================================================================== *)
(** * The claims *)

(** ** RDF chunker *)

(** C1.  Successive calls of [rdfChunker.chunk] on a stream that ends with
    end-of-file, whatever its bytes and whatever the size of the read
    buffer, return buffers whose concatenation, in call order and with the
    last one returned along with [io.EOF], is the stream itself.  Every
    buffer but the last is made of whole lines and so ends at a newline:
    no boundary between two chunks falls inside a line. *)
Theorem rdf_chunks_reassemble_stream (data : list Z) (sz : nat) :
  exists bufs,
    calls rdfChunker.impl (NewReaderSize data EOF sz)
      = Ret (map Some bufs, Some EOF) /\
    concat bufs = data /\
    Forall (fun b => WholeLines rdfChunker.maxLines b /\ EndsWithNewline b)
           (removelast bufs).
Proof.
  destruct (@rdf_calls _ (NewReaderSize data EOF sz) [] (le_n _) eq_refl)
    as (bufs & Hcalls & _ & Hcat & Hall).
  exists bufs. repeat split; auto.
  eapply Forall_impl; [|exact Hall]. cbv beta.
  intros b Hb. split; [exact Hb|].
  rewrite maxLines_pos in Hb. eapply WholeLines_ends, Hb.
Qed.

(** C8.  A call of [rdfChunker.chunk] on a stream that ends with
    end-of-file returns a buffer holding the bytes it consumed.  Either it
    reports no error and the buffer is exactly 10^5 complete lines, or it
    reports [io.EOF], the stream is exhausted and the buffer holds fewer
    than 10^5 complete lines followed by what there is of a last line
    (possibly nothing at all).  In the second case the iteration of the
    reader loop that made the call sends the buffer on the queue when it is
    not empty and leaves the loop. *)
Theorem rdf_chunk_line_budget (r : Reader) :
  srcErr r = EOF ->
  exists batch err r',
    rdfChunker.chunk r = Ret (Some batch, err, r') /\
    pending r = batch ++ pending r' /\
    ((err = None /\ WholeLines (Z.to_nat 100000) batch /\
      forall ch, readerBody rdfChunker.impl (r, ch) = Ret (inl (r', ch ++ [batch])))
     \/
     (err = Some EOF /\ pending r' = [] /\ PartialChunk (Z.to_nat 100000) batch /\
      forall ch, readerBody rdfChunker.impl (r, ch)
                 = Ret (inr (r', (if (0 <? length batch)%nat
                                  then ch ++ [batch] else ch), None)))).
Proof.
  intros Hsrc.
  destruct (chunkLines_spec rdfChunker.maxLines r [] Hsrc)
    as (got & err & r' & Hc & Hp & _ & _ & Hor).
  cbn [app] in Hc.
  exists got, err, r'. unfold rdfChunker.chunk. rewrite Hc.
  repeat split; auto.
  destruct Hor as [[-> Hw] | (-> & Hnil & Hpc)]; [left|right]; repeat split; auto.
  - intros ch. unfold readerBody. cbn [chunk rdfChunker.impl].
    unfold rdfChunker.chunk. rewrite Hc. cbn [isEOF deliver].
    rewrite maxLines_pos in Hw. inversion Hw as [|k l s Hl Hs]; subst.
    apply Line_length in Hl.
    replace (0 <? length (l ++ s))%nat with true; [reflexivity|].
    symmetry. apply Nat.ltb_lt. rewrite length_app. lia.
  - intros ch. unfold readerBody. cbn [chunk rdfChunker.impl].
    unfold rdfChunker.chunk. rewrite Hc. reflexivity.
Qed.

Lemma rdf_chunk_line_budget_witness :
  srcErr rdfExample = EOF /\
  exists batch err r',
    rdfChunker.chunk rdfExample = Ret (Some batch, err, r') /\
    pending rdfExample = batch ++ pending r'.
Proof.
  split; [reflexivity|].
  destruct (rdf_chunk_line_budget rdfExample eq_refl)
    as (batch & err & r' & H1 & H2 & _).
  exists batch, err, r'. split; assumption.
Defined.

(** ** JSON chunker *)

(** C2.  An array element, possibly after white space, whose text closes
    its opening brace when braces inside string literals are not counted and
    a backslash inside a string takes the next rune with it, followed by
    white space and a comma or a closing bracket: [jsonChunker.chunk]
    returns the whole element as one chunk, with [io.EOF] after a bracket,
    and leaves the reader right after the comma or bracket.  Inside the scan,
    a string literal met at any positive depth is copied whole by
    [slurpQuoted], escaped runes included, and the scan goes on at the same
    depth: a brace inside a string does not end it early. *)
Theorem json_chunk_whole_element ws s ws' c rest sz last fin :
  Spaces ws -> Closes 1 s -> Fits (lbrace :: s) -> Spaces ws' ->
  c = comma \/ c = rbracket ->
  jsonChunker.chunk (mkReader (ws ++ lbrace :: s ++ ws' ++ c :: rest) sz last fin)
  = Ret (Some (lbrace :: s),
         (if (c =? rbracket)%Z then Some EOF else None),
         mkReader rest sz (Some c) fin)
  /\
  forall d q rest' out,
    (0 < d)%Z -> StringTail q ->
    jsonChunker.depthLoop (d, mkReader (quote :: q ++ rest') sz last fin, out)
    = jsonChunker.depthLoop (d, mkReader rest' sz (Some quote) fin,
                             out ++ quote :: q).
Proof.
  intros Hws Hs Hfit Hws' Hc. split.
  - rewrite json_chunk_object; auto; destruct Hc as [-> | ->]; reflexivity.
  - intros d q rest' out Hd Hq. now apply depthLoop_string.
Qed.

Lemma json_chunk_whole_element_witness :
  jsonChunker.chunk (jsonReader "{'k': 'a}b'}]")
  = Ret (Some (lit "{'k': 'a}b'}"), Some EOF, mkReader [] 4096 (Some rbracket) EOF).
Proof.
  exact (proj1 (@json_chunk_whole_element [] (lit "'k': 'a}b'}") [] rbracket []
                  4096 None EOF
                  (Forall_nil _) example_closes example_fits (Forall_nil _)
                  (or_intror eq_refl))).
Defined.

(** C3.  The input [lit "[{'a': 'b"] ends inside a string literal.  The call of
    [jsonChunker.chunk] returns a nil buffer with [io.EOF] itself, not a
    malformed-input error; the reader goroutine takes that for the end of
    the stream, [end] succeeds, nothing is sent and no error is raised. *)
Theorem json_unterminated_string_accepted :
  jsonChunker.chunk (mkReader (lit "{'a': 'b") 4096 (Some lbracket) EOF)
    = Ret (None, Some EOF, mkReader [] 4096 None EOF) /\
  readerGo jsonChunker.impl (jsonReader "[{'a': 'b")
    = Ret (mkReport [] None).
Proof. split; vm_compute; reflexivity. Qed.

(** C9.  An array with no element: after [begin] has consumed the opening
    bracket, the first call of [jsonChunker.chunk] reads the closing bracket
    where an element must start and returns the error
    [expected json map start], which ends the process; the input is not treated as an empty
    stream. *)
Theorem json_empty_array_rejected ws0 ws1 rest sz last fin :
  Spaces ws0 -> Spaces ws1 ->
  let input := ws0 ++ lbracket :: ws1 ++ rbracket :: rest in
  let err := Errorf "expected json map start. Found: %v" rbracket in
  jsonChunker.begin (mkReader input sz last fin)
    = Ret (None, mkReader (ws1 ++ rbracket :: rest) sz (Some lbracket) fin) /\
  jsonChunker.chunk (mkReader (ws1 ++ rbracket :: rest) sz (Some lbracket) fin)
    = Ret (None, Some err, mkReader rest sz (Some rbracket) fin) /\
  readerGo jsonChunker.impl (mkReader input sz last fin)
    = Ret (mkReport [] (Some err)).
Proof.
  intros H0 H1 input err.
  assert (Hb : jsonChunker.begin (mkReader input sz last fin)
               = Ret (None, mkReader (ws1 ++ rbracket :: rest) sz (Some lbracket) fin))
    by now apply json_begin_array.
  assert (Hc : jsonChunker.chunk (mkReader (ws1 ++ rbracket :: rest) sz (Some lbracket) fin)
               = Ret (None, Some err, mkReader rest sz (Some rbracket) fin))
    by (apply json_chunk_no_object; [assumption|reflexivity|discriminate]).
  repeat split; auto.
  unfold readerGo. cbn [begin jsonChunker.impl]. rewrite Hb.
  rewrite (readerLoop_unfold json_progress). cbn [chunk jsonChunker.impl].
  rewrite Hc. reflexivity.
Qed.

Lemma json_empty_array_rejected_witness :
  readerGo jsonChunker.impl (jsonReader "[]")
  = Ret (mkReport [] (Some (Errorf "expected json map start. Found: %v" 93%Z))).
Proof.
  exact (proj2 (proj2 (json_empty_array_rejected (ws0 := []) (ws1 := []) []
                         4096 None EOF (Forall_nil _) (Forall_nil _)))).
Defined.

Ltac lengths H :=
  repeat first [rewrite length_app in H | progress cbn [length] in H].

Lemma slurpSpace_nonspace c rest sz last fin :
  IsSpace c = false ->
  slurpSpace (mkReader (c :: rest) sz last fin)
  = Ret (None, mkReader (c :: rest) sz None fin).
Proof.
  intros Hc. apply (slurpSpace_skip (ws := [])); [constructor | exact Hc].
Qed.






(** C10.  An array cut short right after an element and its comma (and
    any white space): the first call of [jsonChunker.chunk] returns the
    element, the next one finds the end of the input while skipping white
    space and returns an empty buffer with [io.EOF], the reader loop stops,
    [jsonChunker.end] succeeds, and the goroutine ends without error having
    sent the element: the missing closing bracket goes unnoticed. *)
Theorem json_truncated_after_comma ws0 ws1 o ws2 ws3 sz last :
  let input := ws0 ++ lbracket :: ws1 ++ o ++ ws2 ++ comma :: ws3 in
  Spaces ws0 -> Spaces ws1 -> Object o -> Spaces ws2 -> Spaces ws3 ->
  Fits input ->
  exists r0,
    jsonChunker.begin (mkReader input sz last EOF) = Ret (None, r0) /\
    jsonChunker.chunk r0 = Ret (Some o, None, mkReader ws3 sz (Some comma) EOF) /\
    jsonChunker.chunk (mkReader ws3 sz (Some comma) EOF)
      = Ret (Some [], Some EOF, mkReader [] sz None EOF) /\
    jsonChunker.end_ (mkReader [] sz None EOF)
      = Ret (None, mkReader [] sz None EOF) /\
    readerGo jsonChunker.impl (mkReader input sz last EOF)
      = Ret (mkReport [o] None).
Proof.
  intros input H0 H1 Ho H2 H3 Hfit.
  destruct Ho as (s & -> & Hs).
  assert (Hb : jsonChunker.begin (mkReader input sz last EOF)
               = Ret (None, mkReader (ws1 ++ (lbrace :: s) ++ ws2 ++ comma :: ws3)
                                     sz (Some lbracket) EOF))
    by now apply json_begin_array.
  assert (Hc1 : jsonChunker.chunk
                  (mkReader (ws1 ++ (lbrace :: s) ++ ws2 ++ comma :: ws3)
                            sz (Some lbracket) EOF)
                = Ret (Some (lbrace :: s), None, mkReader ws3 sz (Some comma) EOF)).
  { cbn [app]. rewrite json_chunk_object; auto.
    unfold Fits, input in *. lengths Hfit. cbn [length]. lia. }
  pose proof (json_chunk_end sz (Some comma) EOF H3) as Hc2.
  pose proof (json_end_spaces sz None (Forall_nil _ : Spaces [])) as He.
  exists (mkReader (ws1 ++ (lbrace :: s) ++ ws2 ++ comma :: ws3) sz (Some lbracket) EOF).
  repeat split; auto.
  unfold readerGo. cbn [begin jsonChunker.impl]. rewrite Hb.
  rewrite (readerLoop_unfold json_progress). cbn [chunk jsonChunker.impl].
  rewrite Hc1. cbn [isEOF deliver app].
  replace (0 <? length (lbrace :: s))%nat with true
    by (symmetry; now apply Nat.ltb_lt; simpl; lia).
  rewrite (readerLoop_unfold json_progress). cbn [chunk jsonChunker.impl].
  rewrite Hc2. cbn [isEOF deliver bind]. cbn [end_ jsonChunker.impl].
  rewrite He. reflexivity.
Qed.

Lemma json_truncated_after_comma_witness :
  readerGo jsonChunker.impl (jsonReader "[{'k': 'a}b'},")
  = Ret (mkReport [lit "{'k': 'a}b'}"] None).
Proof.
  destruct (@json_truncated_after_comma [] [] (lit "{'k': 'a}b'}") [] []
              4096 None)
    as (r0 & _ & _ & _ & _ & Hgo).
  - constructor.
  - constructor.
  - exact example_object.
  - constructor.
  - constructor.
  - unfold Fits. vm_compute. reflexivity.
  - exact Hgo.
Defined.

(** ** Timestamp bootstrap *)

Lemma timestamp_iter zero n ts :
  (forall i, i < n -> exists e, zero i = Failure e) -> zero n = Reply ts ->
  forall m k log fuel, k + m = n -> m < fuel ->
  iter (timestampBody zero) fuel (k, log)
  = Ret (StartId ts, log ++ retries m ++ [EvTimestamps Second 1%Z]).
Proof.
  intros Hfail Hok. induction m as [|m IH]; intros k log fuel Hk Hfuel;
    (destruct fuel as [|fuel]; [lia|]); cbn [iter timestampBody].
  - replace k with n by lia. rewrite Hok. reflexivity.
  - destruct (Hfail k ltac:(lia)) as [e ->].
    rewrite IH by lia. unfold retries. cbn [repeat concat].
    fold failedAttempt. now rewrite <- !app_assoc.
Qed.

Lemma timestamp_hung zero :
  forall fuel k log,
  (forall i, k <= i < k + fuel -> exists e, zero i = Failure e) ->
  iter (timestampBody zero) fuel (k, log) = OutOfFuel.
Proof.
  induction fuel as [|fuel IH]; intros k log Hfail; [reflexivity|].
  cbn [iter timestampBody].
  destruct (Hfail k ltac:(lia)) as [e ->].
  apply IH. intros i Hi. apply Hfail. lia.
Qed.

Lemma attemptsIn_app t1 t2 : attemptsIn (t1 ++ t2) = attemptsIn t1 + attemptsIn t2.
Proof. unfold attemptsIn. now rewrite filter_app, length_app. Qed.

Lemma attemptsIn_retries n : attemptsIn (retries n) = n.
Proof.
  induction n as [|n IH]; [reflexivity|].
  unfold retries in *. cbn [repeat concat]. rewrite attemptsIn_app, IH. reflexivity.
Qed.

Lemma tbind_Continue (A B : Type) (m : traced A) (k : A -> traced B) t b :
  tbind m k = (t, Continue b) ->
  exists t1 a t2, m = (t1, Continue a) /\ k a = (t2, Continue b) /\ t = t1 ++ t2.
Proof.
  destruct m as [t1 [a|st|]]; cbn [tbind]; try discriminate.
  destruct (k a) as [t2 e] eqn:E. intros [= <- ->]. eauto 6.
Qed.

Ltac tinv H :=
  let t1 := fresh "t" in
  let a := fresh "a" in
  let t2 := fresh "t" in
  let H1 := fresh "H" in
  let Ht := fresh "Ht" in
  apply tbind_Continue in H; destruct H as (t1 & a & t2 & H1 & H & Ht).

(** The steps of [mapStage] leave the write timestamp as [newLoader] set it. *)
Lemma mapStage_keeps_writeTs w ld t ld' :
  mapStage w ld = (t, Continue ld') -> writeTs (st ld') = writeTs (st ld).
Proof.
  unfold mapStage. intros H.
  do 8 tinv H.
  match type of H with
  | context [(length ?l =? 0)%nat] => destruct (length l =? 0)%nat
  end; [discriminate|].
  do 10 tinv H.
  injection H as _ <-. reflexivity.
Qed.

(** No event of [readSchema] or of [mapStage] is a request to the
    authority. *)
Lemma attemptsIn_none t :
  Forall (fun e => isTimestamps e = false) t -> attemptsIn t = 0.
Proof.
  unfold attemptsIn. induction 1 as [|e t He _ IH]; [reflexivity|].
  cbn [filter]. now rewrite He.
Qed.

Lemma tbind_Forall (A B : Type) (P : event -> Prop) (m : traced A) (k : A -> traced B) :
  Forall P (fst m) -> (forall a, Forall P (fst (k a))) ->
  Forall P (fst (tbind m k)).
Proof.
  intros Hm Hk. destruct m as [t [a|s|]]; cbn [tbind fst] in *; auto.
  specialize (Hk a). destruct (k a) as [t' e]. cbn [fst] in *.
  apply Forall_app. now split.
Qed.

Lemma tCheck_no_timestamps err :
  Forall (fun e => isTimestamps e = false) (fst (tCheck err)).
Proof. destruct err; cbn; repeat constructor. Qed.

Lemma readSchema_no_timestamps (Update : Type) (parse : list Z -> Update + error)
    (w : World) (filename : string) :
  Forall (fun e => isTimestamps e = false) (fst (readSchema parse w filename)).
Proof.
  unfold readSchema. apply tbind_Forall; [repeat constructor|]. intros _.
  destruct (open w filename) as [f|e]; [|repeat constructor].
  apply tbind_Forall.
  - destruct (String.eqb (Ext filename) ".gz"); [|constructor].
    apply tbind_Forall; [repeat constructor|]. intros _.
    destruct (gunzip w f); repeat constructor.
  - intros r. destruct (ReadAll r) as [buf [e|]]; [repeat constructor|].
    destruct (parse buf); repeat constructor.
Qed.

Lemma openReaders_no_timestamps w files : forall readers,
  Forall (fun e => isTimestamps e = false) (fst (openReaders w files readers)).
Proof.
  induction files as [|file files IH]; intros readers; cbn [openReaders].
  - constructor.
  - apply tbind_Forall; [repeat constructor|]. intros _.
    destruct (open w file) as [[bytes fin]|e].
    + destruct (negb (HasSuffix file ".gz")); [apply IH|].
      apply tbind_Forall; [repeat constructor|]. intros _.
      destruct (gunzip w (bytes, fin)) as [[plain fin']|e]; [apply IH|].
      apply tbind_Forall; [apply tCheck_no_timestamps | constructor].
    + apply tbind_Forall; [apply tCheck_no_timestamps | constructor].
Qed.

Lemma readSchema_not_hung (Update : Type) (parse : list Z -> Update + error)
    (w : World) (filename : string) :
  snd (readSchema parse w filename) <> Hung.
Proof.
  unfold readSchema. cbn [tbind emit].
  destruct (open w filename) as [f|e]; [|discriminate].
  destruct (String.eqb (Ext filename) ".gz").
  - cbn [tbind emit]. destruct (gunzip w f) as [r|e]; [|discriminate].
    cbn [tret tbind]. destruct (ReadAll r) as [buf [e|]]; [discriminate|].
    destruct (parse buf); discriminate.
  - cbn [tret tbind]. destruct (ReadAll f) as [buf [e|]]; [discriminate|].
    destruct (parse buf); discriminate.
Qed.

Ltac no_timestamps :=
  repeat first
    [ assumption
    | apply Forall_nil
    | apply Forall_cons; [reflexivity|]
    | apply Forall_app; split ].

Lemma mapStage_no_timestamps w ld :
  Forall (fun e => isTimestamps e = false) (fst (mapStage w ld)).
Proof.
  assert (Hmap : forall (A : Type) (f : A -> event) l,
            (forall a, isTimestamps (f a) = false) ->
            Forall (fun e => isTimestamps e = false) (map f l)).
  { intros A f l Hf. apply Forall_forall. intros e He.
    apply in_map_iff in He. destruct He as (a & <- & _). apply Hf. }
  unfold mapStage. cbn [tbind emit].
  destruct (mkdir w _) as [e1|]; cbn [tCheck tret tbind emit app fst];
    [no_timestamps|].
  destruct (badgerOpen w _) as [e2|]; cbn [tCheck tret tbind emit app fst];
    [no_timestamps|].
  unfold findDataFiles. cbn [tbind emit].
  destruct (walkFn _ _ []) as [files err].
  destruct err as [e3|]; cbn [tCheck tret tbind emit app fst]; [no_timestamps|].
  pose proof (openReaders_no_timestamps w files []) as Ht.
  destruct (openReaders w files []) as [topen [readers|status|]];
    cbn [fst snd tbind app] in *; [|no_timestamps..].
  destruct (length readers =? 0)%nat; cbn [fst snd tbind app]; [no_timestamps|].
  cbn [tbind emit emitAll tret app mappers].
  assert (Hgo : Forall (fun e => isTimestamps e = false)
                  (flat_map readerTriple (rangeOrder w readers))).
  { apply Forall_forall. intros e He. apply in_flat_map in He.
    destruct He as (fr & _ & [<-|[<-|[<-|[]]]]); reflexivity. }
  pose proof (Hmap _ EvGoMapper (seq 0 (length (mappers ld))) (fun _ => eq_refl)) as Hm.
  pose proof (Hmap _ EvFileClose (rev files) (fun _ => eq_refl)) as Hc.
  destruct (badgerClose w _) as [e4|];
    cbn [tCheck tret tbind emit emitAll app fst]; no_timestamps.
Qed.

(** C6.  Against an authority whose first [n] answers are failures and
    whose next answer is a reply: as long as no more than [n] attempts are
    looked at, [getWriteTimestamp] has neither returned nor ended the
    process; from [n + 1] attempts on it has returned the start value of
    that reply, after exactly [n + 1] calls, each under a one-second
    timeout, with a log line and a one-second sleep after each failed one
    (for [n = 2]: three calls, the value of the third).  [newLoader], once
    the dial has succeeded, makes this one series of calls and no other
    request, whether it then returns or the schema file makes it end the
    process, and it does return when the schema file is read.  The loader
    it returns holds the value in [writeTs]; [mapStage], the one function
    of [loader.go] that assigns fields of the loader afterwards, makes no
    request to the authority in any file system and leaves [writeTs] as it
    is. *)
Theorem write_timestamp_bootstrap (Update : Type) (parse : list Z -> Update + error)
    (zero : nat -> reply) (n : nat) (ts : AssignedIds) (o : options) (w : World) :
  (forall i, i < n -> exists e, zero i = Failure e) ->
  zero n = Reply ts ->
  (forall attempts, attempts <= n ->
     getWriteTimestamp zero attempts = ([], Hung)) /\
  (forall attempts, n < attempts ->
     getWriteTimestamp zero attempts
       = (retries n ++ [EvTimestamps Second 1%Z], Continue (StartId ts)) /\
     attemptsIn (retries n ++ [EvTimestamps Second 1%Z]) = S n /\
     attemptsIn (fst (newLoader parse None zero attempts w o)) = S n /\
     snd (newLoader parse None zero attempts w o) <> Hung /\
     (forall t u, readSchema parse w (SchemaFile o) = (t, Continue u) ->
        exists trace ld,
          newLoader parse None zero attempts w o = (trace, Continue ld)) /\
     (forall trace ld,
        newLoader parse None zero attempts w o = (trace, Continue ld) ->
        (exists t u, readSchema parse w (SchemaFile o) = (t, Continue u)) /\
        writeTs (st ld) = StartId ts /\
        forall w' t' e',
          mapStage w' ld = (t', e') ->
          attemptsIn t' = 0 /\
          forall ld', e' = Continue ld' -> writeTs (st ld') = StartId ts)).
Proof.
  intros Hfail Hok. split.
  - intros attempts Hle. unfold getWriteTimestamp.
    rewrite timestamp_hung; [reflexivity|].
    intros i Hi. apply Hfail. lia.
  - intros attempts Hlt.
    assert (Hg : getWriteTimestamp zero attempts
                 = (retries n ++ [EvTimestamps Second 1%Z], Continue (StartId ts))).
    { unfold getWriteTimestamp.
      rewrite (@timestamp_iter zero n ts Hfail Hok n 0 [] attempts) by lia.
      reflexivity. }
    assert (Hcount : attemptsIn (retries n ++ [EvTimestamps Second 1%Z]) = S n).
    { rewrite attemptsIn_app, attemptsIn_retries. cbn. lia. }
    split; [exact Hg|]. split; [exact Hcount|].
    pose proof (readSchema_no_timestamps parse w (SchemaFile o)) as Hs.
    pose proof (readSchema_not_hung parse w (SchemaFile o)) as Hnh.
    unfold newLoader. rewrite Hg. cbn [tbind emit tCheck tret app].
    destruct (readSchema parse w (SchemaFile o)) as [tS [u|s|]];
      cbn [fst snd tbind emit tret app] in *.
    + split.
      { change (attemptsIn (?a :: ?b :: ?l)) with (attemptsIn l).
        rewrite !attemptsIn_app, attemptsIn_retries.
        rewrite (attemptsIn_none Hs). cbn. lia. }
      split; [discriminate|]. split; [eauto|].
      intros trace ld [= <- <-]. split; [eauto|]. cbn [st writeTs].
      split; [reflexivity|].
      intros w' t' e' Hm. split.
      * apply attemptsIn_none. pose proof (mapStage_no_timestamps w'
          (mkLoader (mkState o None (StartId ts))
                    (map Some (seq 0 (NumGoroutines o))) None)) as Hn.
        now rewrite Hm in Hn.
      * intros ld' ->. now rewrite (mapStage_keeps_writeTs _ _ Hm).
    + split.
      { change (attemptsIn (?a :: ?b :: ?l)) with (attemptsIn l).
        rewrite !attemptsIn_app, attemptsIn_retries.
        rewrite (attemptsIn_none Hs). cbn. lia. }
      split; [discriminate|]. split; [discriminate|]. discriminate.
    + contradiction.
Qed.

Lemma write_timestamp_bootstrap_witness :
  getWriteTimestamp failsTwice 3
  = (failedAttempt ++ failedAttempt ++ [EvTimestamps Second 1%Z], Continue 42%Z)
  /\ attemptsIn (failedAttempt ++ failedAttempt ++ [EvTimestamps Second 1%Z]) = 3
  /\ attemptsIn (fst (newLoader (fun b : list Z => inl b) None failsTwice 3
                        schemaWorld exampleOptions)) = 3
  /\ exists trace ld,
       newLoader (fun b : list Z => inl b) None failsTwice 3
                 schemaWorld exampleOptions = (trace, Continue ld).
Proof.
  assert (Hfail : forall i, i < 2 -> exists e, failsTwice i = Failure e).
  { intros i Hi. exists ErrRead. unfold failsTwice.
    destruct (Nat.ltb_spec i 2); [reflexivity|lia]. }
  destruct (@write_timestamp_bootstrap (list Z) (fun b => inl b) failsTwice 2
              (mkAssignedIds 42 43) exampleOptions schemaWorld
              Hfail eq_refl) as [_ H].
  destruct (H 3 ltac:(lia)) as (Hg & Hc & Hn & _ & Hret & _).
  split; [exact Hg|]. split; [exact Hc|]. split; [exact Hn|].
  exact (Hret [EvOpen "schema.gz"; EvGzipNewReader "schema.gz";
               EvFileClose "schema.gz"]
              (lit "name: string .") ltac:(vm_compute; reflexivity)).
Defined.

(** ** File discovery *)

Lemma walkFn_no_match ext visits : forall files,
  (forall path err, In (path, err) visits ->
     HasSuffix path ext || HasSuffix path (ext ++ ".gz") = false) ->
  fst (walkFn ext visits files) = files.
Proof.
  induction visits as [|[path [e|]] visits IH]; intros files Hno;
    cbn [walkFn fst]; auto.
  rewrite (Hno path None) by (left; reflexivity).
  apply IH. intros p e Hin. apply (Hno p e). now right.
Qed.

(** A run whose main goroutine has no goroutine to start has none. *)
Lemma steps_no_goroutine c0 c :
  steps c0 c ->
  (forall e, In e (prog c0) -> startsGoroutine e = false) ->
  rds c0 = [] -> mps c0 = [] ->
  (forall e, In e (prog c) -> startsGoroutine e = false) /\
  rds c = [] /\ mps c = [].
Proof.
  induction 1 as [|c1 c2 c3 Hsteps IH Hstep]; intros Hprog Hr Hm; [auto|].
  destruct (IH Hprog Hr Hm) as (Hp2 & Hr2 & Hm2).
  assert (Htail : forall e p, prog c2 = e :: p ->
            forall e', In e' p -> startsGoroutine e' = false).
  { intros e p Hp e' Hin. apply Hp2. rewrite Hp. now right. }
  assert (Hhead : forall e p, prog c2 = e :: p -> startsGoroutine e = false).
  { intros e p Hp. apply Hp2. rewrite Hp. now left. }
  inversion Hstep; subst; cbn [prog rds mps setProg setRds setMps setThr
                               setQueue closeQueue kill];
    try (split; [eauto|split; assumption]);
    try match goal with
        | H : prog c2 = EvGoMapper _ :: _ |- _ => apply Hhead in H; discriminate H
        | H : prog c2 = EvGoReader _ _ :: _ |- _ => apply Hhead in H; discriminate H
        | H : nth_error (rds c2) ?i = Some _ |- _ =>
            rewrite Hr2 in H; destruct i; discriminate H
        | H : nth_error (mps c2) ?i = Some _ |- _ =>
            rewrite Hm2 in H; destruct i; discriminate H
        end.
Qed.

(** C7.  When no path under the input directory ends in the expected
    extension, plain or followed by [.gz], [mapStage] ends the process with
    status 1: its last event is the exit, none of its events starts a
    goroutine, and in no run of the stage is a mapper or reader goroutine
    ever started. *)
Theorem no_input_files_exit (w : World) (ld : loader) :
  let o := opt (st ld) in
  let rdf := negb (String.eqb (RDFDir o) "") in
  let ext := if rdf then ".rdf"%string else ".json"%string in
  let dir := if rdf then RDFDir o else JSONDir o in
  (forall path err, In (path, err) (walk w dir) ->
     HasSuffix path ext || HasSuffix path (ext ++ ".gz") = false) ->
  exists trace,
    mapStage w ld = (trace ++ [EvExit 1%Z], Terminated 1%Z) /\
    (forall e, In e trace -> startsGoroutine e = false) /\
    forall c, steps (initial w ld) c -> rds c = [] /\ mps c = [].
Proof.
  intros o rdf ext dir Hno.
  assert (Hm : exists trace,
            mapStage w ld = (trace ++ [EvExit 1%Z], Terminated 1%Z) /\
            (forall e, In e trace -> startsGoroutine e = false)).
  { unfold mapStage. fold o. fold rdf. fold ext. fold dir.
    cbn [tbind emit].
    destruct (mkdir w (TmpDir o ++ "/xids")) as [e1|]; cbn [tCheck tret tbind emit app].
    { eexists [_; _; _]. split; [reflexivity|].
      intros e [<-|[<-|[<-|[]]]]; reflexivity. }
    destruct (badgerOpen w (TmpDir o ++ "/xids")) as [e2|];
      cbn [tCheck tret tbind emit app].
    { eexists [_; _; _; _]. split; [reflexivity|].
      intros e [<-|[<-|[<-|[<-|[]]]]]; reflexivity. }
    unfold findDataFiles. cbn [tbind emit].
    pose proof (walkFn_no_match ext (walk w dir) [] Hno) as Hfiles.
    destruct (walkFn ext (walk w dir) []) as [files err].
    cbn [fst] in Hfiles. subst files.
    destruct err as [e3|]; cbn [tCheck tret tbind emit app openReaders length Nat.eqb].
    { eexists [_; _; _; _; _; _]. split; [reflexivity|].
      intros e [<-|[<-|[<-|[<-|[<-|[<-|[]]]]]]]; reflexivity. }
    eexists [_; _; _; _; _; _]. split; [reflexivity|].
    intros e [<-|[<-|[<-|[<-|[<-|[<-|[]]]]]]]; reflexivity. }
  destruct Hm as (trace & Hm & Hgo).
  exists trace. repeat split; auto;
    destruct (@steps_no_goroutine (initial w ld) c) as (_ & Hr & Hmp); auto;
    unfold initial; cbn [prog]; rewrite Hm; cbn [fst];
    intros e Hin; apply in_app_or in Hin; destruct Hin as [Hin|[<-|[]]]; auto.
Qed.

Lemma no_input_files_exit_witness :
  exists trace,
    mapStage emptyWorld exampleLoader = (trace ++ [EvExit 1%Z], Terminated 1%Z) /\
    (forall e, In e trace -> startsGoroutine e = false).
Proof.
  destruct (@no_input_files_exit emptyWorld exampleLoader) as (trace & Hm & Hgo & _).
  - intros path err [[= <- <-]|[[= <- <-]|[]]]; reflexivity.
  - exists trace. split; assumption.
Defined.

(** ** The completion protocol *)

Lemma running_app l x :
  running (l ++ [x]) = running l + (if isDone (snd x) then 0 else 1).
Proof.
  unfold running. rewrite filter_app, length_app. cbn [filter].
  destruct (isDone (snd x)); reflexivity.
Qed.

Lemma running_update l : forall i ck s x,
  nth_error l i = Some (ck, s) ->
  running (update l i x) + (if isDone s then 0 else 1)
  = running l + (if isDone (snd x) then 0 else 1).
Proof.
  unfold running.
  induction l as [|y l IH]; intros [|i] ck s x H; try discriminate.
  - injection H as ->. cbn [update filter snd].
    destruct (isDone s), (isDone (snd x)); cbn [negb length]; lia.
  - cbn [nth_error] in H. specialize (IH i ck s x H).
    cbn [update filter]. destruct (negb (isDone (snd y))); cbn [length]; lia.
Qed.

Lemma running_zero l : forall i ck s,
  running l = 0 -> nth_error l i = Some (ck, s) -> s = RDone.
Proof.
  unfold running.
  induction l as [|y l IH]; intros [|i] ck s H0 H; try discriminate.
  - injection H as ->. cbn [filter snd] in H0.
    destruct s; cbn [isDone negb length] in H0; try discriminate. reflexivity.
  - cbn [nth_error] in H. cbn [filter] in H0.
    destruct (negb (isDone (snd y))); [discriminate|]. eauto.
Qed.

Lemma readerStep_not_done ck s s' :
  readerStep ck s = Some (inl s') -> isDone s = false /\ isDone s' = false.
Proof.
  destruct s; cbn [readerStep]; try discriminate.
  - destruct (begin ck r) as [[[e|] r0]|e|]; intros [= <-]; auto.
  - destruct (chunk ck r) as [[[[b|] err] r1]|e|]; try discriminate.
    + destruct (0 <? length b); intros [= <-]; auto.
    + intros [= <-]; auto.
  - destruct (isEOF err); [intros [= <-]; auto|].
    destruct err; [discriminate|]. intros [= <-]; auto.
  - destruct (end_ ck r) as [[[e|] r0]|e|]; intros [= <-]; auto.
Qed.

Lemma Forall_update (A : Type) (P : A -> Prop) l : forall i x,
  Forall P l -> P x -> Forall P (update l i x).
Proof.
  induction l as [|y l IH]; intros [|i] x Hl Hx; cbn [update]; auto;
    inversion Hl; subst; constructor; auto.
Qed.

Lemma mapperRun_open q m q' : mapperRun q false = Some (m, q') -> m = MRunning.
Proof. destruct q; cbn [mapperRun]; [discriminate|]. now intros [= <-]. Qed.

Lemma ThrottleStart_Some t t' :
  ThrottleStart t = Some t' -> inflight t' = S (inflight t).
Proof.
  unfold ThrottleStart. destruct (inflight t <? ceiling t); [|discriminate].
  now intros [= <-].
Qed.

Lemma ThrottleWait_Some t u : ThrottleWait t = Some u -> inflight t = 0.
Proof.
  unfold ThrottleWait. destruct (Nat.eqb_spec (inflight t) 0); [auto|discriminate].
Qed.

Ltac fields :=
  cbn [prog loaderType rds mps thr capacity queue closed closes joined alive
       setProg setRds setMps setThr setQueue closeQueue join kill
       inflight ceiling ThrottleDone] in *.

(** Steps of the reader and mapper goroutines keep [Inv]: the counting of
    readers in flight and the state of the mappers before the close. *)
Lemma Inv_goroutines c rds' mps' thr' q' :
  Inv c ->
  running rds' + inflight (thr c) = running (rds c) + inflight thr' ->
  inflight thr' <= inflight (thr c) ->
  (rds c = [] -> rds' = []) ->
  (mps c = [] -> mps' = []) ->
  (closed c = false -> Forall (fun m => m = MRunning) (mps c) ->
     Forall (fun m => m = MRunning) mps') ->
  Inv (mkConfig (prog c) (loaderType c) rds' mps' thr' (capacity c) q'
                (closed c) (closes c) (joined c) (alive c)).
Proof.
  intros Hinv Hrun Hle Hr Hm Hmr.
  destruct Hinv.
  - apply Inv_setup; fields; auto.
  - eapply Inv_spawning; fields; eauto. lia.
  - eapply Inv_waited; fields; eauto; lia.
  - eapply Inv_closed; fields; eauto; lia.
  - eapply Inv_joined; fields; eauto; lia.
Qed.

Lemma Paired_le sp : Paired sp -> starts sp <= spawns sp.
Proof. destruct sp; cbn [Paired]; [reflexivity | tauto]. Qed.

Lemma Inv_running_le c : Inv c -> running (rds c) <= inflight (thr c).
Proof.
  destruct 1 as [c Hp Hex Hr|c sp rest Hp Hsp Hpair Hrest Hbal|c rest Hp Hrest Hi Hrun
                |c rest Hp Hrest Hi Hrun|c Hp Hi Hrun].
  - rewrite Hr. cbn. lia.
  - apply Paired_le in Hpair. lia.
  - lia.
  - lia.
  - lia.
Qed.

Lemma Inv_kill c : Inv c -> Inv (kill c).
Proof.
  destruct 1.
  - apply Inv_setup; fields; auto. discriminate.
  - eapply Inv_spawning; fields; eauto.
  - eapply Inv_waited; fields; eauto.
  - eapply Inv_closed; fields; eauto.
  - eapply Inv_joined; fields; eauto.
Qed.

Lemma starts_cons e p : starts (e :: p) = (if isStart e then 1 else 0) + starts p.
Proof. unfold starts. cbn [filter]. destruct (isStart e); reflexivity. Qed.

Lemma spawns_cons e p : spawns (e :: p) = (if isSpawn e then 1 else 0) + spawns p.
Proof. unfold spawns. cbn [filter]. destruct (isSpawn e); reflexivity. Qed.

(** From the head of the program, which part of the stage a run is in. *)
Lemma prog_head_spawning e p sp rest :
  e :: p = sp ++ EvThrWait :: EvCloseChunkCh :: EvMapperWgWait :: rest ->
  Forall (fun e => spawnEv e = true) sp ->
  (sp = [] /\ e = EvThrWait /\ p = EvCloseChunkCh :: EvMapperWgWait :: rest) \/
  (exists sp', sp = e :: sp' /\ spawnEv e = true /\
     p = sp' ++ EvThrWait :: EvCloseChunkCh :: EvMapperWgWait :: rest /\
     Forall (fun e => spawnEv e = true) sp').
Proof.
  destruct sp as [|e' sp']; cbn [app]; intros [= -> ->] Hall.
  - left. auto.
  - right. inversion Hall; subst. eauto 6.
Qed.

Lemma isLocal_quiet e : isLocal e = true -> isStart e = false /\ isSpawn e = false.
Proof. destruct e; cbn; auto; discriminate. Qed.

Ltac inv_cases Hinv Hp :=
  destruct Hinv as
    [? Hpr Hex Hr Hm Hc Hn Hj|? sp rest Hpr Hsp Hpair Hrest Hbal Hmr Hc Hn Hj
    |? rest Hpr Hrest Hi Hrun Hmr Hc Hn Hj
    |? rest Hpr Hrest Hi Hrun Hc Hn Hj|? Hpr Hi Hrun Hc Hn Hj];
  rewrite Hp in Hpr.

(** Every step keeps [Inv]. *)
Lemma step_Inv c c' : Inv c -> step c c' -> Inv c'.
Proof.
  intros Hinv Hstep.
  pose proof (Inv_running_le Hinv) as Hle.
  destruct Hstep as
    [c e p Ha Hp Hl | c s p Ha Hp | c i p Ha Hp | c p t Ha Hp Ht
    | c f r p ck Ha Hp Hck | c f r p Ha Hp Hck | c p Ha Hp Hw | c p Ha Hp
    | c p Ha Hp Hall | c i ck s s' Ha Hn Hs | c i ck s e Ha Hn Hs
    | c i ck b err r Ha Hn Hcl Hq | c i ck b err r Ha Hn Hcl
    | c i ck Ha Hn | c j m q Ha Hn Hm].
  15: { (* a mapper takes a chunk or returns *)
    apply (@Inv_goroutines c (rds c) (update (mps c) j m) (thr c) q Hinv); auto.
    - intros Hnil. rewrite Hnil in Hn. destruct j; discriminate.
    - intros Hcl Hall. rewrite Hcl in Hm. apply mapperRun_open in Hm. subst m.
      now apply Forall_update. }
  14: { (* a reader runs its deferred thr.Done() *)
    pose proof (running_update (rds c) i (ck, RDone) Hn) as Hupd.
    cbn [isDone snd] in Hupd.
    apply (@Inv_goroutines c (update (rds c) i (ck, RDone)) (mps c)
             (ThrottleDone (thr c)) (queue c) Hinv); fields; auto; try lia.
    intros Hnil. rewrite Hnil in Hn. destruct i; discriminate. }
  13: { now apply Inv_kill. }
  12: { (* a reader sends a chunk *)
    pose proof (running_update (rds c) i (ck, RBranch err r) Hn) as Hupd.
    cbn [isDone snd] in Hupd.
    apply (@Inv_goroutines c (update (rds c) i (ck, RBranch err r))
             (mps c) (thr c) (queue c ++ [b]) Hinv); auto; try lia.
    intros Hnil. rewrite Hnil in Hn. destruct i; discriminate. }
  11: { now apply Inv_kill. }
  10: { (* a reader moves on by itself *)
    destruct (readerStep_not_done _ _ Hs) as [Hd Hd'].
    pose proof (running_update (rds c) i (ck, s') Hn) as Hupd.
    cbn [snd] in Hupd. rewrite Hd, Hd' in Hupd.
    apply (@Inv_goroutines c (update (rds c) i (ck, s'))
             (mps c) (thr c) (queue c) Hinv); auto; try lia.
    intros Hnil. rewrite Hnil in Hn. destruct i; discriminate. }
  6: { now apply Inv_kill. }
  - (* an event of the main goroutine alone *)
    inv_cases Hinv Hp.
    + inversion Hpr; subst. apply Inv_setup; fields; auto.
      intros Hal. destruct (Hex Hal) as [s Hs]. rewrite Hp in Hs.
      destruct Hs as [Heq|Hs]; [subst e; discriminate Hl|eauto].
    + destruct (@prog_head_spawning _ _ _ _ Hpr Hsp)
        as [(-> & -> & ->) | (sp' & -> & Hev & -> & Hsp')]; [discriminate Hl|].
      destruct (@isLocal_quiet _ Hl) as [Hs1 Hs2].
      rewrite starts_cons, spawns_cons, Hs1, Hs2 in Hbal.
      eapply Inv_spawning; fields; eauto. apply Hpair.
    + injection Hpr as -> ->. discriminate Hl.
    + injection Hpr as -> ->. discriminate Hl.
    + inversion Hpr; subst. apply Inv_joined; fields; auto.
  - (* os.Exit *)
    inv_cases Hinv Hp.
    + inversion Hpr; subst. apply Inv_setup; fields; auto. discriminate.
    + destruct (@prog_head_spawning _ _ _ _ Hpr Hsp)
        as [(_ & [=] & _) | (sp' & -> & Hev & -> & Hsp')]. discriminate Hev.
    + discriminate Hpr.
    + discriminate Hpr.
    + inversion Hpr; subst. apply Inv_joined; fields; auto.
  - (* go mapper *)
    inv_cases Hinv Hp.
    + inversion Hpr as [|? ? Hhd]; subst. discriminate Hhd.
    + destruct (@prog_head_spawning _ _ _ _ Hpr Hsp)
        as [(_ & [=] & _) | (sp' & -> & Hev & -> & Hsp')].
      rewrite starts_cons, spawns_cons in Hbal. cbn [isStart isSpawn] in Hbal.
      eapply Inv_spawning; fields; eauto; [apply Hpair|].
      apply Forall_app. split; [assumption|]. constructor; [reflexivity|constructor].
    + discriminate Hpr.
    + discriminate Hpr.
    + inversion Hpr as [|? ? Hhd]; subst. discriminate Hhd.
  - (* thr.Start() *)
    apply ThrottleStart_Some in Ht.
    inv_cases Hinv Hp.
    + inversion Hpr as [|? ? Hhd]; subst. discriminate Hhd.
    + destruct (@prog_head_spawning _ _ _ _ Hpr Hsp)
        as [(_ & [=] & _) | (sp' & -> & Hev & -> & Hsp')].
      rewrite starts_cons, spawns_cons in Hbal. cbn [isStart isSpawn] in Hbal.
      eapply Inv_spawning; fields; eauto; [apply Hpair|lia].
    + discriminate Hpr.
    + discriminate Hpr.
    + inversion Hpr as [|? ? Hhd]; subst. discriminate Hhd.
  - (* go reader *)
    inv_cases Hinv Hp.
    + inversion Hpr as [|? ? Hhd]; subst. discriminate Hhd.
    + destruct (@prog_head_spawning _ _ _ _ Hpr Hsp)
        as [(_ & [=] & _) | (sp' & -> & Hev & -> & Hsp')].
      rewrite starts_cons, spawns_cons in Hbal. cbn [isStart isSpawn] in Hbal.
      eapply Inv_spawning; fields; eauto; [apply Hpair|].
      rewrite running_app. cbn [snd isDone]. lia.
    + discriminate Hpr.
    + discriminate Hpr.
    + inversion Hpr as [|? ? Hhd]; subst. discriminate Hhd.
  - (* thr.Wait() returns *)
    apply ThrottleWait_Some in Hw.
    inv_cases Hinv Hp.
    + inversion Hpr as [|? ? Hhd]; subst. discriminate Hhd.
    + destruct (@prog_head_spawning _ _ _ _ Hpr Hsp)
        as [(-> & _ & ->) | (sp' & -> & Hev & -> & Hsp')]; [|discriminate Hev].
      cbn in Hbal. eapply Inv_waited; fields; eauto. lia.
    + discriminate Hpr.
    + discriminate Hpr.
    + inversion Hpr as [|? ? Hhd]; subst. discriminate Hhd.
  - (* close(ld.readerChunkCh) *)
    inv_cases Hinv Hp.
    + inversion Hpr as [|? ? Hhd]; subst. discriminate Hhd.
    + destruct (@prog_head_spawning _ _ _ _ Hpr Hsp)
        as [(_ & [=] & _) | (sp' & -> & Hev & -> & Hsp')]. discriminate Hev.
    + injection Hpr as ->. eapply Inv_closed; fields; eauto;
        try rewrite Hn; auto.
    + discriminate Hpr.
    + inversion Hpr as [|? ? Hhd]; subst. discriminate Hhd.
  - (* mapperWg.Wait() returns *)
    inv_cases Hinv Hp.
    + inversion Hpr as [|? ? Hhd]; subst. discriminate Hhd.
    + destruct (@prog_head_spawning _ _ _ _ Hpr Hsp)
        as [(_ & [=] & _) | (sp' & -> & Hev & -> & Hsp')]. discriminate Hev.
    + discriminate Hpr.
    + injection Hpr as ->. apply Inv_joined; fields; auto.
    + inversion Hpr as [|? ? Hhd]; subst. discriminate Hhd.
Qed.

Lemma steps_Inv c0 c : steps c0 c -> Inv c0 -> Inv c.
Proof. induction 1; eauto using step_Inv. Qed.

(** *** The program of mapStage *)

Lemma isLocal_tailEv e : isLocal e = true -> tailEv e = true.
Proof. destruct e; cbn; auto. Qed.

Lemma isLocal_spawnEv e : isLocal e = true -> spawnEv e = true.
Proof. destruct e; cbn; auto. Qed.

Lemma openReaders_trace w files : forall readers,
  match snd (openReaders w files readers) with
  | Continue _ => Forall (fun e => isLocal e = true) (fst (openReaders w files readers))
  | _ => Forall (fun e => tailEv e = true) (fst (openReaders w files readers))
         /\ In (EvExit 1%Z) (fst (openReaders w files readers))
  end.
Proof.
  induction files as [|file files IH]; intros readers; cbn [openReaders].
  - cbn. constructor.
  - cbn [tbind emit].
    destruct (open w file) as [[bytes fin]|e].
    + destruct (negb (HasSuffix file ".gz")).
      * specialize (IH (setReader readers file (NewReaderSize bytes fin (2 ^ 20)))).
        destruct (openReaders w files _) as [t [rs|status|]]; cbn [fst snd app] in *.
        -- constructor; auto.
        -- destruct IH. split; [constructor; auto|now right].
        -- destruct IH. split; [constructor; auto|now right].
      * cbn [tbind emit].
        destruct (gunzip w (bytes, fin)) as [[plain fin']|e].
        -- specialize (IH (setReader readers file (NewReader plain fin'))).
           destruct (openReaders w files _) as [t [rs|status|]]; cbn [fst snd app] in *.
           ++ repeat constructor; auto.
           ++ destruct IH. split; [repeat constructor; auto|now right; right].
           ++ destruct IH. split; [repeat constructor; auto|now right; right].
        -- cbn. split; [repeat constructor|auto].
    + cbn. split; [repeat constructor|auto].
Qed.

Ltac in_exit :=
  cbn [In app fst];
  repeat first [assumption | left; reflexivity | apply in_or_app | right].

(** The trace of [mapStage]: either it ends in an exit before any goroutine
    is started, or it starts the mappers, then the readers one
    [thr.Start()] at a time, and goes on with [thr.Wait()], the close of the
    queue and [mapperWg.Wait()], in this order. *)
Lemma mapStage_trace w ld :
  (Forall (fun e => tailEv e = true) (fst (mapStage w ld)) /\
   In (EvExit 1%Z) (fst (mapStage w ld))) \/
  exists pre readers rest,
    fst (mapStage w ld)
      = pre ++ map EvGoMapper (seq 0 (length (mappers ld)))
            ++ flat_map readerTriple readers
            ++ EvThrWait :: EvCloseChunkCh :: EvMapperWgWait :: rest /\
    Forall (fun e => isLocal e = true) pre /\
    Forall (fun e => tailEv e = true) rest.
Proof.
  unfold mapStage. cbn [tbind emit].
  destruct (mkdir w (TmpDir (opt (st ld)) ++ "/xids")) as [e1|];
    cbn [tCheck tret tbind emit app].
  { left. split; [repeat constructor|in_exit]. }
  destruct (badgerOpen w (TmpDir (opt (st ld)) ++ "/xids")) as [e2|];
    cbn [tCheck tret tbind emit app].
  { left. split; [repeat constructor|in_exit]. }
  unfold findDataFiles. cbn [tbind emit].
  destruct (walkFn _ _ []) as [files err].
  destruct err as [e3|]; cbn [tCheck tret tbind emit app].
  { left. split; [repeat constructor|in_exit]. }
  pose proof (openReaders_trace w files []) as Ht.
  destruct (openReaders w files []) as [topen [readers|status|]];
    cbn [fst snd tbind app] in *.
  2,3: left; destruct Ht; split; [repeat constructor; assumption|in_exit].
  destruct (length readers =? 0)%nat; cbn [fst snd tbind app].
  { left. split.
    - repeat constructor. apply Forall_app. split.
      + eapply Forall_impl; [|exact Ht]. apply isLocal_tailEv.
      + repeat constructor.
    - in_exit. }
  right. cbn [tbind emit emitAll tret app mappers].
  destruct (badgerClose w (TmpDir (opt (st ld)) ++ "/xids")) as [e4|];
    cbn [tCheck tret tbind emit emitAll app fst].
  - exists ([EvSetPhase "mapPhase"; EvMkdir (TmpDir (opt (st ld)) ++ "/xids");
             EvBadgerOpen (TmpDir (opt (st ld)) ++ "/xids"); EvXidmapNew;
             EvWalk (if negb (RDFDir (opt (st ld)) =? "")%string
                     then RDFDir (opt (st ld)) else JSONDir (opt (st ld)))]
              ++ topen),
           (rangeOrder w readers), [EvEvictAll; EvXidDBClose; EvLogFatal e4; EvExit 1%Z].
    split; [|split].
    + reflexivity.
    + repeat constructor. exact Ht.
    + repeat constructor.
  - exists ([EvSetPhase "mapPhase"; EvMkdir (TmpDir (opt (st ld)) ++ "/xids");
             EvBadgerOpen (TmpDir (opt (st ld)) ++ "/xids"); EvXidmapNew;
             EvWalk (if negb (RDFDir (opt (st ld)) =? "")%string
                     then RDFDir (opt (st ld)) else JSONDir (opt (st ld)))]
              ++ topen),
           (rangeOrder w readers),
           ([EvEvictAll; EvXidDBClose; EvGC] ++ map EvFileClose (rev files)).
    split; [|split].
    + cbn [app]. rewrite ?app_nil_r. reflexivity.
    + repeat constructor. exact Ht.
    + repeat constructor. apply Forall_forall. intros e He.
      apply in_map_iff in He. destruct He as (f & <- & _). reflexivity.
Qed.

Lemma starts_app l p : starts (l ++ p) = starts l + starts p.
Proof. unfold starts. now rewrite filter_app, length_app. Qed.

Lemma spawns_app l p : spawns (l ++ p) = spawns l + spawns p.
Proof. unfold spawns. now rewrite filter_app, length_app. Qed.

Lemma quiet_counts l : Forall quiet l -> starts l = 0 /\ spawns l = 0.
Proof.
  induction 1 as [|e l [H1 H2] Hl [IH1 IH2]]; [auto|].
  rewrite starts_cons, spawns_cons, H1, H2. auto.
Qed.

Lemma Paired_quiet_app l p : Forall quiet l -> Paired p -> Paired (l ++ p).
Proof.
  induction 1 as [|e l [H1 H2] Hl IH]; intros Hp; [exact Hp|].
  cbn [app Paired]. split; [|auto].
  rewrite starts_cons, spawns_cons, H1, H2.
  apply Paired_le. auto.
Qed.

Lemma triples_counts rs :
  starts (flat_map readerTriple rs) = length rs /\
  spawns (flat_map readerTriple rs) = length rs.
Proof.
  induction rs as [|r rs [IH1 IH2]]; [auto|].
  cbn [flat_map]. rewrite starts_app, spawns_app, IH1, IH2. auto.
Qed.

Lemma Paired_triples rs : Paired (flat_map readerTriple rs).
Proof.
  induction rs as [|r rs IH]; [exact I|].
  pose proof (Paired_le _ IH) as Hle.
  cbn [flat_map readerTriple app Paired].
  rewrite !starts_cons, !spawns_cons. cbn [isStart isSpawn].
  repeat split; auto; lia.
Qed.

(** [mapStage] starts in a state of [Inv]. *)
Lemma Inv_initial w ld : Inv (initial w ld).
Proof.
  destruct (mapStage_trace w ld) as [[Ht Hex] | (pre & rs & rest & Ht & Hpre & Hrest)].
  - apply Inv_setup; unfold initial; fields; eauto.
  - assert (Hq : Forall quiet (pre ++ map EvGoMapper (seq 0 (length (mappers ld))))).
    { apply Forall_app. split.
      - eapply Forall_impl; [|exact Hpre]. intros e He. now apply isLocal_quiet.
      - apply Forall_forall. intros e He. apply in_map_iff in He.
        destruct He as (i & <- & _). split; reflexivity. }
    apply (@Inv_spawning (initial w ld)
             ((pre ++ map EvGoMapper (seq 0 (length (mappers ld))))
                ++ flat_map readerTriple rs) rest);
      unfold initial; fields; auto.
    + rewrite Ht, <- !app_assoc. reflexivity.
    + rewrite !Forall_app. repeat split.
      * eapply Forall_impl; [|exact Hpre]. intros e He. now apply isLocal_spawnEv.
      * apply Forall_forall. intros e He. apply in_map_iff in He.
        destruct He as (i & <- & _). reflexivity.
      * apply Forall_forall. intros e He. apply in_flat_map in He.
        destruct He as (r & _ & [<-|[<-|[<-|[]]]]); reflexivity.
    + apply Paired_quiet_app; [exact Hq | apply Paired_triples].
    + rewrite starts_app, spawns_app.
      destruct (quiet_counts Hq) as [-> ->].
      destruct (triples_counts rs) as [-> ->]. reflexivity.
Qed.

(** *** A complete run *)

Lemma steps_head c1 c2 c3 : step c1 c2 -> steps c2 c3 -> steps c1 c3.
Proof.
  intros H12 H23. induction H23 as [c|c2 c3 c4 H23 IH H34].
  - eapply steps_more; [apply steps_refl|exact H12].
  - eapply steps_more; [apply IH; exact H12|exact H34].
Qed.

Ltac norm :=
  cbv beta iota delta
      [prog loaderType rds mps thr capacity queue closed closes joined alive
       setProg setRds setMps setThr setQueue closeQueue join kill update app
       andb negb ThrottleDone inflight ceiling Nat.sub].

Ltac main_step :=
  norm; eapply steps_head;
  [ first
      [ eapply step_local; [reflexivity | reflexivity | reflexivity]
      | eapply step_go_mapper; [reflexivity | reflexivity]
      | eapply step_thr_start; [reflexivity | reflexivity | reflexivity]
      | eapply step_go_reader; [reflexivity | reflexivity | reflexivity]
      | eapply step_thr_wait; [reflexivity | reflexivity | reflexivity]
      | eapply step_close; [reflexivity | reflexivity]
      | eapply step_mapper_wait; [reflexivity | reflexivity | repeat constructor] ]
  | ].

Ltac reader_step i :=
  norm; eapply steps_head;
  [ first
      [ eapply (@step_reader _ i); [reflexivity | reflexivity | lazy; reflexivity]
      | eapply (@step_reader_send _ i);
          [reflexivity | reflexivity | reflexivity | cbn; lia]
      | eapply (@step_reader_done _ i); [reflexivity | reflexivity] ]
  | ].

Ltac mapper_step j :=
  norm; eapply steps_head;
  [ eapply (@step_mapper _ j); [reflexivity | reflexivity | reflexivity]
  | ].

(** One run of the stage on one file with one mapper: the main goroutine
    sets up and starts the mapper and the reader; the reader goes through
    [begin], one [chunk] that comes with [io.EOF], the send, [end] and
    [thr.Done()]; [thr.Wait()] returns; the mapper takes the chunk; the
    queue is closed; the mapper returns; [mapperWg.Wait()] returns and the
    stage is torn down. *)
Lemma example_run : steps (initial exampleWorld exampleLoader) exampleFinal.
Proof.
  unfold initial.
  set (p0 := fst (mapStage exampleWorld exampleLoader)).
  vm_compute in p0. subst p0.
  cbn [opt st exampleLoader RDFDir NumGoroutines String.eqb negb NewThrottle].
  do 11 main_step.
  do 6 reader_step 0.
  main_step. mapper_step 0. main_step. mapper_step 0.
  do 5 main_step. norm.
  apply steps_refl.
Qed.

Lemma running_zero_Forall l :
  running l = 0 -> Forall (fun r => snd r = RDone) l.
Proof.
  intros H. apply Forall_forall. intros [ck s] Hin.
  apply In_nth_error in Hin. destruct Hin as [i Hi].
  cbn [snd]. eapply running_zero; eauto.
Qed.

Lemma tailEv_after_close e :
  tailEv e = true ->
  isStart e = false /\ isSpawn e = false /\ e <> EvCloseChunkCh.
Proof. destruct e; cbn; intros H; repeat split; try discriminate; auto. Qed.

(** C5.  In every run of the map stage, whatever the interleaving of the
    goroutines: the queue is never closed twice; once it is closed, every
    reader goroutine that was started has run to its end (the call of the
    chunker's [end] and the deferred [thr.Done()] included), the throttle
    holds no reader in flight, and the main goroutine has no reader left to
    start and no further close to make; [mapperWg.Wait()] has returned only
    if the queue is closed; a mapper worker has returned only if the queue
    is closed; and when the main goroutine has gone through all of
    [mapStage] with the process alive, the queue has been closed exactly
    once and the mapper pool joined. *)
Theorem queue_closed_once_after_readers (w : World) (ld : loader) (c : config) :
  steps (initial w ld) c ->
  closes c <= 1 /\
  (closed c = true <-> closes c = 1) /\
  (closed c = true ->
     Forall (fun r => snd r = RDone) (rds c) /\
     inflight (thr c) = 0 /\
     forall e, In e (prog c) ->
       isStart e = false /\ isSpawn e = false /\ e <> EvCloseChunkCh) /\
  (joined c = true -> closed c = true) /\
  (forall j, nth_error (mps c) j = Some MDone -> closed c = true) /\
  (alive c = true -> prog c = [] -> closes c = 1 /\ joined c = true).
Proof.
  intros Hsteps.
  pose proof (steps_Inv Hsteps (Inv_initial w ld)) as Hinv.
  destruct Hinv as
    [c Hpr Hex Hr Hm Hc Hn Hj|c sp rest Hpr Hsp Hpair Hrest Hbal Hmr Hc Hn Hj
    |c rest Hpr Hrest Hi Hrun Hmr Hc Hn Hj
    |c rest Hpr Hrest Hi Hrun Hc Hn Hj|c Hpr Hi Hrun Hc Hn Hj].
  - rewrite Hc, Hn, Hj, Hm. repeat split; try lia; try discriminate.
    + intros j H. destruct j; discriminate H.
    + destruct (Hex H) as [s Hs]. rewrite H0 in Hs. destruct Hs.
    + destruct (Hex H) as [s Hs]. rewrite H0 in Hs. destruct Hs.
  - rewrite Hc, Hn, Hj, Hpr. repeat split; try lia; try discriminate.
    + intros j H. eapply Forall_forall in Hmr; [|eapply nth_error_In, H].
      discriminate Hmr.
    + destruct sp; discriminate H0.
    + destruct sp; discriminate H0.
  - rewrite Hc, Hn, Hj, Hpr. repeat split; try lia; try discriminate.
    intros j H. eapply Forall_forall in Hmr; [|eapply nth_error_In, H].
    discriminate Hmr.
  - rewrite Hc, Hn, Hj, Hpr, Hi. repeat split; try lia; try discriminate; auto.
    + now apply running_zero_Forall.
    + destruct H0 as [<-|H0]; [reflexivity|].
      eapply Forall_forall in Hrest; [|exact H0]. now apply tailEv_after_close.
    + destruct H0 as [<-|H0]; [reflexivity|].
      eapply Forall_forall in Hrest; [|exact H0]. now apply tailEv_after_close.
    + destruct H0 as [<-|H0]; [discriminate|].
      eapply Forall_forall in Hrest; [|exact H0]. now apply tailEv_after_close.
  - rewrite Hc, Hn, Hj, Hi. repeat split; try lia; try discriminate; auto.
    + now apply running_zero_Forall.
    + eapply Forall_forall in Hpr; [|exact H0]. now apply tailEv_after_close.
    + eapply Forall_forall in Hpr; [|exact H0]. now apply tailEv_after_close.
    + eapply Forall_forall in Hpr; [|exact H0]. now apply tailEv_after_close.
Qed.

Lemma queue_closed_once_after_readers_witness :
  closes exampleFinal = 1 /\ joined exampleFinal = true /\
  Forall (fun r => snd r = RDone) (rds exampleFinal).
Proof.
  destruct (@queue_closed_once_after_readers exampleWorld exampleLoader
              exampleFinal example_run)
    as (_ & _ & H3 & _ & _ & H6).
  destruct (H6 eq_refl eq_refl) as [Hc Hj].
  destruct (H3 eq_refl) as (Hr & _).
  repeat split; assumption.
Defined.

(* ================================================================== *)
(** * Further properties *)

(** ** jsonChunker: whole arrays *)

Lemma IsSpace_comma : IsSpace comma = false.
Proof. reflexivity. Qed.

Lemma IsSpace_rbracket : IsSpace rbracket = false.
Proof. reflexivity. Qed.

Lemma firstElement_ok : Element firstElement.
Proof.
  split; [constructor|]. split; [exact example_object|].
  split; [unfold Fits; vm_compute; reflexivity | repeat constructor].
Qed.

Lemma secondElement_ok : Element secondElement.
Proof.
  split; [repeat constructor|]. split.
  - eexists. split; [reflexivity | exact escaped_example_closes].
  - split; [unfold Fits; vm_compute; reflexivity | constructor].
Qed.

Lemma skipSpaces_split l :
  exists ws, l = ws ++ skipSpaces l /\ Spaces ws /\
    (skipSpaces l = [] \/
     exists c rest, skipSpaces l = c :: rest /\ IsSpace c = false).
Proof.
  induction l as [|c l (ws & Hl & Hws & Hcase)]; cbn [skipSpaces].
  - exists []. repeat split; [constructor | now left].
  - destruct (IsSpace c) eqn:Hc.
    + exists (c :: ws). cbn [app]. rewrite <- Hl. repeat split; auto.
      now constructor.
    + exists []. repeat split; [constructor | right; eauto].
Qed.

Lemma deliver_object s ch : deliver (Some (lbrace :: s)) ch = ch ++ [lbrace :: s].
Proof. reflexivity. Qed.

(** The reader loop over elements that are each followed by a comma: one
    chunk per element. *)
Lemma json_readerLoop_separated es : Forall Element es -> forall rest sz last fin ch,
  exists last',
    readerLoop jsonChunker.impl (mkReader (separated es ++ rest) sz last fin, ch)
    = readerLoop jsonChunker.impl (mkReader rest sz last' fin, ch ++ map object es).
Proof.
  induction 1 as [|e es (Hb & (s & Ho & Hs) & Hfit & Ha) _ IH]; intros rest sz last fin ch.
  - exists last. cbn [separated flat_map map app]. now rewrite app_nil_r.
  - destruct (IH rest sz (Some comma) fin (ch ++ [object e])) as [last' IH'].
    exists last'. cbn [map].
    replace (ch ++ object e :: map object es)
      with ((ch ++ [object e]) ++ map object es) by now rewrite <- app_assoc.
    rewrite <- IH'. clear IH'.
    rewrite (readerLoop_unfold json_progress). cbn [chunk jsonChunker.impl].
    cbn [separated flat_map]. unfold text. rewrite Ho in *.
    repeat rewrite <- app_assoc. cbn [app].
    rewrite (json_chunk_object comma _ sz last fin Hb Hs Hfit Ha IsSpace_comma).
    change (comma =? rbracket)%Z with false.
    change (comma =? comma)%Z with true. cbv iota.
    cbn [isEOF]. rewrite deliver_object. reflexivity.
Qed.

(** The last element and the closing bracket. *)
Lemma json_readerLoop_last e rest sz last fin ch :
  Element e ->
  readerLoop jsonChunker.impl (mkReader (text e ++ rbracket :: rest) sz last fin, ch)
  = Ret (mkReader rest sz (Some rbracket) fin, ch ++ [object e], None).
Proof.
  intros (Hb & (s & Ho & Hs) & Hfit & Ha).
  rewrite (readerLoop_unfold json_progress). cbn [chunk jsonChunker.impl].
  unfold text. rewrite Ho in *. repeat rewrite <- app_assoc. cbn [app].
  rewrite (json_chunk_object rbracket _ sz last fin Hb Hs Hfit Ha IsSpace_rbracket).
  change (rbracket =? rbracket)%Z with true. cbv iota.
  cbn [isEOF]. now rewrite deliver_object.
Qed.

Lemma json_end_rest l sz last fin :
  jsonChunker.end_ (mkReader l sz last fin)
  = Ret (match skipSpaces l, fin with
         | [], EOF => None
         | _, _ => Some (New "not all of json file consumed")
         end, mkReader (skipSpaces l) sz None fin).
Proof.
  unfold jsonChunker.end_.
  destruct (skipSpaces_split l) as (ws & Hl & Hws & [Hnil | (c & rest & Hc & Hsp)]).
  - rewrite Hnil, app_nil_r in Hl. subst l. rewrite Hnil.
    rewrite slurpSpace_end by assumption. cbn [bind]. now destruct fin.
  - rewrite Hl at 1. rewrite Hc.
    rewrite slurpSpace_skip by assumption. reflexivity.
Qed.

(** The reader goroutine on an array of elements separated by commas. *)
Lemma json_readerGo_array ws0 es e tail sz last fin :
  Spaces ws0 -> Forall Element es -> Element e ->
  readerGo jsonChunker.impl
    (mkReader (ws0 ++ lbracket :: separated es ++ text e ++ rbracket :: tail)
              sz last fin)
  = Ret (mkReport (map object es ++ [object e])
                  (match skipSpaces tail, fin with
                   | [], EOF => None
                   | _, _ => Some (New "not all of json file consumed")
                   end)).
Proof.
  intros H0 Hes He.
  unfold readerGo. cbn [begin jsonChunker.impl].
  rewrite json_begin_array by assumption.
  destruct (json_readerLoop_separated Hes (text e ++ rbracket :: tail) sz
              (Some lbracket) fin []) as [last' ->].
  rewrite json_readerLoop_last by assumption.
  cbn [bind app end_ jsonChunker.impl].
  now rewrite json_end_rest.
Qed.

(** X1.  An array of objects separated by commas, with white space
    anywhere between the tokens: the reader goroutine sends one chunk per
    object, in order, each chunk being the text of the object from its
    opening to its closing brace.  It ends without error when nothing but
    white space follows the closing bracket and the stream ends with
    [io.EOF]; otherwise [jsonChunker.end] fails (not all of json file
    consumed), after every object has been sent. *)
Theorem json_array_delivered ws0 es e tail sz last fin :
  Spaces ws0 -> Forall Element es -> Element e ->
  readerGo jsonChunker.impl
    (mkReader (ws0 ++ lbracket :: separated es ++ text e ++ rbracket :: tail)
              sz last fin)
  = Ret (mkReport (map object es ++ [object e])
                  (match skipSpaces tail, fin with
                   | [], EOF => None
                   | _, _ => Some (New "not all of json file consumed")
                   end)).
Proof. exact (@json_readerGo_array ws0 es e tail sz last fin). Qed.

Lemma json_array_delivered_witness :
  readerGo jsonChunker.impl
    (mkReader (lbracket :: separated [firstElement] ++ text secondElement
                 ++ rbracket :: lit " ") 4096 None EOF)
  = Ret (mkReport [object firstElement; object secondElement] None).
Proof.
  exact (@json_array_delivered [] [firstElement] secondElement (lit " ")
           4096 None EOF (Forall_nil _)
           (Forall_cons _ firstElement_ok (Forall_nil _)) secondElement_ok).
Defined.

Lemma json_chunk_skip ws c l sz last last' fin :
  Spaces ws -> IsSpace c = false ->
  jsonChunker.chunk (mkReader (ws ++ c :: l) sz last fin)
  = jsonChunker.chunk (mkReader (c :: l) sz last' fin).
Proof.
  intros Hws Hc. unfold jsonChunker.chunk.
  rewrite slurpSpace_skip by assumption.
  now rewrite slurpSpace_nonspace by assumption.
Qed.

Lemma json_readerLoop_skip ws c l sz last last' fin ch :
  Spaces ws -> IsSpace c = false ->
  readerLoop jsonChunker.impl (mkReader (ws ++ c :: l) sz last fin, ch)
  = readerLoop jsonChunker.impl (mkReader (c :: l) sz last' fin, ch).
Proof.
  intros Hws Hc.
  rewrite (readerLoop_unfold json_progress).
  rewrite (readerLoop_unfold json_progress (mkReader (c :: l) sz last' fin)).
  cbn [chunk jsonChunker.impl].
  rewrite (@json_chunk_skip ws c l sz last last' fin Hws Hc).
  now destruct (json_chunk_returns (mkReader (c :: l) sz last' fin)) as [x ->].
Qed.

Lemma StartsObject_text e l : Element e -> StartsObject (text e ++ l).
Proof.
  intros (Hb & (s & Ho & _) & _ & _). unfold text. rewrite Ho.
  exists (before e), (s ++ after e ++ l). split; [|assumption].
  now repeat rewrite <- app_assoc.
Qed.

Lemma StartsObject_adjacent es : Forall Element es -> forall l,
  StartsObject l -> StartsObject (flat_map text es ++ l).
Proof.
  destruct 1 as [|e es He _]; intros l Hl; [assumption|].
  cbn [flat_map]. rewrite <- app_assoc. now apply StartsObject_text.
Qed.

(** The reader loop over elements with nothing but white space between
    them. *)
Lemma json_readerLoop_adjacent es : Forall Element es -> forall rest sz last fin ch,
  StartsObject rest ->
  exists last',
    readerLoop jsonChunker.impl (mkReader (flat_map text es ++ rest) sz last fin, ch)
    = readerLoop jsonChunker.impl (mkReader rest sz last' fin, ch ++ map object es).
Proof.
  induction 1 as [|e es He Hes IH]; intros rest sz last fin ch Hrest.
  - exists last. cbn [flat_map map app]. now rewrite app_nil_r.
  - destruct (IH rest sz None fin (ch ++ [object e]) Hrest) as [last' IH'].
    exists last'. cbn [map].
    replace (ch ++ object e :: map object es)
      with ((ch ++ [object e]) ++ map object es) by now rewrite <- app_assoc.
    rewrite <- IH'. clear IH'.
    destruct (StartsObject_adjacent Hes Hrest) as (ws & l' & Hl & Hws).
    destruct He as (Hb & (s & Ho & Hs) & Hfit & Ha).
    rewrite (readerLoop_unfold json_progress). cbn [chunk jsonChunker.impl].
    cbn [flat_map]. unfold text at 1. rewrite Ho in *.
    repeat rewrite <- app_assoc. cbn [app]. rewrite Hl.
    rewrite (app_assoc (after e) ws).
    rewrite (json_chunk_object lbrace l' sz last fin Hb Hs Hfit
               (proj2 (Forall_app _ _ _) (conj Ha Hws)) IsSpace_lbrace).
    change (lbrace =? rbracket)%Z with false.
    change (lbrace =? comma)%Z with false. cbv iota.
    cbn [isEOF]. rewrite deliver_object.
    symmetry. now apply json_readerLoop_skip; [|exact IsSpace_lbrace].
Qed.

(** X2.  Commas between array elements are not required: an array whose
    objects are separated by white space only, or by nothing at all, is
    read exactly as the same array with commas.  The rune after an object
    that is neither a comma nor the closing bracket is put back, and the
    next call of [jsonChunker.chunk] finds the opening brace of the next
    object. *)
Theorem json_missing_commas_accepted ws0 es e tail sz last fin :
  Spaces ws0 -> Forall Element es -> Element e ->
  readerGo jsonChunker.impl
    (mkReader (ws0 ++ lbracket :: flat_map text es ++ text e ++ rbracket :: tail)
              sz last fin)
  = readerGo jsonChunker.impl
    (mkReader (ws0 ++ lbracket :: separated es ++ text e ++ rbracket :: tail)
              sz last fin).
Proof.
  intros H0 Hes He.
  rewrite (json_readerGo_array tail sz last fin H0 Hes He).
  unfold readerGo. cbn [begin jsonChunker.impl].
  rewrite json_begin_array by assumption.
  destruct (json_readerLoop_adjacent Hes sz (Some lbracket) fin []
              (StartsObject_text (rbracket :: tail) He)) as [last' ->].
  rewrite json_readerLoop_last by assumption.
  cbn [bind app end_ jsonChunker.impl].
  now rewrite json_end_rest.
Qed.

Lemma json_missing_commas_accepted_witness :
  readerGo jsonChunker.impl
    (mkReader (lbracket :: flat_map text [firstElement] ++ text secondElement
                 ++ rbracket :: []) 4096 None EOF)
  = Ret (mkReport [object firstElement; object secondElement] None).
Proof.
  refine (eq_trans
            (@json_missing_commas_accepted [] [firstElement] secondElement []
               4096 None EOF (Forall_nil _)
               (Forall_cons _ firstElement_ok (Forall_nil _)) secondElement_ok) _).
  vm_compute. reflexivity.
Defined.

(** X3.  An array that ends after its last object, without the closing
    bracket: [jsonChunker.chunk] scans that object to its closing brace,
    meets the end of the stream while looking for the separator and returns
    no buffer.  With a stream that ends in [io.EOF] the reader goroutine
    takes this for the end of the input and ends without error: the
    objects before the last are sent, the last one is dropped.  With any
    other read error the process ends with that error. *)
Theorem json_missing_bracket_drops_last ws0 es e sz last fin :
  Spaces ws0 -> Forall Element es -> Element e ->
  readerGo jsonChunker.impl
    (mkReader (ws0 ++ lbracket :: separated es ++ text e) sz last fin)
  = Ret (mkReport (map object es)
                  (match fin with EOF => None | _ => Some fin end)).
Proof.
  intros H0 Hes (Hb & (s & Ho & Hs) & Hfit & Ha).
  unfold readerGo. cbn [begin jsonChunker.impl].
  rewrite json_begin_array by assumption.
  destruct (json_readerLoop_separated Hes (text e) sz
              (Some lbracket) fin []) as [last' ->].
  rewrite (readerLoop_unfold json_progress). cbn [chunk jsonChunker.impl].
  unfold text. rewrite Ho in *. repeat rewrite <- app_assoc. cbn [app].
  rewrite (json_chunk_object_end sz last' fin Hb Hs Hfit Ha).
  cbn [deliver]. destruct fin; reflexivity.
Qed.

Lemma json_missing_bracket_drops_last_witness :
  readerGo jsonChunker.impl
    (mkReader (lbracket :: separated [firstElement] ++ text secondElement)
              4096 None EOF)
  = Ret (mkReport [object firstElement] None).
Proof.
  exact (@json_missing_bracket_drops_last [] [firstElement] secondElement
           4096 None EOF (Forall_nil _)
           (Forall_cons _ firstElement_ok (Forall_nil _)) secondElement_ok).
Defined.

(** X4.  An input that ends inside an object and outside any string
    literal, the braces still open: [jsonChunker.chunk] fails (malformed
    json), whatever the underlying reader reports at the end of the
    stream, and the reader goroutine ends the process with that error
    after having sent the objects before. *)
Theorem json_unclosed_object_reported ws0 es ws p d sz last fin :
  Spaces ws0 -> Forall Element es -> Spaces ws ->
  Opens 1 d p -> Fits (lbrace :: p) ->
  readerGo jsonChunker.impl
    (mkReader (ws0 ++ lbracket :: separated es ++ ws ++ lbrace :: p) sz last fin)
  = Ret (mkReport (map object es) (Some (New "malformed json"))).
Proof.
  intros H0 Hes Hws Hp Hfit.
  unfold readerGo. cbn [begin jsonChunker.impl].
  rewrite json_begin_array by assumption.
  destruct (json_readerLoop_separated Hes (ws ++ lbrace :: p) sz
              (Some lbracket) fin []) as [last' ->].
  rewrite (readerLoop_unfold json_progress). cbn [chunk jsonChunker.impl].
  unfold jsonChunker.chunk.
  rewrite slurpSpace_skip by auto using IsSpace_lbrace. cbn [bind].
  unfold ReadRune, WriteRune. cbn [pending size srcErr app].
  change (negb (lbrace =? lbrace)%Z) with false. cbv iota.
  unfold Fits in Hfit. cbn [length] in Hfit.
  change 1%Z with (Z.of_nat 1).
  rewrite <- (app_nil_r p) at 1.
  destruct (depthLoop_opens Hp [] sz (Some lbrace) fin [lbrace]
              ltac:(lia)) as [Hpos [last2 ->]].
  rewrite depthLoop_end by lia. reflexivity.
Qed.

Lemma json_unclosed_object_reported_witness :
  readerGo jsonChunker.impl
    (mkReader (lbracket :: separated [firstElement] ++ lbrace :: lit "'a': {'b': 1}")
              4096 None EOF)
  = Ret (mkReport [object firstElement] (Some (New "malformed json"))).
Proof.
  refine (@json_unclosed_object_reported [] [firstElement] [] (lit "'a': {'b': 1}")
            1 4096 None EOF (Forall_nil _)
            (Forall_cons _ firstElement_ok (Forall_nil _)) (Forall_nil _) _ _).
  - apply (@Opens_string 0 1 (lit "a'") (lit ": {'b': 1}")).
    { repeat (apply StringTail_char; [discriminate..|]). apply StringTail_close. }
    do 2 (apply Opens_char; [discriminate..|]).
    apply Opens_open.
    apply (@Opens_string 1 1 (lit "b'") (lit ": 1}")).
    { repeat (apply StringTail_char; [discriminate..|]). apply StringTail_close. }
    do 3 (apply Opens_char; [discriminate..|]).
    apply Opens_close. apply Opens_nil.
  - unfold Fits. vm_compute. reflexivity.
Defined.

(** X5.  An input whose first rune after optional white space is not an
    opening bracket: [jsonChunker.begin] fails (json file must contain
    array), naming the rune found, and the reader goroutine ends the process
    without having sent anything. *)
Theorem json_begin_rejects_non_array ws c rest sz last fin :
  Spaces ws -> IsSpace c = false -> c <> lbracket ->
  let e := Errorf "json file must contain array. Found: %v" c in
  jsonChunker.begin (mkReader (ws ++ c :: rest) sz last fin)
    = Ret (Some e, mkReader rest sz (Some c) fin) /\
  readerGo jsonChunker.impl (mkReader (ws ++ c :: rest) sz last fin)
    = Ret (mkReport [] (Some e)).
Proof.
  intros Hws Hc Hne e.
  assert (Hb : jsonChunker.begin (mkReader (ws ++ c :: rest) sz last fin)
               = Ret (Some e, mkReader rest sz (Some c) fin)).
  { unfold jsonChunker.begin. rewrite slurpSpace_skip by assumption.
    cbn [bind]. unfold ReadRune. cbn [pending size srcErr].
    apply Z.eqb_neq in Hne. now rewrite Hne. }
  split; [exact Hb|].
  unfold readerGo. cbn [begin jsonChunker.impl]. now rewrite Hb.
Qed.

Lemma json_begin_rejects_non_array_witness :
  readerGo jsonChunker.impl (jsonReader " {'k': 1}")
  = Ret (mkReport [] (Some (Errorf "json file must contain array. Found: %v" 123%Z))).
Proof.
  exact (proj2 (@json_begin_rejects_non_array (lit " ") lbrace (lit "'k': 1}")
                  4096 None EOF ltac:(repeat constructor) eq_refl
                  ltac:(discriminate))).
Defined.

(** X6.  An input that is empty or holds white space only: [slurpSpace]
    runs into the end of the stream, [jsonChunker.begin] returns the error
    of the underlying reader, [io.EOF] for a file that simply ends, and the
    reader goroutine ends the process with it.  An empty JSON file is thus
    fatal, where an empty RDF file is read without error. *)
Theorem json_blank_input_fatal ws sz last fin :
  Spaces ws ->
  jsonChunker.begin (mkReader ws sz last fin)
    = Ret (Some fin, mkReader [] sz None fin) /\
  readerGo jsonChunker.impl (mkReader ws sz last fin)
    = Ret (mkReport [] (Some fin)).
Proof.
  intros Hws.
  assert (Hb : jsonChunker.begin (mkReader ws sz last fin)
               = Ret (Some fin, mkReader [] sz None fin)).
  { unfold jsonChunker.begin. now rewrite slurpSpace_end by assumption. }
  split; [exact Hb|].
  unfold readerGo. cbn [begin jsonChunker.impl]. now rewrite Hb.
Qed.

(** [slurpSpace] in one equation. *)
Lemma slurpSpace_skipSpaces (r : Reader) :
  slurpSpace r
  = Ret (match skipSpaces (pending r) with
         | [] => Some (srcErr r)
         | _ :: _ => None
         end,
         mkReader (skipSpaces (pending r)) (size r) None (srcErr r)).
Proof.
  destruct r as [l sz last fin]. cbn [pending size srcErr].
  destruct (skipSpaces_split l) as (ws & Hl & Hws & [Hnil | (c & rest & Hc & Hsp)]).
  - rewrite Hnil, app_nil_r in Hl. subst l. rewrite Hnil.
    now apply slurpSpace_end.
  - rewrite Hl at 1. rewrite Hc. now apply slurpSpace_skip.
Qed.

Lemma json_blank_input_fatal_witness :
  readerGo jsonChunker.impl (jsonReader "  ") = Ret (mkReport [] (Some EOF)).
Proof.
  exact (proj2 (@json_blank_input_fatal (lit "  ") 4096 None EOF
                  ltac:(repeat constructor))).
Defined.

(** X7.  [slurpSpace] consumes the white space at the head of the stream
    and nothing else: what is left to read is the input from its first
    rune that is not white space on.  It returns nil when there is such a
    rune, which is put back for the next read, and the error of the
    underlying reader when the stream ends first. *)
Theorem slurpSpace_strips_leading_space (r : Reader) :
  slurpSpace r
  = Ret (match skipSpaces (pending r) with
         | [] => Some (srcErr r)
         | _ :: _ => None
         end,
         mkReader (skipSpaces (pending r)) (size r) None (srcErr r)).
Proof. exact (slurpSpace_skipSpaces r). Qed.

(** ** jsonChunker.chunk: what a returned buffer holds *)

Ltac list_eq := cbn [app]; repeat rewrite <- app_assoc; cbn [app]; reflexivity.

Lemma slurpQuoted_sound n : forall l sz last fin out r2 out2,
  length l <= n ->
  slurpQuoted (mkReader l sz last fin) out = Ret (None, r2, out2) ->
  exists q rest,
    StringTail q /\ l = q ++ rest /\ out2 = out ++ q /\
    r2 = mkReader rest sz (Some quote) fin.
Proof.
  induction n as [|n IH]; intros l sz last fin out r2 out2 Hn H;
    rewrite slurpQuoted_unfold in H; unfold slurpQuotedBody, ReadRune, WriteRune in H;
    cbn [pending size srcErr] in H.
  - destruct l; [discriminate | cbn [length] in Hn; lia].
  - destruct l as [|c l]; [discriminate|]. cbn [length] in Hn.
    destruct (c =? backslash)%Z eqn:Hb.
    + apply Z.eqb_eq in Hb. subst c.
      destruct l as [|esc l]; [discriminate|]. cbn [length] in Hn.
      apply IH in H; [|lia].
      destruct H as (q & rest & Hq & -> & -> & ->).
      exists (backslash :: esc :: q), rest. repeat split.
      * now constructor.
      * list_eq.
    + destruct (c =? quote)%Z eqn:Hq.
      * apply Z.eqb_eq in Hq. subst c. apply Ret_inj in H.
        injection H as <- <-.
        exists [quote], l. repeat split. constructor.
      * apply IH in H; [|lia].
        destruct H as (q & rest & Hq' & -> & -> & ->).
        apply Z.eqb_neq in Hb, Hq.
        exists (c :: q), rest. repeat split.
        -- now constructor.
        -- list_eq.
Qed.

Lemma depthLoop_sound n : forall l d sz last fin out r' out',
  length l <= n ->
  (Z.of_nat (S d) + Z.of_nat (length l) < 2 ^ 63)%Z ->
  jsonChunker.depthLoop (Z.of_nat (S d), mkReader l sz last fin, out)
    = Ret (inr (r', out')) ->
  exists s rest,
    Closes (S d) s /\ l = s ++ rest /\ out' = out ++ s /\
    r' = mkReader rest sz (Some rbrace) fin.
Proof.
  induction n as [|n IH]; intros l d sz last fin out r' out' Hn Hfit H.
  - destruct l; [|cbn [length] in Hn; lia].
    rewrite depthLoop_end in H by lia. discriminate.
  - destruct l as [|c l]; [rewrite depthLoop_end in H by lia; discriminate|].
    cbn [length] in Hn, Hfit.
    rewrite depthLoop_step in H by lia.
    destruct (c =? lbrace)%Z eqn:Hlb.
    { apply Z.eqb_eq in Hlb. subst c.
      rewrite wrapInt_small in H by lia.
      replace (Z.of_nat (S d) + 1)%Z with (Z.of_nat (S (S d))) in H by lia.
      apply IH in H; [|lia..].
      destruct H as (s & rest & Hs & -> & -> & ->).
      exists (lbrace :: s), rest. repeat split.
      - now constructor.
      - list_eq. }
    destruct (c =? rbrace)%Z eqn:Hrb.
    { apply Z.eqb_eq in Hrb. subst c.
      rewrite wrapInt_small in H by lia.
      destruct d as [|d].
      - rewrite depthLoop_done in H by lia.
        apply Ret_inj in H. injection H as <- <-.
        exists [rbrace], l. repeat split. constructor.
      - replace (Z.of_nat (S (S d)) - 1)%Z with (Z.of_nat (S d)) in H by lia.
        apply IH in H; [|lia..].
        destruct H as (s & rest & Hs & -> & -> & ->).
        exists (rbrace :: s), rest. repeat split.
        + now constructor.
        + list_eq. }
    destruct (c =? quote)%Z eqn:Hq.
    { apply Z.eqb_eq in Hq. subst c.
      destruct (slurpQuoted (mkReader l sz (Some quote) fin) (out ++ [quote]))
        as [[[[e|] r2] out2]| |] eqn:Hsq; try discriminate.
      apply (@slurpQuoted_sound n) in Hsq; [|lia].
      destruct Hsq as (q & rest0 & Hq & -> & -> & ->).
      rewrite length_app in Hn, Hfit.
      apply IH in H; [|lia..].
      destruct H as (s & rest & Hs & -> & -> & ->).
      exists (quote :: q ++ s), rest. repeat split.
      - now constructor.
      - list_eq.
      - list_eq. }
    apply IH in H; [|lia..].
    destruct H as (s & rest & Hs & -> & -> & ->).
    apply Z.eqb_neq in Hlb, Hrb, Hq.
    exists (c :: s), rest. repeat split.
    + now constructor.
    + list_eq.
Qed.

(** A [return] from inside the depth loop hands back no buffer. *)
Lemma depthLoop_inl s ob e r :
  jsonChunker.depthLoop s = Ret (inl (ob, e, r)) -> ob = None /\ e <> None.
Proof.
  intros H.
  refine (loop_rule (fun s => unread (snd (fst s))) jsonChunker.depthBody
            depthBody_decr
            (fun _ => True)
            (fun x => match x with
                      | inl (ob, e, _) => ob = None /\ e <> None
                      | inr _ => True
                      end) (fun _ _ _ _ => I) _ s I H).
  clear. intros [[d r] out] x _. unfold jsonChunker.depthBody.
  destruct (0 <? d)%Z; [|now intros [= <-]].
  destruct (ReadRune r) as [[ch [e|]] r1].
  - now intros [= <-].
  - destruct (ch =? lbrace)%Z; [discriminate|].
    destruct (ch =? rbrace)%Z; [discriminate|].
    destruct (ch =? quote)%Z; [|discriminate].
    destruct (slurpQuoted r1 (WriteRune out ch)) as [[[[e|] r2] out2]| |];
      cbn [bind]; try discriminate.
    now intros [= <-].
Qed.

(** A buffer that [chunk] returns with something in it is an object of
    the input, found after white space and followed by white space and a
    separator. *)
Lemma json_chunk_returns_object (r : Reader) (b : list Z) (err : option error) (r' : Reader) :
  Fits (pending r) ->
  jsonChunker.chunk r = Ret (Some b, err, r') -> b <> [] ->
  Object b /\
  exists ws ws' sep,
    Spaces ws /\ Spaces ws' /\
    pending r = ws ++ b ++ ws' ++ sep ++ pending r' /\
    ((sep = [rbracket] /\ err = Some EOF) \/
     (sep = [comma] /\ err = None) \/
     (sep = [] /\ err = None /\
      exists c rest, pending r' = c :: rest /\
                     IsSpace c = false /\ c <> comma /\ c <> rbracket)).
Proof.
  destruct r as [l sz last fin]. cbn [pending]. intros Hfit H Hb.
  unfold jsonChunker.chunk in H.
  rewrite slurpSpace_skipSpaces in H. cbn [bind pending size srcErr] in H.
  destruct (skipSpaces_split l) as (ws & Hl & Hws & [Hnil | (c & rest & Hc & Hsp)]).
  { rewrite Hnil in H. apply Ret_inj in H. congruence. }
  rewrite Hc in H. unfold ReadRune at 1 in H. cbn [pending size srcErr] in H.
  destruct (c =? lbrace)%Z eqn:Hlb; cbn [negb] in H; [|discriminate].
  apply Z.eqb_eq in Hlb. subst c.
  rewrite Hc in Hl. unfold Fits in Hfit. rewrite Hl in Hfit.
  rewrite length_app in Hfit. cbn [length] in Hfit.
  destruct (jsonChunker.depthLoop
              (1%Z, mkReader rest sz (Some lbrace) fin, WriteRune [] lbrace))
    as [[[[ob e] r1]|[r3 out]]| |] eqn:Hloop; cbn [bind] in H; try discriminate.
  { apply depthLoop_inl in Hloop. destruct Hloop as [-> _].
    apply Ret_inj in H. discriminate. }
  change 1%Z with (Z.of_nat 1) in Hloop.
  apply (@depthLoop_sound (length rest)) in Hloop; [|lia..].
  destruct Hloop as (s & rest1 & Hs & -> & -> & ->).
  rewrite slurpSpace_skipSpaces in H. cbn [bind pending size srcErr] in H.
  destruct (skipSpaces_split rest1)
    as (ws' & Hl1 & Hws' & [Hnil | (c & rest2 & Hc1 & Hsp1)]).
  { rewrite Hnil in H. apply Ret_inj in H. discriminate. }
  rewrite Hc1 in H, Hl1. unfold ReadRune in H. cbn [pending size srcErr] in H.
  assert (Hobj : Object (lbrace :: s)) by (exists s; now split).
  unfold WriteRune in H. cbn [app] in H.
  destruct (c =? rbracket)%Z eqn:Hrb.
  { apply Z.eqb_eq in Hrb. subst c. apply Ret_inj in H.
    injection H as <- <- <-. split; [assumption|].
    exists ws, ws', [rbracket]. repeat split; auto.
    rewrite Hl, Hl1. cbn [pending]. list_eq. }
  destruct (c =? comma)%Z eqn:Hcm.
  { apply Z.eqb_eq in Hcm. subst c. apply Ret_inj in H.
    injection H as <- <- <-. split; [assumption|].
    exists ws, ws', [comma]. repeat split; auto.
    rewrite Hl, Hl1. cbn [pending]. list_eq. }
  unfold UnreadRune in H. cbn [lastRune pending size srcErr Check bind] in H.
  apply Ret_inj in H. injection H as <- <- <-. split; [assumption|].
  exists ws, ws', []. repeat split; auto.
  - rewrite Hl, Hl1. cbn [pending]. list_eq.
  - right. right. cbn [pending]. repeat split.
    apply Z.eqb_neq in Hrb, Hcm. now exists c, rest2.
Qed.

(** X9.  Whatever the JSON input, well formed or not, and however the
    reader goroutine ends, every chunk that it has sent on the queue is one
    whole object. *)
Theorem json_reader_sends_objects (r : Reader) (rep : report) :
  Fits (pending r) ->
  readerGo jsonChunker.impl r = Ret rep ->
  Forall Object (sent rep).
Proof.
  intros Hfit H. unfold readerGo in H. cbn [begin end_ jsonChunker.impl] in H.
  assert (Hloop : forall r0 x,
            Fits (pending r0) ->
            readerLoop jsonChunker.impl (r0, []) = Ret x ->
            Forall Object (snd (fst x))).
  { intros r0 x Hfit0 Hx.
    refine (loop_rule (fun s => unread (fst s)) (readerBody jsonChunker.impl)
              (readerBody_decr json_progress)
              (fun s => Fits (pending (fst s)) /\ Forall Object (snd s))
              (fun x => Forall Object (snd (fst x)))
              _ _ (r0, []) (conj Hfit0 (Forall_nil _)) Hx).
    - intros [r1 ch] s' [Hf Hs]. cbn [fst snd] in Hf, Hs. unfold readerBody.
      destruct (chunk jsonChunker.impl r1) as [[[b err] r2]|e|] eqn:Ec;
        try discriminate.
      destruct (isEOF err); [discriminate|].
      destruct err; [discriminate|]. intros [= <-]. cbn [fst snd]. split.
      + apply json_progress in Ec. unfold Fits, unread in *. lia.
      + unfold deliver. destruct b as [b|]; [|assumption].
        destruct (0 <? length b)%nat eqn:El; [|assumption].
        apply Forall_app. split; [assumption|]. constructor; [|constructor].
        apply (@json_chunk_returns_object r1 b None r2 Hf Ec).
        intros ->. discriminate.
    - intros [r1 ch] y [Hf Hs]. cbn [fst snd] in Hf, Hs. unfold readerBody.
      assert (Hd : forall b err r2,
                jsonChunker.chunk r1 = Ret (b, err, r2) ->
                Forall Object (deliver b ch)).
      { intros b err r2 Ec. unfold deliver. destruct b as [b|]; [|assumption].
        destruct (0 <? length b)%nat eqn:El; [|assumption].
        apply Forall_app. split; [assumption|]. constructor; [|constructor].
        apply (@json_chunk_returns_object r1 b err r2 Hf Ec).
        intros ->. discriminate. }
      cbn [chunk jsonChunker.impl].
      destruct (jsonChunker.chunk r1) as [[[b err] r2]|e|] eqn:Ec;
        try discriminate.
      + destruct (isEOF err); [intros [= <-]; exact (Hd _ _ _ eq_refl)|].
        destruct err; intros [= <-]. exact (Hd _ _ _ eq_refl).
      + now intros [= <-]. }
  unfold jsonChunker.begin in H.
  destruct (slurpSpace r) as [[[e|] r1]| |] eqn:Es; cbn [bind] in H;
    try discriminate.
  { apply Ret_inj in H. subst rep. constructor. }
  2: { apply Ret_inj in H. subst rep. constructor. }
  apply slurpSpace_le in Es.
  destruct (ReadRune r1) as [[ch [e|]] r2] eqn:Er.
  { apply Ret_inj in H. subst rep. constructor. }
  apply ReadRune_le in Er.
  destruct (negb (ch =? lbracket)%Z).
  { apply Ret_inj in H. subst rep. constructor. }
  destruct (readerLoop jsonChunker.impl (r2, [])) as [[[r3 sent0] stop]|e|] eqn:E;
    cbn [bind] in H; try discriminate.
  apply Hloop in E; [|unfold Fits, unread in *; lia]. cbn [fst snd] in E.
  destruct stop; [apply Ret_inj in H; now subst rep|].
  destruct (jsonChunker.end_ r3) as [[err r4]|e|]; try discriminate;
    apply Ret_inj in H; now subst rep.
Qed.

(** X8.  Whatever the input, a buffer that [jsonChunker.chunk] returns
    with something in it is one whole object: it starts with an opening
    brace and its braces, string literals apart, balance at its last rune
    and not before.  It stands in the input after white space only and is
    followed by white space and a closing bracket (the call returns
    [io.EOF]), a comma, or a rune that is left unread (the call returns no
    error).  In particular no buffer comes with any other error. *)
Theorem json_chunk_sound (r : Reader) (b : list Z) (err : option error) (r' : Reader) :
  Fits (pending r) ->
  jsonChunker.chunk r = Ret (Some b, err, r') -> b <> [] ->
  Object b /\
  exists ws ws' sep,
    Spaces ws /\ Spaces ws' /\
    pending r = ws ++ b ++ ws' ++ sep ++ pending r' /\
    ((sep = [rbracket] /\ err = Some EOF) \/
     (sep = [comma] /\ err = None) \/
     (sep = [] /\ err = None /\
      exists c rest, pending r' = c :: rest /\
                     IsSpace c = false /\ c <> comma /\ c <> rbracket)).
Proof. exact (@json_chunk_returns_object r b err r'). Qed.

Lemma json_chunk_sound_witness :
  Object (lit "{'k': 'a}b'}").
Proof.
  exact (proj1 (@json_chunk_sound (jsonReader "{'k': 'a}b'}]") (lit "{'k': 'a}b'}")
                  (Some EOF) (mkReader [] 4096 (Some rbracket) EOF)
                  ltac:(unfold Fits; vm_compute; reflexivity)
                  ltac:(vm_compute; reflexivity)
                  ltac:(discriminate))).
Defined.

Lemma json_reader_sends_objects_witness :
  Forall Object [lit "{'k': 'a}b'}"].
Proof.
  exact (@json_reader_sends_objects (jsonReader "[{'k': 'a}b'} ; {'x': 1}]")
           (mkReport [lit "{'k': 'a}b'}"]
              (Some (Errorf "expected json map start. Found: %v" 59%Z)))
           ltac:(unfold Fits; vm_compute; reflexivity)
           ltac:(vm_compute; reflexivity)).
Defined.

(** ** rdfChunker.chunk on a stream that fails *)

(** The loop of [chunk] on a stream that ends with an error other than
    [io.EOF]: either it finds [n] complete lines before the stream ends, or
    it runs into the error and returns no buffer. *)
Lemma chunkLines_read_error n : forall r batch,
  srcErr r <> EOF ->
  (exists got r',
     rdfChunker.chunkLines n r batch = (Some (batch ++ got), None, r') /\
     pending r = got ++ pending r' /\ srcErr r' = srcErr r /\ WholeLines n got)
  \/
  (exists r',
     rdfChunker.chunkLines n r batch = (None, Some (srcErr r), r') /\
     pending r' = [] /\ PartialChunk n (pending r)).
Proof.
  induction n as [|n IH]; intros r batch Hsrc.
  - left. exists [], r. cbn [rdfChunker.chunkLines app]. rewrite app_nil_r.
    repeat split. constructor.
  - cbn [rdfChunker.chunkLines]. unfold Write.
    pose proof (ReadSlice_newline r) as HS.
    destruct (ReadSlice r rdfChunker.newline) as [[slc err] r1].
    destruct HS as (Hp & Hsz & Hse & [[-> Hl] | [[-> Hnin] | (-> & Hnil & Hnin)]]).
    + cbn [isEOF isBufferFull].
      destruct (IH r1 (batch ++ slc) ltac:(congruence))
        as [(got & r' & Hc & Hp' & Hse' & Hw) | (r' & Hc & Hnil & Hpc)].
      * left. exists (slc ++ got), r'. rewrite Hc, Hp, Hp', !app_assoc.
        repeat split; [congruence | now constructor].
      * right. exists r'. rewrite Hc, Hp, Hse. repeat split; auto.
        now apply PartialChunk_cons.
    + cbn [isEOF isBufferFull].
      pose proof (ReadString_newline r1) as HR.
      destruct (ReadString r1 rdfChunker.newline) as [[str err] r2].
      destruct HR as (Hp1 & Hsz1 & Hse1 & [[-> Hl] | (-> & Hnil & Hnin1)]).
      * cbn [isEOF].
        assert (Hline : Line (slc ++ str)) by now apply Line_app.
        destruct (IH r2 ((batch ++ slc) ++ str) ltac:(congruence))
          as [(got & r' & Hc & Hp' & Hse' & Hw) | (r' & Hc & Hnil & Hpc)].
        -- left. exists ((slc ++ str) ++ got), r'.
           rewrite Hc, Hp, Hp1, Hp', !app_assoc.
           repeat split; [congruence | now constructor].
        -- right. exists r'. rewrite Hc, Hp, Hp1, Hse1, Hse, app_assoc.
           repeat split; auto. now apply PartialChunk_cons.
      * right. exists r2. rewrite Hse.
        destruct (srcErr r) eqn:E; try congruence; cbn [isEOF];
          (repeat split; [assumption|]);
          rewrite Hp, Hp1, Hnil, app_nil_r; apply PartialChunk_tail;
          rewrite in_app_iff; tauto.
    + pose proof (ReadString_newline r1) as HR.
      destruct (ReadString r1 rdfChunker.newline) as [[str err] r2].
      destruct HR as (Hp1 & Hsz1 & Hse1 & Hor).
      assert (Hpc : PartialChunk (S n) (pending r)).
      { rewrite Hp, Hnil, app_nil_r. now apply PartialChunk_tail. }
      right.
      destruct (srcErr r) eqn:E; try congruence; cbn [isEOF isBufferFull];
        try (exists r1; now repeat split).
      destruct Hor as [[-> Hl] | (-> & Hnil2 & _)].
      * apply Line_length in Hl. rewrite Hnil in Hp1.
        destruct str; [simpl in Hl; lia | discriminate].
      * rewrite Hse. cbn [isEOF]. exists r2. now repeat split.
Qed.

(** X10.  [rdfChunker.chunk] on a stream that ends with an error other
    than [io.EOF].  Either the stream still holds 10^5 complete lines and
    the call returns them without error, or the call runs into the error:
    it then returns no buffer, together with the error of the underlying
    reader, so that the lines accumulated in this call (fewer than 10^5, and
    the start of a line) are dropped, and the reader loop sends nothing
    and hands the error to [x.Check]. *)
Theorem rdf_chunk_read_error (r : Reader) :
  srcErr r <> EOF ->
  (exists batch r',
     rdfChunker.chunk r = Ret (Some batch, None, r') /\
     pending r = batch ++ pending r' /\
     WholeLines (Z.to_nat 100000) batch)
  \/
  (exists r',
     rdfChunker.chunk r = Ret (None, Some (srcErr r), r') /\
     pending r' = [] /\
     PartialChunk (Z.to_nat 100000) (pending r) /\
     forall ch, readerBody rdfChunker.impl (r, ch)
                = Ret (inr (r', ch, Some (srcErr r)))).
Proof.
  intros Hsrc. fold rdfChunker.maxLines. unfold rdfChunker.chunk.
  destruct (@chunkLines_read_error rdfChunker.maxLines r [] Hsrc)
    as [(got & r' & Hc & Hp & _ & Hw) | (r' & Hc & Hnil & Hpc)].
  - left. exists got, r'. rewrite Hc. now repeat split.
  - right. exists r'. rewrite Hc. repeat split; auto.
    intros ch. unfold readerBody. cbn [chunk rdfChunker.impl].
    unfold rdfChunker.chunk. rewrite Hc. cbn [deliver].
    destruct (srcErr r); try congruence; reflexivity.
Qed.

Lemma rdf_chunk_read_error_witness :
  exists r',
    rdfChunker.chunk failingExample = Ret (None, Some ErrRead, r') /\
    pending r' = [].
Proof.
  destruct (@rdf_chunk_read_error failingExample ltac:(discriminate))
    as [(batch & r' & Hc & _) | (r' & Hc & Hnil & _)].
  - exfalso. vm_compute in Hc. discriminate.
  - exists r'. split; [exact Hc | exact Hnil].
Defined.

(** X11.  The reader goroutine on an RDF file that ends with [io.EOF],
    whatever the size of the read buffer: it ends without error, the chunks
    it has sent on the queue are, in order, the whole file cut into pieces,
    and none of them is empty; for an empty file nothing is sent. *)
Theorem rdf_reader_delivers_file (data : list Z) (sz : nat) :
  exists sent,
    readerGo rdfChunker.impl (NewReaderSize data EOF sz) = Ret (mkReport sent None) /\
    concat sent = data /\
    Forall (fun b => b <> []) sent.
Proof.
  unfold readerGo. cbn [begin end_ rdfChunker.impl].
  unfold rdfChunker.begin, rdfChunker.end_.
  destruct (@rdf_readerLoop _ (NewReaderSize data EOF sz) [] (le_n _) eq_refl)
    as (sent & r' & -> & Hcat & Hne).
  exists sent. repeat split; assumption.
Qed.

(** ** The reader goroutine with either chunker *)

Lemma newChunker_cases t c :
  newChunker t = Some c ->
  (t = rdfInput /\ c = rdfChunker.impl) \/ (t = jsonInput /\ c = jsonChunker.impl).
Proof.
  unfold newChunker.
  destruct (t =? rdfInput)%Z eqn:E1; [apply Z.eqb_eq in E1; intros [= <-]; now left|].
  destruct (t =? jsonInput)%Z eqn:E2; [|discriminate].
  apply Z.eqb_eq in E2. intros [= <-]. now right.
Qed.

Lemma newChunker_progress t c : newChunker t = Some c -> Progress c.
Proof.
  intros H. destruct (newChunker_cases _ H) as [[_ ->] | [_ ->]];
    [exact rdf_progress | exact json_progress].
Qed.

Lemma deliver_nonempty b ch :
  Forall (fun b => b <> []) ch -> Forall (fun b => b <> []) (deliver b ch).
Proof.
  intros H. unfold deliver. destruct b as [b|]; [|assumption].
  destruct (0 <? length b)%nat eqn:E; [|assumption].
  apply Forall_app. split; [assumption|]. constructor; [|constructor].
  intros ->. discriminate.
Qed.

(** X12.  The reader goroutine, with the chunker of either input format
    and on any stream, never sends an empty buffer on the queue, whether it
    runs to its end or ends the process with an error. *)
Theorem reader_never_sends_empty (t : Z) (c : chunker) (r : Reader) (rep : report) :
  newChunker t = Some c ->
  readerGo c r = Ret rep ->
  Forall (fun b => b <> []) (sent rep).
Proof.
  intros Hc H. unfold readerGo in H.
  assert (Hloop : forall r0 x, readerLoop c (r0, []) = Ret x ->
            Forall (fun b => b <> []) (snd (fst x))).
  { intros r0 x Hx.
    refine (loop_rule (fun s => unread (fst s)) (readerBody c)
              (readerBody_decr (newChunker_progress _ Hc))
              (fun s => Forall (fun b => b <> []) (snd s))
              (fun x => Forall (fun b => b <> []) (snd (fst x)))
              _ _ (r0, []) (Forall_nil _) Hx).
    - intros [r1 ch] s' Hs. unfold readerBody.
      destruct (chunk c r1) as [[[b err] r2]|e|]; try discriminate.
      destruct (isEOF err); [discriminate|].
      destruct err; [discriminate|]. intros [= <-]. now apply deliver_nonempty.
    - intros [r1 ch] y Hs. unfold readerBody.
      destruct (chunk c r1) as [[[b err] r2]|e|]; try discriminate.
      + destruct (isEOF err); [intros [= <-]; now apply deliver_nonempty|].
        destruct err; intros [= <-]. now apply deliver_nonempty.
      + now intros [= <-]. }
  destruct (begin c r) as [[[e|] r0]|e|]; try discriminate.
  - apply Ret_inj in H. subst rep. constructor.
  - destruct (readerLoop c (r0, [])) as [[[r1 ch] stop]|e|] eqn:E;
      cbn [bind] in H; try discriminate.
    apply Hloop in E. cbn [fst snd] in E.
    destruct stop; [apply Ret_inj in H; now subst rep|].
    destruct (end_ c r1) as [[err r2]|e|]; try discriminate;
      apply Ret_inj in H; now subst rep.
  - apply Ret_inj in H. subst rep. constructor.
Qed.

Lemma reader_never_sends_empty_witness :
  Forall (fun b : list Z => b <> []) [lit "{'k': 'a}b'}"].
Proof.
  exact (@reader_never_sends_empty jsonInput jsonChunker.impl
           (jsonReader "[{'k': 'a}b'},")
           (mkReport [lit "{'k': 'a}b'}"] None) eq_refl
           ltac:(vm_compute; reflexivity)).
Defined.

(** X13.  With the chunker of either input format, a call of [chunk]
    that reports no error has consumed input, and so the [for] loop of the
    reader goroutine comes to an end on every finite stream: the goroutine
    either runs to its end or ends the process with an error. *)
Theorem reader_terminates (t : Z) (c : chunker) (r : Reader) :
  newChunker t = Some c ->
  Progress c /\ exists rep, readerGo c r = Ret rep.
Proof.
  intros H. split; [exact (newChunker_progress _ H)|].
  destruct (newChunker_cases _ H) as [[_ ->] | [_ ->]];
    [apply readerGo_rdf_returns | apply readerGo_json_returns].
Qed.

Lemma reader_terminates_witness :
  exists rep, readerGo rdfChunker.impl rdfExample = Ret rep.
Proof.
  exact (proj2 (@reader_terminates rdfInput rdfChunker.impl rdfExample eq_refl)).
Defined.

(** ** The chunker of a run *)

Lemma step_loaderType c c' : step c c' -> loaderType c' = loaderType c.
Proof. destruct 1; reflexivity. Qed.

Lemma update_Forall_fst (A B : Type) (l : list (A * B)) ck : forall i a s s',
  Forall (fun p => fst p = ck) l -> nth_error l i = Some (a, s) ->
  Forall (fun p => fst p = ck) (update l i (a, s')).
Proof.
  induction l as [|x l IH]; intros i a s s' Hl Hn; [constructor|].
  apply Forall_cons_iff in Hl. destruct Hl as [Hx Hl'].
  destruct i as [|i]; cbn [update nth_error] in *.
  - injection Hn as ->. constructor; [exact Hx | exact Hl'].
  - constructor; eauto.
Qed.

(** The chunker of a run is fixed by the options. *)
Lemma steps_chunker (w : World) (ld : loader) (c : config) :
  steps (initial w ld) c ->
  exists ck,
    newChunker (loaderType c) = Some ck /\
    ck = (if negb (String.eqb (RDFDir (opt (st ld))) "")
          then rdfChunker.impl else jsonChunker.impl) /\
    Forall (fun p => fst p = ck) (rds c).
Proof.
  intros Hrun. remember (initial w ld) as c0 eqn:E.
  induction Hrun as [c|c1 c2 c3 Hsteps IH Hstep]; subst.
  - unfold initial. fields.
    destruct (negb (RDFDir (opt (st ld)) =? "")%string);
      eexists; repeat split; constructor.
  - destruct (IH eq_refl) as (ck & Hck & Hdef & Hall).
    exists ck. rewrite (step_loaderType Hstep). split; [exact Hck|].
    split; [exact Hdef|].
    destruct Hstep; fields; auto.
    + apply Forall_app. split; [assumption|].
      constructor; [|constructor]. cbn [fst]. congruence.
    + eapply update_Forall_fst; eauto.
    + eapply update_Forall_fst; eauto.
    + eapply update_Forall_fst; eauto.
Qed.

(** X14.  In every run of the map stage the input format is the one
    chosen from the options, RDF when [RDFDir] is set and JSON otherwise:
    [newChunker] is never called with an unknown format, so its panic is
    never met, and every reader goroutine of the run works with the chunker
    of that format. *)
Theorem chunker_fixed_for_run (w : World) (ld : loader) (c : config) :
  steps (initial w ld) c ->
  exists ck,
    newChunker (loaderType c) = Some ck /\
    ck = (if negb (String.eqb (RDFDir (opt (st ld))) "")
          then rdfChunker.impl else jsonChunker.impl) /\
    Forall (fun p => fst p = ck) (rds c).
Proof. exact (@steps_chunker w ld c). Qed.

Lemma chunker_fixed_for_run_witness :
  exists ck,
    newChunker (loaderType exampleFinal) = Some ck /\
    Forall (fun p => fst p = ck) (rds exampleFinal).
Proof.
  destruct (@chunker_fixed_for_run exampleWorld exampleLoader exampleFinal example_run)
    as (ck & H1 & _ & H2).
  exists ck. split; assumption.
Defined.

(** ** File discovery *)

Lemma walkFn_filter ext visits : forall files,
  Forall (fun v => snd v = None) visits ->
  walkFn ext visits files
  = (files ++ filter (isDataFile ext) (map fst visits), None).
Proof.
  induction visits as [|[path err] visits IH]; intros files Hall;
    cbn [walkFn map filter].
  - now rewrite app_nil_r.
  - apply Forall_cons_iff in Hall. destruct Hall as [Herr Hall'].
    cbn [snd] in Herr. subst err.
    rewrite IH by assumption. cbn [fst]. unfold isDataFile at 2.
    destruct (HasSuffix path ext || HasSuffix path (ext ++ ".gz")); [|reflexivity].
    now rewrite <- app_assoc.
Qed.

Lemma walkFn_error ext pre path e rest : forall files,
  Forall (fun v => snd v = None) pre ->
  snd (walkFn ext (pre ++ (path, Some e) :: rest) files) = Some e.
Proof.
  induction pre as [|[p err] pre IH]; intros files Hall; cbn [app walkFn].
  - reflexivity.
  - apply Forall_cons_iff in Hall. destruct Hall as [Herr Hall'].
    cbn [snd] in Herr. subst err. now apply IH.
Qed.

(** X15.  When the walk reports no error, [findDataFiles] returns the
    paths visited whose name ends in the extension or in the extension
    followed by [.gz], in the order of the walk; a directory with such a
    name is returned like a file. *)
Theorem findDataFiles_filters_walk (w : World) (dir ext : string) :
  Forall (fun v => snd v = None) (walk w dir) ->
  findDataFiles w dir ext
  = ([EvWalk dir], Continue (filter (isDataFile ext) (map fst (walk w dir)))).
Proof.
  intros Hall. unfold findDataFiles. cbn [tbind emit].
  now rewrite (walkFn_filter ext [] Hall).
Qed.

Lemma findDataFiles_filters_walk_witness :
  findDataFiles exampleWorld "data" ".rdf"
  = ([EvWalk "data"], Continue ["data/a.rdf.gz"%string]).
Proof.
  exact (@findDataFiles_filters_walk exampleWorld "data" ".rdf"
           ltac:(repeat constructor)).
Defined.

(** X16.  When the walk reports an error for some path, the callback
    returns it, the walk stops, and [findDataFiles] ends the process with
    status 1 through [x.Check]: the files found before are not returned. *)
Theorem findDataFiles_walk_error (w : World) (dir ext : string)
    (pre : list (string * option error)) (path : string) (e : error)
    (rest : list (string * option error)) :
  walk w dir = pre ++ (path, Some e) :: rest ->
  Forall (fun v => snd v = None) pre ->
  findDataFiles w dir ext
  = ([EvWalk dir; EvLogFatal e; EvExit 1%Z], Terminated 1%Z).
Proof.
  intros Hw Hall. unfold findDataFiles. cbn [tbind emit].
  pose proof (walkFn_error ext path e rest [] Hall) as Herr.
  rewrite <- Hw in Herr.
  destruct (walkFn ext (walk w dir) []) as [files err]. cbn [snd] in Herr.
  now subst err.
Qed.

Lemma findDataFiles_walk_error_witness :
  findDataFiles brokenWorld "data" ".rdf"
  = ([EvWalk "data"; EvLogFatal ErrRead; EvExit 1%Z], Terminated 1%Z).
Proof.
  exact (@findDataFiles_walk_error brokenWorld "data" ".rdf"
           [("data/a.rdf"%string, None)] "data/sub" ErrRead [] eq_refl
           ltac:(repeat constructor)).
Defined.

(** ** How mapStage ends *)

Lemma openReaders_exit w files : forall readers t s,
  openReaders w files readers = (t, Terminated s) ->
  s = 1%Z /\ exists t', t = t' ++ [EvExit 1%Z] /\
                        Forall (fun e => isLocal e = true) t'.
Proof.
  induction files as [|file files IH]; intros readers t s; cbn [openReaders].
  - discriminate.
  - cbn [tbind emit].
    destruct (open w file) as [[bytes fin]|e].
    + destruct (negb (HasSuffix file ".gz")).
      * destruct (openReaders w files _) as [t0 [rs|status|]] eqn:E;
          cbn [app]; try discriminate.
        intros [= <- <-]. apply IH in E. destruct E as (-> & t' & -> & Ht').
        split; [reflexivity|]. exists (EvOpen file :: t').
        split; [reflexivity | now constructor].
      * cbn [tbind emit].
        destruct (gunzip w (bytes, fin)) as [[plain fin']|e].
        -- destruct (openReaders w files _) as [t0 [rs|status|]] eqn:E;
             cbn [app]; try discriminate.
           intros [= <- <-]. apply IH in E. destruct E as (-> & t' & -> & Ht').
           split; [reflexivity|]. exists (EvOpen file :: EvGzipNewReader file :: t').
           split; [reflexivity | now repeat constructor].
        -- cbn. intros [= <- <-]. split; [reflexivity|].
           exists [EvOpen file; EvGzipNewReader file; EvLogFatal e].
           split; [reflexivity | now repeat constructor].
    + cbn. intros [= <- <-]. split; [reflexivity|].
      exists [EvOpen file; EvLogFatal e].
      split; [reflexivity | now repeat constructor].
Qed.

Lemma openReaders_not_hung w files : forall readers t,
  openReaders w files readers <> (t, Hung).
Proof.
  induction files as [|file files IH]; intros readers t; cbn [openReaders].
  - discriminate.
  - cbn [tbind emit].
    destruct (open w file) as [[bytes fin]|e]; [|discriminate].
    destruct (negb (HasSuffix file ".gz")).
    + destruct (openReaders w files _) as [t0 [rs|status|]] eqn:E;
        cbn [app]; try discriminate.
      now apply IH in E.
    + cbn [tbind emit].
      destruct (gunzip w (bytes, fin)) as [[plain fin']|e]; [|discriminate].
      destruct (openReaders w files _) as [t0 [rs|status|]] eqn:E;
        cbn [app]; try discriminate.
      now apply IH in E.
Qed.

Lemma isLocal_no_goroutine e : isLocal e = true -> startsGoroutine e = false.
Proof. destruct e; cbn; auto; discriminate. Qed.

Lemma Forall_local_no_goroutine l :
  Forall (fun e => isLocal e = true) l ->
  Forall (fun e => startsGoroutine e = false) l.
Proof. apply Forall_impl. exact isLocal_no_goroutine. Qed.

Lemma openReaders_local w files readers t rs :
  openReaders w files readers = (t, Continue rs) ->
  Forall (fun e => isLocal e = true) t.
Proof.
  intros H. pose proof (openReaders_trace w files readers) as Ht.
  rewrite H in Ht. exact Ht.
Qed.

(** The two ways through [mapStage]: an exit before any goroutine is
    started, or the start of the mappers and of one reader per entry of
    [readers], followed by the completion protocol and the tear-down. *)
Lemma mapStage_shape w ld :
  let o := opt (st ld) in
  let xidDir := (TmpDir o ++ "/xids")%string in
  (exists t',
     mapStage w ld = (t' ++ [EvExit 1%Z], Terminated 1%Z) /\
     Forall (fun e => isLocal e = true) t')
  \/
  (exists files topen readers pre rest e,
     walkFn (inputExt o) (walk w (inputDir o)) [] = (files, None) /\
     openReaders w files [] = (topen, Continue readers) /\
     readers <> [] /\
     mapStage w ld
       = (pre ++ map EvGoMapper (seq 0 (length (mappers ld)))
              ++ flat_map readerTriple (rangeOrder w readers)
              ++ EvThrWait :: EvCloseChunkCh :: EvMapperWgWait :: rest, e) /\
     Forall (fun e => isLocal e = true) pre /\
     Forall (fun e => startsGoroutine e = false) rest /\
     ((e = Terminated 1%Z /\ badgerClose w xidDir <> None /\
       exists rest', rest = rest' ++ [EvExit 1%Z] /\
                     Forall (fun e => isLocal e = true) rest')
      \/
      (Forall (fun e => isLocal e = true) rest /\
       exists ld', e = Continue ld' /\ badgerClose w xidDir = None))).
Proof.
  intros o xidDir. unfold mapStage. fold o. fold xidDir.
  fold (inputExt o). fold (inputDir o). cbn [tbind emit].
  destruct (mkdir w xidDir) as [e1|]; cbn [tCheck tret tbind emit app].
  { left. eexists [_; _; _]. split; [reflexivity | now repeat constructor]. }
  destruct (badgerOpen w xidDir) as [e2|]; cbn [tCheck tret tbind emit app].
  { left. eexists [_; _; _; _]. split; [reflexivity | now repeat constructor]. }
  unfold findDataFiles. cbn [tbind emit].
  destruct (walkFn (inputExt o) (walk w (inputDir o)) []) as [files err] eqn:Ew.
  destruct err as [e3|]; cbn [tCheck tret tbind emit app].
  { left. eexists [_; _; _; _; _; _]. split; [reflexivity | now repeat constructor]. }
  destruct (openReaders w files []) as [topen [readers|status|]] eqn:Eo;
    cbn [tbind app].
  3: now apply openReaders_not_hung in Eo.
  2: { left. apply openReaders_exit in Eo. destruct Eo as (-> & t' & -> & Ht').
       eexists (_ :: _ :: _ :: _ :: _ :: t'). split; [reflexivity|].
       now repeat constructor. }
  pose proof (openReaders_local _ _ _ Eo) as Hlocal.
  destruct readers as [|fr readers]; cbn [length Nat.eqb].
  { left. exists ([EvSetPhase "mapPhase"; EvMkdir xidDir; EvBadgerOpen xidDir;
                   EvXidmapNew; EvWalk (inputDir o)] ++ topen
                  ++ [EvPrintf "No *%s files found.\n"]).
    split; [cbn [app]; now rewrite <- app_assoc|].
    repeat constructor. apply Forall_app. split; [|now repeat constructor].
    exact Hlocal. }
  right. cbn [tbind emit emitAll tret app mappers].
  exists files, topen, (fr :: readers),
         ([EvSetPhase "mapPhase"; EvMkdir xidDir; EvBadgerOpen xidDir;
           EvXidmapNew; EvWalk (inputDir o)] ++ topen).
  destruct (badgerClose w xidDir) as [e4|];
    cbn [tCheck tret tbind emit emitAll app fst].
  - exists [EvEvictAll; EvXidDBClose; EvLogFatal e4; EvExit 1%Z], (Terminated 1%Z).
    split; [reflexivity|]. split; [exact Eo|]. split; [discriminate|].
    split; [reflexivity|]. split; [repeat constructor; exact Hlocal|].
    split; [repeat constructor|]. left.
    split; [reflexivity|]. split; [discriminate|].
    exists [EvEvictAll; EvXidDBClose; EvLogFatal e4].
    split; [reflexivity | now repeat constructor].
  - eexists ([EvEvictAll; EvXidDBClose; EvGC] ++ map EvFileClose (rev files)), _.
    split; [reflexivity|]. split; [exact Eo|]. split; [discriminate|].
    split; [cbn [app]; rewrite ?app_nil_r; reflexivity|].
    split; [repeat constructor; exact Hlocal|].
    assert (Hclose : Forall (fun e => isLocal e = true) (map EvFileClose (rev files))).
    { apply Forall_forall. intros e He.
      apply in_map_iff in He. destruct He as (f & <- & _). reflexivity. }
    split.
    + repeat constructor. now apply Forall_local_no_goroutine.
    + right. split; [now repeat constructor | eauto].
Qed.

(** ** How the process ends during the map stage *)









(** ** One reader per data file *)

Lemma walkFn_None ext visits : forall files files',
  walkFn ext visits files = (files', None) ->
  Forall (fun v => snd v = None) visits.
Proof.
  induction visits as [|[path [e|]] visits IH]; intros files files' H;
    cbn [walkFn] in H; [constructor | discriminate |].
  constructor; [reflexivity | eauto].
Qed.

Lemma setReader_keys readers file r g :
  In g (map fst (setReader readers file r)) <-> g = file \/ In g (map fst readers).
Proof.
  induction readers as [|[f r0] readers IH]; cbn [setReader map fst In].
  - intuition.
  - destruct (String.eqb_spec f file) as [->|Hne]; cbn [map fst In].
    + intuition.
    + rewrite IH. intuition.
Qed.

Lemma setReader_NoDup readers file r :
  NoDup (map fst readers) -> NoDup (map fst (setReader readers file r)).
Proof.
  induction readers as [|[f r0] readers IH]; cbn [setReader map fst]; intros H.
  - constructor; [intros [] | constructor].
  - apply NoDup_cons_iff in H. destruct H as [Hnin Hnd].
    destruct (String.eqb_spec f file) as [->|Hne]; cbn [map fst].
    + now constructor.
    + constructor; [|now apply IH].
      rewrite setReader_keys. intros [->|Hin]; [congruence | contradiction].
Qed.

Lemma setReader_In readers file r g r' :
  In (g, r') (setReader readers file r) ->
  (g = file /\ r' = r) \/ In (g, r') readers.
Proof.
  induction readers as [|[f r0] readers IH]; cbn [setReader In].
  - intros [[= <- <-]|[]]. now left.
  - destruct (String.eqb_spec f file) as [->|Hne]; cbn [In].
    + intros [[= <- <-]|Hin]; [now left | right; now right].
    + intros [Heq|Hin]; [right; now left|].
      apply IH in Hin. destruct Hin; [now left | right; now right].
Qed.

(** What the loop that opens the files leaves in [readers] when every
    file opens: one entry per file name, over the contents of that file. *)
Lemma openReaders_spec w files : forall readers t readers',
  openReaders w files readers = (t, Continue readers') ->
  (NoDup (map fst readers) -> NoDup (map fst readers')) /\
  (forall g, In g (map fst readers') <-> In g files \/ In g (map fst readers)) /\
  (forall g r, In (g, r) readers' ->
     In (g, r) readers \/ (In g files /\ ReaderOf w g r)).
Proof.
  induction files as [|file files IH]; intros readers t readers';
    cbn [openReaders].
  - intros [= _ <-]. repeat split; auto; cbn [In]; intuition.
  - cbn [tbind emit].
    destruct (open w file) as [[bytes fin]|e] eqn:Eopen; [|discriminate].
    destruct (HasSuffix file ".gz") eqn:Egz; cbn [negb].
    + cbn [tbind emit].
      destruct (gunzip w (bytes, fin)) as [[plain fin']|e] eqn:Egun; [|discriminate].
      destruct (openReaders w files _) as [t0 [rs|status|]] eqn:E;
        cbn [app]; try discriminate.
      intros [= _ <-]. apply IH in E. destruct E as (Hnd & Hkeys & Hvals).
      split; [|split].
      * intros H. now apply Hnd, setReader_NoDup.
      * intros g. rewrite Hkeys, setReader_keys. cbn [In]. intuition.
      * intros g r Hin. apply Hvals in Hin.
        destruct Hin as [Hin | [Hin Hr]]; [|right; split; [now right | exact Hr]].
        apply setReader_In in Hin. destruct Hin as [[-> ->] | Hin]; [|now left].
        right. split; [now left|]. exists bytes, fin. split; [exact Eopen|].
        right. split; [exact Egz|]. now exists plain, fin'.
    + destruct (openReaders w files _) as [t0 [rs|status|]] eqn:E;
        cbn [app]; try discriminate.
      intros [= _ <-]. apply IH in E. destruct E as (Hnd & Hkeys & Hvals).
      split; [|split].
      * intros H. now apply Hnd, setReader_NoDup.
      * intros g. rewrite Hkeys, setReader_keys. cbn [In]. intuition.
      * intros g r Hin. apply Hvals in Hin.
        destruct Hin as [Hin | [Hin Hr]]; [|right; split; [now right | exact Hr]].
        apply setReader_In in Hin. destruct Hin as [[-> ->] | Hin]; [|now left].
        right. split; [now left|]. exists bytes, fin. split; [exact Eopen|].
        left. now split.
Qed.

Lemma readersFor_app file l1 l2 :
  readersFor file (l1 ++ l2) = readersFor file l1 + readersFor file l2.
Proof. unfold readersFor. now rewrite filter_app, length_app. Qed.

Lemma readersFor_none file l :
  Forall (fun e => startsGoroutine e = false) l -> readersFor file l = 0.
Proof.
  unfold readersFor. induction 1 as [|e l He _ IH]; [reflexivity|].
  cbn [filter]. destruct e; cbn [isReaderOf]; try exact IH. discriminate.
Qed.

Lemma readersFor_mappers file l :
  readersFor file (map EvGoMapper l) = 0.
Proof. unfold readersFor. induction l; [reflexivity | exact IHl]. Qed.

Lemma readersFor_triples file rs :
  readersFor file (flat_map readerTriple rs)
  = count_occ string_dec (map fst rs) file.
Proof.
  induction rs as [|[f r] rs IH]; [reflexivity|].
  cbn [flat_map]. rewrite readersFor_app, IH.
  cbn [map fst count_occ]. unfold readersFor at 1.
  cbn [readerTriple filter isReaderOf fst snd].
  destruct (String.eqb_spec f file) as [->|Hne];
    destruct (string_dec _ _); try contradiction; reflexivity.
Qed.

Lemma mapStage_files w ld files files' :
  walkFn (inputExt (opt (st ld))) (walk w (inputDir (opt (st ld)))) files = (files', None) ->
  files' = files ++ filter (isDataFile (inputExt (opt (st ld))))
                      (map fst (walk w (inputDir (opt (st ld))))).
Proof.
  intros H. pose proof (walkFn_None _ _ _ H) as Hall.
  rewrite walkFn_filter in H by assumption. now injection H as <-.
Qed.

(** X18.  When [mapStage] returns, it has started exactly one reader
    goroutine for every data file found by the walk, and none for any other
    path, given that [range] goes through every entry of the map of readers
    once. *)
Theorem mapStage_one_reader_per_file (w : World) (ld : loader)
    (t : list event) (ld' : loader) (file : string) :
  let o := opt (st ld) in
  (forall rs, Permutation (rangeOrder w rs) rs) ->
  mapStage w ld = (t, Continue ld') ->
  readersFor file t
  = if existsb (String.eqb file)
         (filter (isDataFile (inputExt o)) (map fst (walk w (inputDir o))))
    then 1 else 0.
Proof.
  intros o Hperm H.
  destruct (mapStage_shape w ld)
    as [(t' & Hm & Ht') |
        (files & topen & readers & pre & rest & e & Hw & Ho & _ & Hm & Hpre & Hrest & He)];
    rewrite Hm in H; [discriminate|].
  injection H as <- ->. fold o in Hw.
  apply mapStage_files in Hw. cbn [app] in Hw. fold o in Hw. rewrite <- Hw.
  apply openReaders_spec in Ho. destruct Ho as (Hnd & Hkeys & _).
  specialize (Hnd (NoDup_nil _)).
  rewrite !readersFor_app, readersFor_mappers, readersFor_triples.
  rewrite (readersFor_none file (Forall_local_no_goroutine Hpre)).
  change (EvThrWait :: EvCloseChunkCh :: EvMapperWgWait :: rest)
    with ([EvThrWait; EvCloseChunkCh; EvMapperWgWait] ++ rest).
  rewrite readersFor_app, (readersFor_none file Hrest).
  cbn [readersFor filter isReaderOf length Nat.add]. rewrite Nat.add_0_r.
  rewrite (proj1 (Permutation_count_occ string_dec _ _)
             (Permutation_map fst (Hperm readers)) file).
  destruct (existsb (String.eqb file) files) eqn:Ex.
  - apply existsb_exists in Ex. destruct Ex as (g & Hin & Heq).
    apply String.eqb_eq in Heq. subst g.
    apply NoDup_count_occ'; [exact Hnd|]. apply Hkeys. now left.
  - apply count_occ_not_In. intros Hin. apply Hkeys in Hin.
    destruct Hin as [Hin|[]].
    assert (existsb (String.eqb file) files = true); [|congruence].
    apply existsb_exists. exists file. split; [exact Hin | apply String.eqb_refl].
Qed.

Lemma mapStage_one_reader_per_file_witness :
  readersFor "data/a.rdf.gz" (fst (mapStage exampleWorld exampleLoader)) = 1
  /\ readersFor "data/notes.txt" (fst (mapStage exampleWorld exampleLoader)) = 0.
Proof.
  destruct (mapStage exampleWorld exampleLoader) as [t e] eqn:E.
  destruct e as [ld'|s|]; [|vm_compute in E; discriminate..].
  split.
  - exact (@mapStage_one_reader_per_file exampleWorld exampleLoader t ld'
             "data/a.rdf.gz" (fun rs => Permutation_refl rs) E).
  - exact (@mapStage_one_reader_per_file exampleWorld exampleLoader t ld'
             "data/notes.txt" (fun rs => Permutation_refl rs) E).
Defined.

(** X19.  Every reader goroutine that [mapStage] starts is for a path
    that the walk visited and whose name passes the test of
    [findDataFiles], and it reads the contents of that very file: through a
    buffer of [1 << 20] bytes, or decompressed and through the default
    buffer when the name ends in [.gz]. *)
Theorem mapStage_reader_reads_its_file (w : World) (ld : loader)
    (file : string) (r : Reader) :
  let o := opt (st ld) in
  (forall rs, Permutation (rangeOrder w rs) rs) ->
  In (EvGoReader file r) (fst (mapStage w ld)) ->
  In file (map fst (walk w (inputDir o))) /\
  isDataFile (inputExt o) file = true /\
  ReaderOf w file r.
Proof.
  intros o Hperm H.
  destruct (mapStage_shape w ld)
    as [(t' & Hm & Ht') |
        (files & topen & readers & pre & rest & e & Hw & Ho & _ & Hm & Hpre & Hrest & He)];
    rewrite Hm in H; cbn [fst] in H.
  - apply in_app_or in H. destruct H as [H|[H|[]]]; [|discriminate].
    rewrite Forall_forall in Ht'. apply Ht' in H. discriminate.
  - fold o in Hw. apply mapStage_files in Hw. cbn [app] in Hw. fold o in Hw.
    apply openReaders_spec in Ho. destruct Ho as (_ & _ & Hvals).
    apply in_app_or in H. destruct H as [H|H].
    { apply Forall_local_no_goroutine in Hpre.
      rewrite Forall_forall in Hpre. apply Hpre in H. discriminate. }
    apply in_app_or in H. destruct H as [H|H].
    { apply in_map_iff in H. destruct H as (i & Hi & _). discriminate. }
    apply in_app_or in H. destruct H as [H|H].
    + apply in_flat_map in H. destruct H as ([f r0] & Hin & Hev).
      cbn [readerTriple fst snd In] in Hev.
      destruct Hev as [Hev|[Hev|[Hev|[]]]]; try discriminate.
      injection Hev as -> ->.
      apply (Permutation_in _ (Hperm readers)) in Hin.
      apply Hvals in Hin. destruct Hin as [[]|[Hin Hr]].
      rewrite Hw in Hin. apply filter_In in Hin. destruct Hin as [Hin Hdata].
      now repeat split.
    + destruct H as [H|[H|[H|H]]]; try discriminate.
      rewrite Forall_forall in Hrest. apply Hrest in H. discriminate.
Qed.

Lemma mapStage_reader_reads_its_file_witness :
  ReaderOf exampleWorld "data/a.rdf.gz"
    (NewReader (lit "<a> <b> <c> ." ++ [10%Z]) EOF).
Proof.
  refine (proj2 (proj2 (@mapStage_reader_reads_its_file exampleWorld exampleLoader
             "data/a.rdf.gz" (NewReader (lit "<a> <b> <c> ." ++ [10%Z]) EOF)
             (fun rs => Permutation_refl rs) _))).
  vm_compute. do 10 right. left. reflexivity.
Defined.

(** X20.  [mapStage] starts its goroutines in two rounds: one mapper
    goroutine per entry of [ld.mappers], then the readers.  No goroutine is
    started before the mappers and no mapper after the first reader. *)
Theorem mapStage_mappers_first (w : World) (ld : loader) :
  Forall (fun e => startsGoroutine e = false) (fst (mapStage w ld)) \/
  exists pre post,
    fst (mapStage w ld)
      = pre ++ map EvGoMapper (seq 0 (length (mappers ld))) ++ post /\
    Forall (fun e => startsGoroutine e = false) pre /\
    Forall (fun e => match e with EvGoMapper _ => False | _ => True end) post.
Proof.
  destruct (mapStage_shape w ld)
    as [(t' & Hm & Ht') |
        (files & topen & readers & pre & rest & e & _ & _ & _ & Hm & Hpre & Hrest & _)];
    rewrite Hm; cbn [fst].
  - left. apply Forall_app.
    split; [now apply Forall_local_no_goroutine | now repeat constructor].
  - right. exists pre. eexists. split; [reflexivity|].
    split; [now apply Forall_local_no_goroutine|].
    apply Forall_app. split.
    + apply Forall_forall. intros ev Hin. apply in_flat_map in Hin.
      destruct Hin as (fr & _ & [<-|[<-|[<-|[]]]]); exact I.
    + repeat constructor. eapply Forall_impl; [|exact Hrest].
      intros [] Hev; try exact I. discriminate.
Qed.

(** ** Readers in flight *)

Lemma steps_throttle w ld c :
  steps (initial w ld) c ->
  ceiling (thr c) = NumGoroutines (opt (st ld)) /\
  inflight (thr c) <= ceiling (thr c).
Proof.
  intros Hrun. remember (initial w ld) as c0 eqn:E.
  induction Hrun as [c|c1 c2 c3 Hsteps IH Hstep]; subst.
  - unfold initial, NewThrottle. fields. split; [reflexivity | lia].
  - destruct (IH eq_refl) as [Hc Hi].
    destruct Hstep; fields; auto.
    + match goal with H : ThrottleStart _ = Some _ |- _ =>
        unfold ThrottleStart in H;
        destruct (Nat.ltb_spec (inflight (thr c)) (ceiling (thr c))) as [Hlt|Hge];
        [injection H as <-|discriminate H]
      end.
      fields. split; [assumption | lia].
    + split; [assumption | lia].
Qed.

(** X21.  At every point of every run of the map stage, the reader
    goroutines that are not over number at most [NumGoroutines]: each one
    is started after a [thr.Start()] and calls [thr.Done()] as its last
    step.  The throttle is the counting semaphore modelled from the spec. *)
Theorem readers_bounded_by_throttle (w : World) (ld : loader) (c : config) :
  steps (initial w ld) c ->
  running (rds c) <= NumGoroutines (opt (st ld)).
Proof.
  intros Hrun.
  pose proof (Inv_running_le (steps_Inv Hrun (Inv_initial w ld))) as Hle.
  destruct (steps_throttle Hrun) as [Hc Hi]. lia.
Qed.

Lemma readers_bounded_by_throttle_witness :
  running (rds exampleFinal) <= 1.
Proof.
  exact (@readers_bounded_by_throttle exampleWorld exampleLoader exampleFinal
           example_run).
Defined.

(** ** getWriteTimestamp and newLoader: what a result means *)

Lemma timestamp_iter_cases zero : forall fuel k log,
  match iter (timestampBody zero) fuel (k, log) with
  | Ret (v, t) =>
      exists m ts,
        m < fuel /\ zero (k + m) = Reply ts /\ v = StartId ts /\
        (forall i, k <= i < k + m -> exists e, zero i = Failure e) /\
        t = log ++ retries m ++ [EvTimestamps Second 1%Z]
  | Fatal _ => False
  | OutOfFuel => forall i, k <= i < k + fuel -> exists e, zero i = Failure e
  end.
Proof.
  induction fuel as [|fuel IH]; intros k log; cbn [iter timestampBody].
  - intros i Hi. lia.
  - destruct (zero k) as [ts|e] eqn:Ek.
    + exists 0, ts. rewrite Nat.add_0_r. repeat split; [lia|assumption|].
      intros i Hi. lia.
    + specialize (IH (S k)
        ((log ++ [EvTimestamps Second 1%Z])
           ++ [EvPrintf "Error communicating with dgraph zero, retrying: %v";
               EvSleep Second])).
      destruct (iter (timestampBody zero) fuel _) as [[v t]|e'|].
      * destruct IH as (m & ts & Hm & Hz & Hv & Hfail & Ht).
        exists (S m), ts. replace (k + S m) with (S k + m) by lia.
        repeat split; [lia|assumption|assumption| |].
        -- intros i Hi. destruct (Nat.eq_dec i k) as [->|Hne]; [eauto|].
           apply Hfail. lia.
        -- rewrite Ht. unfold retries. cbn [repeat concat].
           unfold failedAttempt at 2. rewrite <- !app_assoc. reflexivity.
      * exact IH.
      * intros i Hi. destruct (Nat.eq_dec i k) as [->|Hne]; [eauto|].
        apply IH. lia.
Qed.

(** The three ways a bounded look at [getWriteTimestamp] can end. *)
Lemma getWriteTimestamp_cases (zero : nat -> reply) (attempts : nat) :
  match getWriteTimestamp zero attempts with
  | (t, Continue v) =>
      exists n ts,
        n < attempts /\ zero n = Reply ts /\ v = StartId ts /\
        (forall i, i < n -> exists e, zero i = Failure e) /\
        t = retries n ++ [EvTimestamps Second 1%Z]
  | (_, Terminated _) => False
  | (_, Hung) => forall i, i < attempts -> exists e, zero i = Failure e
  end.
Proof.
  unfold getWriteTimestamp.
  pose proof (timestamp_iter_cases zero attempts 0 []) as H.
  destruct (iter (timestampBody zero) attempts (0, [])) as [[v t]|e|].
  - destruct H as (m & ts & Hm & Hz & Hv & Hfail & Ht).
    exists m, ts. repeat split; auto.
    intros i Hi. apply Hfail. lia.
  - exact H.
  - intros i Hi. apply H. lia.
Qed.


(** X22.  What [getWriteTimestamp] does against any authority.  When it
    returns, the value is the start value of the first answer that was not
    an error, every call before that one failed, and the trace is one failed
    attempt (call, log line, sleep of one second) per failure followed by
    the call that was answered.  It never ends the process, and as long as
    it has not returned every call made so far has failed. *)
Theorem write_timestamp_first_answer (zero : nat -> reply) (attempts : nat) :
  match getWriteTimestamp zero attempts with
  | (t, Continue v) =>
      exists n ts,
        n < attempts /\ zero n = Reply ts /\ v = StartId ts /\
        (forall i, i < n -> exists e, zero i = Failure e) /\
        t = retries n ++ [EvTimestamps Second 1%Z]
  | (_, Terminated _) => False
  | (_, Hung) => forall i, i < attempts -> exists e, zero i = Failure e
  end.
Proof. exact (getWriteTimestamp_cases zero attempts). Qed.


(** ** readSchema *)

Lemma length_substring s : forall n m,
  n + m <= String.length s -> String.length (substring n m s) = m.
Proof.
  induction s as [|c s IH]; intros n m H; cbn [String.length] in H.
  - destruct n, m; cbn; lia.
  - destruct n as [|n]; cbn [substring].
    + destruct m as [|m]; [reflexivity|]. cbn [String.length].
      f_equal. apply IH. lia.
    + apply IH. lia.
Qed.

Lemma extLoop_cases path : forall i,
  i <= String.length path ->
  extLoop path i = ""%string \/
  exists j, j < i /\ extLoop path i = substring j (String.length path - j) path.
Proof.
  induction i as [|i IH]; intros Hi; cbn [extLoop]; [now left|].
  destruct (String.get i path) as [c|]; [|now left].
  destruct (Ascii.eqb c "/"); [now left|].
  destruct (Ascii.eqb c "."); [right; exists i; split; [lia | reflexivity]|].
  destruct (IH ltac:(lia)) as [H | (j & Hj & H)]; [now left|].
  right. exists j. split; [lia | exact H].
Qed.

Lemma suffix_gz path :
  3 <= String.length path ->
  substring (String.length path - 3) 3 path = ".gz"%string ->
  Ext path = ".gz"%string.
Proof.
  intros Hn Hs. unfold Ext.
  assert (Hget : forall p, p < 3 ->
            String.get (p + (String.length path - 3)) path
            = String.get p ".gz"%string).
  { intros p Hp. rewrite <- Hs. symmetry. now apply substring_correct1. }
  remember (String.length path - 3) as m eqn:Em.
  assert (Hlen : String.length path = S (S (S m))) by lia.
  rewrite Hlen at 1. cbn [extLoop].
  rewrite (Hget 2 ltac:(lia) : String.get (S (S m)) path = _).
  cbn [String.get Ascii.eqb Bool.eqb].
  rewrite (Hget 1 ltac:(lia) : String.get (S m) path = _).
  cbn [String.get Ascii.eqb Bool.eqb].
  rewrite (Hget 0 ltac:(lia) : String.get m path = _).
  cbn [String.get Ascii.eqb Bool.eqb].
  replace (String.length path - m) with 3 by lia. exact Hs.
Qed.

(** [filepath.Ext(name) == ".gz"] and [strings.HasSuffix(name, ".gz")] are
    the same test. *)
Lemma Ext_gz path : String.eqb (Ext path) ".gz" = HasSuffix path ".gz".
Proof.
  unfold HasSuffix. cbn [String.length].
  destruct (String.eqb_spec (Ext path) ".gz") as [He|He].
  - symmetry. apply andb_true_iff.
    destruct (@extLoop_cases path (String.length path) (le_n _))
      as [H | (j & Hj & H)]; fold (Ext path) in H; rewrite He in H;
      [discriminate|].
    assert (Hlen : String.length path - j = 3).
    { rewrite <- (@length_substring path j (String.length path - j)) by lia.
      now rewrite <- H. }
    split; [apply Nat.leb_le; lia|].
    apply String.eqb_eq. replace (String.length path - 3) with j by lia.
    now rewrite <- Hlen.
  - symmetry. apply andb_false_iff.
    destruct (Nat.leb_spec 3 (String.length path)) as [Hn|Hn]; [|now left].
    right. apply String.eqb_neq. intros Hs. apply He. now apply suffix_gz.
Qed.

Section ReadSchemaFacts.
Variable Update : Type.
Variable parse : list Z -> Update + error.

(** X24.  [readSchema] reads the schema file through [gzip] exactly when
    the file could be opened and its name ends in [.gz]: the test on
    [filepath.Ext] picks the same names as the test on the suffix that
    [mapStage] applies to data files. *)
Theorem readSchema_gzip_by_suffix (w : World) (filename : string) :
  In (EvGzipNewReader filename) (fst (readSchema parse w filename))
  <-> (exists f, open w filename = inl f) /\ HasSuffix filename ".gz" = true.
Proof.
  unfold readSchema. cbn [tbind emit]. rewrite Ext_gz.
  destruct (open w filename) as [f|e].
  - destruct (HasSuffix filename ".gz").
    + split; [eauto|]. intros _. cbn [tbind emit].
      destruct (gunzip w f) as [r|e]; cbn [tFatal tret tbind fst app];
        [|right; now left].
      destruct (ReadAll r) as [buf [e|]]; [cbn; right; now left|].
      destruct (parse buf); cbn; right; now left.
    + split; [|intros [_ H]; discriminate]. cbn [tbind tret app].
      destruct (ReadAll f) as [buf [e|]].
      { cbn. intros [H|[H|[H|[]]]]; discriminate. }
      destruct (parse buf); cbn; intros H;
        repeat (destruct H as [H|H]; try discriminate); contradiction.
  - split.
    + cbn. intros [H|[H|[H|[]]]]; discriminate.
    + intros [[f Hf] _]. discriminate.
Qed.

(** X25.  When [readSchema] returns, the file was opened, its contents,
    decompressed when the name ends in [.gz], were read to the end of the
    stream without error, the result is what [schema.Parse] makes of all of
    them, and the file has been closed as the last step. *)
Theorem readSchema_returns (w : World) (filename : string)
    (t : list event) (u : Update) :
  readSchema parse w filename = (t, Continue u) ->
  exists raw bytes,
    open w filename = inl raw /\
    (if HasSuffix filename ".gz" then gunzip w raw else inl raw) = inl (bytes, EOF) /\
    parse bytes = inl u /\
    last t (EvOpen filename) = EvFileClose filename.
Proof.
  unfold readSchema. cbn [tbind emit]. rewrite Ext_gz.
  destruct (open w filename) as [raw|e]; [|discriminate].
  destruct (HasSuffix filename ".gz").
  - cbn [tbind emit]. destruct (gunzip w raw) as [[bytes fin]|e] eqn:Eg;
      cbn [tFatal tret tbind app]; [|discriminate].
    cbn [ReadAll]. destruct fin; cbn [isEOF]; try discriminate.
    destruct (parse bytes) as [v|e] eqn:Ep; cbn [tFatal tret tbind emit app];
      [|discriminate].
    intros [= <- <-]. exists raw, bytes.
    split; [reflexivity|]. split; [exact Eg|]. split; [exact Ep | reflexivity].
  - cbn [tret tbind app]. destruct raw as [bytes fin].
    cbn [ReadAll]. destruct fin; cbn [isEOF]; try discriminate.
    destruct (parse bytes) as [v|e] eqn:Ep; cbn [tFatal tret tbind emit app];
      [|discriminate].
    intros [= <- <-]. exists (bytes, EOF), bytes.
    split; [reflexivity|]. split; [reflexivity|]. split; [exact Ep | reflexivity].
Qed.

(** X26.  [readSchema] returns or ends the process.  Any failure (the
    file cannot be opened, is no gzip stream, cannot be read to its end,
    does not parse) ends the process with status 1, the exit being the last
    event, and the deferred close of the file does not run. *)
Theorem readSchema_failure_exits (w : World) (filename : string) :
  match readSchema parse w filename with
  | (_, Continue _) => True
  | (t, Terminated s) =>
      s = 1%Z /\ last t (EvOpen filename) = EvExit 1%Z /\
      ~ In (EvFileClose filename) t
  | (_, Hung) => False
  end.
Proof.
  unfold readSchema. cbn [tbind emit].
  destruct (open w filename) as [raw|e].
  2: { cbn. repeat split. intros [H|[H|[H|[]]]]; discriminate. }
  destruct (String.eqb (Ext filename) ".gz").
  - cbn [tbind emit]. destruct (gunzip w raw) as [r|e];
      cbn [tFatal tret tbind app].
    2: { repeat split. intros [H|[H|[H|[H|[]]]]]; discriminate. }
    destruct (ReadAll r) as [buf [e|]].
    { cbn. repeat split. intros [H|[H|[H|[H|[]]]]]; discriminate. }
    destruct (parse buf); cbn; [exact I|].
    repeat split. intros [H|[H|[H|[H|[]]]]]; discriminate.
  - cbn [tret tbind app]. destruct (ReadAll raw) as [buf [e|]].
    { cbn. repeat split. intros [H|[H|[H|[]]]]; discriminate. }
    destruct (parse buf); cbn; [exact I|].
    repeat split. intros [H|[H|[H|[]]]]; discriminate.
Qed.

End ReadSchemaFacts.

Lemma readSchema_returns_witness :
  exists raw bytes,
    open schemaWorld "schema.gz" = inl raw /\
    gunzip schemaWorld raw = inl (bytes, EOF).
Proof.
  destruct (@readSchema_returns (list Z) (fun b => inl b) schemaWorld "schema.gz"
              [EvOpen "schema.gz"; EvGzipNewReader "schema.gz"; EvFileClose "schema.gz"]
              (lit "name: string .") ltac:(vm_compute; reflexivity))
    as (raw & bytes & Ho & Hg & _ & _).
  exists raw, bytes. split; [exact Ho | exact Hg].
Defined.
